(** * Platzbelegung: the BFV fixture-list parser of [src/App.tsx]

    [src/App.tsx] holds two variants of the parser.  The first one
    (lines 1-299) is embedded in module [V1], the second one (lines 300-686)
    in module [V2]; the helpers that both variants share word for word
    ([normalizeSpaces], [toISODate], [makeId], [detectHomeAndSplit]) are
    embedded once.

    JavaScript strings are sequences of UTF-16 code units and are modelled
    as [list N].  The built-ins whose definition is a Unicode table or an
    external library ([toUpperCase], [toLowerCase], [localeCompare], the
    [dayjs] date library, [Number] outside plain decimal digits) are the
    fields of the class [Host]. *)

From Stdlib Require Import List NArith ZArith Bool Arith Lia String Ascii.
From Stdlib Require Import Sorting.Sorted Sorting.Permutation.
Import ListNotations.

(** ** JavaScript strings *)

Definition jsstring := list N.

(** [u "text"] is the JavaScript string with the code units of an ASCII
    literal. *)
Definition u (s : string) : jsstring :=
  map N_of_ascii (list_ascii_of_string s).

Definition cu_eqb (a b : N) : bool := N.eqb a b.

Fixpoint str_eqb (a b : jsstring) : bool :=
  match a, b with
  | [], [] => true
  | x :: a', y :: b' => cu_eqb x y && str_eqb a' b'
  | _, _ => false
  end.

(** [WhiteSpace] and [LineTerminator] of ECMAScript: the characters that
    [String.prototype.trim] strips and that the class [\s] matches. *)
Definition isLineTerminator (c : N) : bool :=
  (c =? 10)%N || (c =? 13)%N || (c =? 8232)%N || (c =? 8233)%N.

Definition isWhiteSpace (c : N) : bool :=
  (c =? 9)%N || (c =? 11)%N || (c =? 12)%N || (c =? 32)%N || (c =? 160)%N
  || (c =? 5760)%N || ((8192 <=? c)%N && (c <=? 8202)%N)
  || (c =? 8239)%N || (c =? 8287)%N || (c =? 12288)%N || (c =? 65279)%N
  || isLineTerminator c.

Definition isDigit (c : N) : bool := (48 <=? c)%N && (c <=? 57)%N.

(** The class [.] of a regular expression without the [s] flag. *)
Definition isDot (c : N) : bool := negb (isLineTerminator c).

Fixpoint dropWhile (p : N -> bool) (s : jsstring) : jsstring :=
  match s with
  | [] => []
  | c :: s' => if p c then dropWhile p s' else s
  end.

Definition trimStart (s : jsstring) : jsstring := dropWhile isWhiteSpace s.
Definition trimEnd (s : jsstring) : jsstring :=
  rev (dropWhile isWhiteSpace (rev s)).

(** [s.trim()] *)
Definition trim (s : jsstring) : jsstring := trimEnd (trimStart s).

(** [s.startsWith(p)] *)
Fixpoint startsWith (s p : jsstring) {struct p} : bool :=
  match p, s with
  | [], _ => true
  | x :: p', y :: s' => cu_eqb x y && startsWith s' p'
  | _ :: _, [] => false
  end.

(** [s.endsWith(p)] *)
Definition endsWith (s p : jsstring) : bool := startsWith (rev s) (rev p).

(** [s.indexOf(p)], as [None] for [-1]. *)
Fixpoint indexOf_from (i : nat) (s p : jsstring) : option nat :=
  if startsWith s p then Some i
  else match s with
       | [] => None
       | _ :: s' => indexOf_from (S i) s' p
       end.

Definition indexOf (s p : jsstring) : option nat := indexOf_from 0 s p.

(** [s.includes(p)] *)
Definition includes (s p : jsstring) : bool :=
  match indexOf s p with Some _ => true | None => false end.

(** [s.lastIndexOf(p)]: the greatest index at which [p] occurs, [-1] when
    there is none. *)
Fixpoint lastIndexOf_from (i : nat) (s p : jsstring) : option nat :=
  let here := if startsWith s p then Some i else None in
  match s with
  | [] => here
  | _ :: s' =>
      match lastIndexOf_from (S i) s' p with
      | Some j => Some j
      | None => here
      end
  end.

Definition lastIndexOf (s p : jsstring) : Z :=
  match lastIndexOf_from 0 s p with
  | Some j => Z.of_nat j
  | None => (-1)%Z
  end.

(** [s.slice(start, end)] and [s.slice(start)]: a negative index counts
    from the end of the string, and both indices are clamped. *)
Definition slice_index (len : nat) (k : Z) : nat :=
  if (k <? 0)%Z then Z.to_nat (Z.max (Z.of_nat len + k) 0)
  else Nat.min (Z.to_nat k) len.

Definition slice (s : jsstring) (start : Z) (stop : option Z) : jsstring :=
  let len := List.length s in
  let from := slice_index len start in
  let to := match stop with
            | Some e => slice_index len e
            | None => len
            end in
  firstn (to - from) (skipn from s).

(** [s.padStart(2, "0")] *)
Definition padStart2 (s : jsstring) : jsstring :=
  repeat 48%N (2 - List.length s) ++ s.

(** [s.split(".")] *)
Fixpoint split_on (sep : N) (cur : jsstring) (s : jsstring) : list jsstring :=
  match s with
  | [] => [rev cur]
  | c :: s' =>
      if cu_eqb c sep then rev cur :: split_on sep [] s'
      else split_on sep (c :: cur) s'
  end.

Definition split_dot (s : jsstring) : list jsstring := split_on 46%N [] s.

(** [txt.split(/\r?\n/)]: a line ends at a line feed, and a carriage
    return directly before that line feed belongs to the separator. *)
Fixpoint split_lines_from (cur : jsstring) (s : jsstring) : list jsstring :=
  match s with
  | [] => [rev cur]
  | c :: s' =>
      if cu_eqb c 10 then rev cur :: split_lines_from [] s'
      else
        match s' with
        | d :: s'' =>
            if cu_eqb c 13 && cu_eqb d 10
            then rev cur :: split_lines_from [] s''
            else split_lines_from (c :: cur) s'
        | [] => split_lines_from (c :: cur) s'
        end
  end.

Definition split_lines (txt : jsstring) : list jsstring :=
  split_lines_from [] txt.

(** ** Regular expressions

    The fragment of ECMAScript regular expressions that the parser uses:
    character classes, concatenation, alternation, greedy and lazy
    repetition of a character class, capture groups and the anchors [^]
    and [$] (without the [m] flag).  [run] returns the matcher states that
    the backtracking matcher reaches, in its order of preference; the match
    it reports is the first of them. *)

Inductive regex : Type :=
| Eps
| Chr (p : N -> bool)
| Seq (r1 r2 : regex)
| Alt (r1 r2 : regex)
| Star (greedy : bool) (p : N -> bool)
| Group (n : nat) (r : regex)
| Bol
| Eol.

Record mstate : Type := MState {
  pos : nat;                      (* index of the next code unit *)
  rest : jsstring;                (* input from [pos] on *)
  caps : list (nat * jsstring)    (* capture groups closed so far *)
}.

Definition advance (st : mstate) (r : jsstring) : mstate :=
  {| pos := S (pos st); rest := r; caps := caps st |}.

Fixpoint star_run (greedy : bool) (p : N -> bool) (n : nat) (s : jsstring)
    (cs : list (nat * jsstring)) : list mstate :=
  let here := {| pos := n; rest := s; caps := cs |} in
  match s with
  | c :: s' =>
      if p c then
        if greedy then star_run greedy p (S n) s' cs ++ [here]
        else here :: star_run greedy p (S n) s' cs
      else [here]
  | [] => [here]
  end.

Definition close_group (n : nat) (st st' : mstate) : mstate :=
  {| pos := pos st'; rest := rest st';
     caps := (n, firstn (pos st' - pos st) (rest st)) :: caps st' |}.

Fixpoint run (r : regex) (st : mstate) : list mstate :=
  match r with
  | Eps => [st]
  | Chr p =>
      match rest st with
      | c :: s' => if p c then [advance st s'] else []
      | [] => []
      end
  | Seq r1 r2 => flat_map (run r2) (run r1 st)
  | Alt r1 r2 => run r1 st ++ run r2 st
  | Star greedy p => star_run greedy p (pos st) (rest st) (caps st)
  | Group n r1 => map (close_group n st) (run r1 st)
  | Bol => if Nat.eqb (pos st) 0 then [st] else []
  | Eol => match rest st with [] => [st] | _ :: _ => [] end
  end.

(** The result of [RegExp.prototype.exec]: where the match starts, where
    it ends, and the capture groups. *)
Record rmatch : Type := RMatch {
  m_index : nat;
  m_end : mstate
}.

Fixpoint exec_from (r : regex) (n : nat) (s : jsstring) : option rmatch :=
  match run r {| pos := n; rest := s; caps := [] |} with
  | st :: _ => Some {| m_index := n; m_end := st |}
  | [] =>
      match s with
      | [] => None
      | _ :: s' => exec_from r (S n) s'
      end
  end.

(** [s.match(r)] for a regular expression without the [g] flag. *)
Definition re_match (r : regex) (s : jsstring) : option rmatch :=
  exec_from r 0 s.

(** [r.test(s)] *)
Definition re_test (r : regex) (s : jsstring) : bool :=
  match re_match r s with Some _ => true | None => false end.

Fixpoint lookup_group (k : nat) (cs : list (nat * jsstring)) : option jsstring :=
  match cs with
  | [] => None
  | (n, v) :: cs' => if Nat.eqb n k then Some v else lookup_group k cs'
  end.

(** [m[k]] for [k >= 1]; [None] is [undefined], a group that took no part
    in the match. *)
Definition group (m : rmatch) (k : nat) : option jsstring :=
  lookup_group k (caps (m_end m)).

(** Building blocks for the regular-expression literals of the source. *)
Definition chr (c : N) : regex := Chr (cu_eqb c).

Fixpoint lit (s : jsstring) : regex :=
  match s with
  | [] => Eps
  | [c] => chr c
  | c :: s' => Seq (chr c) (lit s')
  end.

(** [Canonicalize] of a regular expression with the [i] flag and without
    the [u] flag, on the code units below 256: the upper-case mapping when
    it is a single code unit.  The micro sign and y-diaeresis map outside
    this range. *)
Definition canonicalize (c : N) : N :=
  if (97 <=? c)%N && (c <=? 122)%N then (c - 32)%N
  else if (224 <=? c)%N && (c <=? 254)%N && negb (c =? 247)%N then (c - 32)%N
  else if (c =? 181)%N then 924%N
  else if (c =? 255)%N then 376%N
  else c.

(** A pattern character under the [i] flag.  The patterns of the source
    are ASCII and U-diaeresis; no code unit from 256 on canonicalizes to
    one of these. *)
Definition chr_ci (c : N) : regex :=
  Chr (fun x => (x <? 256)%N && cu_eqb (canonicalize c) (canonicalize x)).

Fixpoint lit_ci (s : jsstring) : regex :=
  match s with
  | [] => Eps
  | [c] => chr_ci c
  | c :: s' => Seq (chr_ci c) (lit_ci s')
  end.

Fixpoint alts (rs : list regex) : regex :=
  match rs with
  | [] => Eps
  | [r] => r
  | r :: rs' => Alt r (alts rs')
  end.

Fixpoint seqs (rs : list regex) : regex :=
  match rs with
  | [] => Eps
  | [r] => r
  | r :: rs' => Seq r (seqs rs')
  end.

(** [\s], [\s+], [\d{2}], [\d{4}], [.*] and [.*?] *)
Definition re_s : regex := Chr isWhiteSpace.
Definition re_s_plus : regex := Seq (Chr isWhiteSpace) (Star true isWhiteSpace).
Definition re_d : regex := Chr isDigit.
Definition re_d2 : regex := Seq re_d re_d.
Definition re_d4 : regex := Seq re_d2 re_d2.
Definition re_dot_star : regex := Star true isDot.
Definition re_dot_star_lazy : regex := Star false isDot.

(** ** Exceptions

    A property read on [undefined] throws a [TypeError]; [outcome] is the
    result of a computation that may throw. *)

Inductive outcome (A : Type) : Type :=
| Returns (a : A)
| Throws.

Arguments Returns {A} a.
Arguments Throws {A}.

Definition bind {A B : Type} (c : outcome A) (k : A -> outcome B) : outcome B :=
  match c with
  | Returns a => k a
  | Throws => Throws
  end.

Notation "x <- c ;; k" := (bind c (fun x => k))
  (at level 61, c at next level, right associativity).

(** A capture group that the program uses as a string. *)
Definition defined {A : Type} (o : option A) : outcome A :=
  match o with
  | Some a => Returns a
  | None => Throws
  end.

(** ** The host: Unicode tables and the date library *)

Class Host : Type := {
  (** [s.toUpperCase()] and [s.toLowerCase()] *)
  toUpperCase : jsstring -> jsstring;
  toLowerCase : jsstring -> jsstring;
  (** [a.localeCompare(b)] *)
  localeCompare : jsstring -> jsstring -> Z;
  (** [dayjs(s).format("YYYY-MM-DD")] *)
  dayjs_format : jsstring -> jsstring;
  (** [String(Number(s))] for an [s] that is not a plain decimal numeral of
      at most 15 digits *)
  number_string_other : jsstring -> jsstring
}.

(** [String(Number(s))]: surrounding white space is ignored, the empty
    numeral is 0, and a decimal numeral of at most 15 digits (below 2^53)
    prints without its leading zeros. *)
Definition strip_zeros (t : jsstring) : jsstring :=
  match dropWhile (cu_eqb 48) t with
  | [] => [48%N]
  | t' => t'
  end.

Definition number_string {H : Host} (s : jsstring) : jsstring :=
  let t := trim s in
  match t with
  | [] => [48%N]
  | _ :: _ =>
      if forallb isDigit t && (List.length t <=? 15)
      then strip_zeros t
      else number_string_other s
  end.

(** [String(x)] for an element of a destructured array: a missing element
    is [undefined]. *)
Definition string_of_element {H : Host} (x : option jsstring) : jsstring :=
  match x with
  | Some s => number_string s
  | None => u "undefined"
  end.

(** [Array.prototype.sort(cmp)]: the stable sort (ECMAScript 2019) of an
    array under a consistent comparator; [x] goes before [y] when
    [cmp x y <= 0]. *)
Section ArraySort.
Variable A : Type.
Variable cmp : A -> A -> Z.

Fixpoint insert_sorted (x : A) (l : list A) : list A :=
  match l with
  | [] => [x]
  | y :: l' =>
      if (cmp x y <=? 0)%Z then x :: l else y :: insert_sorted x l'
  end.

Fixpoint array_sort (l : list A) : list A :=
  match l with
  | [] => []
  | x :: l' => insert_sorted x (array_sort l')
  end.
End ArraySort.

Arguments insert_sorted {A} cmp x l.
Arguments array_sort {A} cmp l.

(** Under the comparator [cmp], [x] may stand before [y], and [x] compares
    equal to [k]. *)
Definition before {A : Type} (cmp : A -> A -> Z) (x y : A) : Prop :=
  (cmp x y <= 0)%Z.

Definition same_key {A : Type} (cmp : A -> A -> Z) (k x : A) : bool :=
  (cmp k x <=? 0)%Z && (cmp x k <=? 0)%Z.

(** [xs.map(f)] for an [f] that reads and writes a module-level variable
    of type [S]. *)
Fixpoint map_st {A B S : Type} (f : A -> S -> B * S) (l : list A) (s : S)
    : list B * S :=
  match l with
  | [] => ([], s)
  | x :: l' =>
      let (y, s1) := f x s in
      let (ys, s2) := map_st f l' s1 in
      (y :: ys, s2)
  end.

(** [xs.filter((g) => !!g)] on an array of objects and [null]s. *)
Fixpoint filter_non_null {A : Type} (l : list (option A)) : list A :=
  match l with
  | [] => []
  | Some x :: l' => x :: filter_non_null l'
  | None :: l' => filter_non_null l'
  end.

(** ** Domain configuration and types (lines 13-52 and 311-351) *)

Inductive FieldName : Type :=
| Field_A
| Field_B
| Field_C
| Frimmersdorf
| Vestenbergsgreuth
| ASV_Weisendorf_Kunstrasen.

Definition FIELDS : list FieldName :=
  [Field_A; Field_B; Field_C; Frimmersdorf; Vestenbergsgreuth;
   ASV_Weisendorf_Kunstrasen].

Definition OUR_TEAM_PREFIXES : list jsstring :=
  [ u "(SG) TSV Lonnerstadt II/ASV Weisendorf";
    u "TSV Lonnerstadt 2 (7er)";
    u "TSV Lonnerstadt AH";
    u "TSV Lonnerstadt 3";
    u "TSV Lonnerstadt 2";
    u "TSV Lonnerstadt/ ASV Weisendorf";
    u "(SG) TSV Lonnerstadt II";
    u "(SG) TSV Lonnerstadt";
    u "TSV Lonnerstadt" ].

Module GameRaw.
Record t : Type := Make {
  lineIdx : nat;
  spieltyp : jsstring;
  spielklasse : jsstring;
  date : jsstring;
  time : jsstring;
  pairing : jsstring;
  venue : jsstring;
  section : jsstring
}.
End GameRaw.

Module GameItem.
Record t : Type := Make {
  id : jsstring;
  date : jsstring;
  time : jsstring;
  dt : jsstring;
  section : jsstring;
  competition : jsstring;
  homeTeam : jsstring;
  awayTeam : jsstring;
  isHome : bool;
  venue : jsstring;
  suggestedField : option FieldName;
  assignedField : option FieldName
}.
End GameItem.

(** The object that [detectHomeAndSplit] returns. *)
Module Split.
Record t : Type := Make {
  homeTeam : jsstring;
  awayTeam : jsstring;
  isHome : bool
}.
End Split.

(** ** Helpers (lines 55-80 and 354-382) *)

(** [s.replace(/\u00A0/g, " ")] *)
Definition replace_nbsp (s : jsstring) : jsstring :=
  map (fun c => if cu_eqb c 160 then 32%N else c) s.

(** [s.replace(/\s+/g, " ")]: every maximal run of white space becomes one
    space; [in_run] tells that the previous code unit was white space. *)
Fixpoint replace_ws_runs (in_run : bool) (s : jsstring) : jsstring :=
  match s with
  | [] => []
  | c :: s' =>
      if isWhiteSpace c
      then if in_run then replace_ws_runs true s'
           else 32%N :: replace_ws_runs true s'
      else c :: replace_ws_runs false s'
  end.

Definition normalizeSpaces (s : jsstring) : jsstring :=
  trim (replace_ws_runs false (replace_nbsp s)).

Definition toISODate {H : Host} (dmy : jsstring) : jsstring :=
  let parts := split_dot dmy in
  let d := nth_error parts 0 in
  let m := nth_error parts 1 in
  let y := nth_error parts 2 in
  dayjs_format
    (string_of_element y ++ u "-" ++ padStart2 (string_of_element m)
       ++ u "-" ++ padStart2 (string_of_element d)).

Definition makeId (gr : GameRaw.t) : jsstring :=
  GameRaw.date gr ++ u "_" ++ GameRaw.time gr ++ u "_"
    ++ slice (normalizeSpaces (GameRaw.pairing gr)) 0 (Some 60%Z).

Definition str_length (s : jsstring) : Z := Z.of_nat (List.length s).

(** The comparator of line 67, [(a, b) => b.length - a.length]: longer
    strings first. *)
Definition by_length_desc (a b : jsstring) : Z :=
  (str_length b - str_length a)%Z.

(** The test of the first loop of [detectHomeAndSplit] and the predicate
    of its [find]. *)
Definition left_match (text prefix : jsstring) : bool :=
  startsWith text (prefix ++ u " ") || str_eqb text prefix.

Definition right_match (text p : jsstring) : bool :=
  endsWith text (u " " ++ p) || str_eqb text p || includes text (u " " ++ p).

(** A string in a condition: the empty string is falsy. *)
Definition truthy (s : jsstring) : bool :=
  match s with [] => false | _ :: _ => true end.

(** [detectHomeAndSplit] reads the module-level array [OUR_TEAM_PREFIXES]
    and sorts it in place; the array is passed in and handed back.  The
    [find] of the second phase sees the sorted array. *)
Definition detectHomeAndSplit (pairing : jsstring) (prefixes : list jsstring)
    : Split.t * list jsstring :=
  let text := normalizeSpaces pairing in
  let sorted := array_sort by_length_desc prefixes in
  let result :=
    match find (left_match text) sorted with
    | Some prefix =>
        let rest := trim (slice text (str_length prefix) None) in
        {| Split.homeTeam := prefix; Split.awayTeam := rest;
           Split.isHome := true |}
    | None =>
        let fallback :=
          {| Split.homeTeam := text; Split.awayTeam := [];
             Split.isHome := false |} in
        match find (right_match text) sorted with
        | Some rightPrefix =>
            if truthy rightPrefix then
              let idx := lastIndexOf text rightPrefix in
              let left := trim (slice text 0 (Some idx)) in
              {| Split.homeTeam := left; Split.awayTeam := rightPrefix;
                 Split.isHome := false |}
            else fallback
        | None => fallback
        end
    end in
  (result, sorted).

(** The regular expressions of [parseBFVText]. *)

(** [(FS|ME|PO)] as group 1 *)
Definition re_type_code : regex :=
  Group 1 (alts [lit (u "FS"); lit (u "ME"); lit (u "PO")]).

(** [/^(FS|ME|PO)\s+/] *)
Definition re_row_start : regex := seqs [Bol; re_type_code; re_s_plus].

(** [/^(FS|ME|PO)\s+( .* )$/]; the comments write a space inside the
    parentheses of a group that holds a star. *)
Definition re_type_rest : regex :=
  seqs [Bol; re_type_code; re_s_plus; Group 2 re_dot_star; Eol].

(** [\d{2}\.\d{2}\.\d{4}] and [\d{2}:\d{2}] *)
Definition re_date : regex := seqs [re_d2; chr 46; re_d2; chr 46; re_d4].
Definition re_time : regex := seqs [re_d2; chr 58; re_d2].

(** [/^( .*? )\s(\d{2}\.\d{2}\.\d{4})\s(\d{2}:\d{2}|SPIELFREI)\s( .* )$/]
    (line 146); the variant of line 425 wraps the time in [(?:...)], which
    groups without capturing. *)
Definition re_date_time : regex :=
  seqs [Bol; Group 1 re_dot_star_lazy; re_s; Group 2 re_date; re_s;
        Group 3 (Alt re_time (lit (u "SPIELFREI"))); re_s;
        Group 4 re_dot_star; Eol].

(** The lines of the input:
    [txt.split(/\r?\n/).map((l) => l.replace(/\u00A0/g, " ").trim())
        .filter((l) => l.length > 0)] *)
Definition input_lines (txt : jsstring) : list jsstring :=
  filter (fun l => 0 <? List.length l)
    (map (fun l => trim (replace_nbsp l)) (split_lines txt)).

Definition isRowStart (l : jsstring) : bool := re_test re_row_start l.

Definition SPIELFREI : jsstring := u "SPIELFREI".

(** The comparator of lines 242 and 482:
    [(a, b) => a.dt.localeCompare(b.dt)]. *)
Definition by_dt {H : Host} (a b : GameItem.t) : Z :=
  localeCompare (GameItem.dt a) (GameItem.dt b).

(** ** The first variant (lines 1-299) *)

Module V1.

(** Lines 81-93. *)
Definition suggestFieldFromVenue {H : Host} (venue : jsstring)
    : option FieldName :=
  let v := toLowerCase venue in
  if includes v (u "frimmersdorf") then Some Frimmersdorf
  else if includes v (u "vestenbergsgreuth") then Some Vestenbergsgreuth
  else if includes v (u "weisendorf") && includes v (u "kunstrasen")
  then Some ASV_Weisendorf_Kunstrasen
  else if includes v (u "am sonnenh" ++ [252%N] ++ u "gel") then
    if includes v (u "platz 1") then Some Field_A
    else if includes v (u "platz 2") then Some Field_B
    else if includes v (u "platz 3") then Some Field_C
    else Some Field_A
  else None.

(** Lines 94-115. *)
Definition mapRawToGame {H : Host} (gr : GameRaw.t) (prefixes : list jsstring)
    : option GameItem.t * list jsstring :=
  if str_eqb (toUpperCase (GameRaw.time gr)) SPIELFREI then (None, prefixes)
  else
    let (split, prefixes') := detectHomeAndSplit (GameRaw.pairing gr) prefixes in
    let iso := toISODate (GameRaw.date gr) in
    let dt :=
      iso ++ u "T"
        ++ (if Nat.eqb (List.length (GameRaw.time gr)) 4
            then u "0" ++ GameRaw.time gr else GameRaw.time gr)
        ++ u ":00" in
    let competition :=
      trim (GameRaw.spieltyp gr ++ u " " ++ GameRaw.spielklasse gr) in
    let suggestedField :=
      if Split.isHome split then suggestFieldFromVenue (GameRaw.venue gr)
      else None in
    (Some {| GameItem.id := makeId gr;
             GameItem.date := iso;
             GameItem.time := GameRaw.time gr;
             GameItem.dt := dt;
             GameItem.section := GameRaw.section gr;
             GameItem.competition := competition;
             GameItem.homeTeam := Split.homeTeam split;
             GameItem.awayTeam := Split.awayTeam split;
             GameItem.isHome := Split.isHome split;
             GameItem.venue := GameRaw.venue gr;
             GameItem.suggestedField := suggestedField;
             GameItem.assignedField := suggestedField |},
     prefixes').

(** Lines 119-132: membership in the list of section names. *)
Definition section_names : list jsstring :=
  [ u "Herren " ++ [220%N] ++ u "32";
    u "Herren";
    u "Herren-Reserve";
    u "A-Junioren";
    u "B-Junioren";
    u "C-Junioren";
    u "D-Junioren";
    u "E-Junioren";
    u "Frauen";
    u "C-Juniorinnen";
    u "E-Juniorinnen" ].

Definition isHeaderSection (l : jsstring) : bool :=
  existsb (str_eqb (replace_ws_runs false l)) section_names.

(** Lines 135-155: the loop over the lines; [i] is the index of the
    first line of [ls]. *)
Fixpoint rows (ls : list jsstring) (i : nat) (currentSection : jsstring)
    (raws : list GameRaw.t) : outcome (list GameRaw.t) :=
  match ls with
  | [] => Returns raws
  | line :: ls' =>
      if isHeaderSection line then rows ls' (S i) line raws
      else if negb (isRowStart line) then rows ls' (S i) currentSection raws
      else
        match re_match re_type_rest line with
        | None => rows ls' (S i) currentSection raws
        | Some m =>
            spieltyp <- defined (group m 1) ;;
            rest <- defined (group m 2) ;;
            raw <-
              match re_match re_date_time rest with
              | Some dt =>
                  g1 <- defined (group dt 1) ;;
                  g2 <- defined (group dt 2) ;;
                  g3 <- defined (group dt 3) ;;
                  g4 <- defined (group dt 4) ;;
                  Returns
                    {| GameRaw.lineIdx := i; GameRaw.spieltyp := spieltyp;
                       GameRaw.spielklasse := trim g1; GameRaw.date := g2;
                       GameRaw.time := g3; GameRaw.pairing := trim g4;
                       GameRaw.venue := []; GameRaw.section := currentSection |}
              | None =>
                  Returns
                    {| GameRaw.lineIdx := i; GameRaw.spieltyp := spieltyp;
                       GameRaw.spielklasse := []; GameRaw.date := [];
                       GameRaw.time := []; GameRaw.pairing := [];
                       GameRaw.venue := []; GameRaw.section := currentSection |}
              end ;;
            rows ls' (S i) currentSection (raws ++ [raw])
        end
  end.

Definition tokenize (txt : jsstring) : outcome (list GameRaw.t) :=
  rows (input_lines txt) 0 [] [].

(** Lines 116-157: [raws.map(mapRawToGame).filter((g) => !!g)]. *)
Definition parseBFVText {H : Host} (txt : jsstring) (prefixes : list jsstring)
    : outcome (list GameItem.t * list jsstring) :=
  raws <- tokenize txt ;;
  let (mapped, prefixes') := map_st mapRawToGame raws prefixes in
  Returns (filter_non_null mapped, prefixes').

(** Lines 241-244, the list that the component shows and exports:
    [(homeOnly ? games.filter((g) => g.isHome) : games)
       .sort((a, b) => a.dt.localeCompare(b.dt))]. *)
Definition parsedGames {H : Host} (homeOnly : bool) (games : list GameItem.t)
    : list GameItem.t :=
  array_sort by_dt (if homeOnly then filter GameItem.isHome games else games).

End V1.

(** ** A concrete host

    [latin1_host] computes the host functions on the inputs where they have a
    short definition: the case mappings of the code units below 256, the
    comparison of strings by code units (which is how [localeCompare] orders
    two strings of digits and equal punctuation), and the formatting of a
    valid calendar date with a four-digit year, which [dayjs] prints
    unchanged.  Elsewhere it returns a fixed stand-in, and no theorem on
    all hosts depends on it. *)

Definition latin1_upper (c : N) : jsstring :=
  if (97 <=? c)%N && (c <=? 122)%N then [(c - 32)%N]
  else if (224 <=? c)%N && (c <=? 254)%N && negb (c =? 247)%N then [(c - 32)%N]
  else if (c =? 223)%N then [83%N; 83%N]
  else if (c =? 181)%N then [924%N]
  else if (c =? 255)%N then [376%N]
  else [c].

Definition latin1_lower (c : N) : N :=
  if (65 <=? c)%N && (c <=? 90)%N then (c + 32)%N
  else if (192 <=? c)%N && (c <=? 222)%N && negb (c =? 215)%N then (c + 32)%N
  else c.

Fixpoint code_unit_compare (a b : jsstring) : Z :=
  match a, b with
  | [], [] => 0%Z
  | [], _ :: _ => (-1)%Z
  | _ :: _, [] => 1%Z
  | x :: a', y :: b' =>
      if (x <? y)%N then (-1)%Z
      else if (y <? x)%N then 1%Z
      else code_unit_compare a' b'
  end.

Definition numeral_value (s : jsstring) : N :=
  fold_left (fun acc c => (10 * acc + (c - 48))%N) s 0%N.

Definition is_leap_year (y : N) : bool :=
  ((y mod 4 =? 0) && (negb (y mod 100 =? 0) || (y mod 400 =? 0)))%N.

Definition days_in_month (y m : N) : N :=
  if (m =? 2)%N then (if is_leap_year y then 29%N else 28%N)
  else if (m =? 4)%N || (m =? 6)%N || (m =? 9)%N || (m =? 11)%N then 30%N
  else 31%N.

Definition calendar_date_format (s : jsstring) : jsstring :=
  match s with
  | [y1; y2; y3; y4; d1; m1; m2; d2; a1; a2] =>
      let y := numeral_value [y1; y2; y3; y4] in
      let m := numeral_value [m1; m2] in
      let d := numeral_value [a1; a2] in
      if forallb isDigit [y1; y2; y3; y4; m1; m2; a1; a2]
         && cu_eqb d1 45 && cu_eqb d2 45
         && (1000 <=? y)%N && (1 <=? m)%N && (m <=? 12)%N
         && (1 <=? d)%N && (d <=? days_in_month y m)%N
      then s
      else u "Invalid Date"
  | _ => u "Invalid Date"
  end.

Definition latin1_host : Host :=
  {| toUpperCase := flat_map latin1_upper;
     toLowerCase := map latin1_lower;
     localeCompare := code_unit_compare;
     dayjs_format := calendar_date_format;
     number_string_other := fun _ => u "NaN" |}.

(** ** The second variant (lines 300-686) *)

Module V2.

(** Lines 384-396. *)
Definition suggestFieldFromVenue {H : Host} (venue : jsstring)
    : option FieldName :=
  let v := toLowerCase venue in
  if includes v (u "frimmersdorf") then Some Frimmersdorf
  else if includes v (u "vestenbergsgreuth") then Some Vestenbergsgreuth
  else if includes v (u "weisendorf") && includes v (u "kunstrasen")
  then Some ASV_Weisendorf_Kunstrasen
  else if includes v (u "am sonnenh" ++ [252%N] ++ u "gel")
          || includes v (u "sportgel" ++ [228%N] ++ u "nde") then
    if includes v (u "platz 1") then Some Field_A
    else if includes v (u "platz 2") then Some Field_B
    else if includes v (u "platz 3") then Some Field_C
    else Some Field_A
  else None.

(** Line 407:
    [/(Herren|Frauen|A-|B-|C-|D-|E-|F-|G-|Junioren|Juniorinnen|U32)/i]
    with U-diaeresis for the U. *)
Definition re_header : regex :=
  Group 1
    (alts [lit_ci (u "Herren"); lit_ci (u "Frauen"); lit_ci (u "A-");
           lit_ci (u "B-"); lit_ci (u "C-"); lit_ci (u "D-");
           lit_ci (u "E-"); lit_ci (u "F-"); lit_ci (u "G-");
           lit_ci (u "Junioren"); lit_ci (u "Juniorinnen");
           lit_ci ([220%N] ++ u "32")]).

Definition isHeaderSection (l : jsstring) : bool := re_test re_header l.

(** Line 436: [/^Kursiv|^Ergebnisse|^VEREINSSPIELPLAN|^Seite/i] *)
Definition re_boilerplate : regex :=
  alts [Seq Bol (lit_ci (u "Kursiv")); Seq Bol (lit_ci (u "Ergebnisse"));
        Seq Bol (lit_ci (u "VEREINSSPIELPLAN")); Seq Bol (lit_ci (u "Seite"))].

(** Lines 433-442: the inner loop; [ls] holds the lines from index [j]
    on, and the result is the venue text and the final [j]. *)
Fixpoint venue_lines (ls : list jsstring) (j : nat) (venue : jsstring)
    : jsstring * nat :=
  match ls with
  | [] => (venue, j)
  | l :: ls' =>
      if negb (isRowStart l) && negb (isHeaderSection l) then
        if re_test re_boilerplate l then venue_lines ls' (S j) venue
        else
          venue_lines ls' (S j)
            (venue ++ (if truthy venue then u " " else []) ++ l)
      else (venue, j)
  end.

(** Lines 412-456: the loop over the line indices.  The loop variable
    only grows, so [fuel] bounds the number of iterations; [None] is a
    loop that has iterations left when the fuel is used up. *)
Fixpoint rows (fuel : nat) (lines : list jsstring) (i : nat)
    (currentSection : jsstring) (raws : list GameRaw.t)
    : option (outcome (list GameRaw.t)) :=
  match nth_error lines i with
  | None => Some (Returns raws)
  | Some line =>
      match fuel with
      | 0 => None
      | S fuel' =>
          if isHeaderSection line then rows fuel' lines (S i) line raws
          else if negb (isRowStart line)
          then rows fuel' lines (S i) currentSection raws
          else
            match re_match re_type_rest line with
            | None => rows fuel' lines (S i) currentSection raws
            | Some typeMatch =>
                match defined (group typeMatch 1),
                      defined (group typeMatch 2) with
                | Returns spieltyp, Returns rest =>
                    match re_match re_date_time rest with
                    | None => rows fuel' lines (S i) currentSection raws
                    | Some dateTimeMatch =>
                        match defined (group dateTimeMatch 1),
                              defined (group dateTimeMatch 2),
                              defined (group dateTimeMatch 3),
                              defined (group dateTimeMatch 4) with
                        | Returns g1, Returns g2, Returns g3, Returns g4 =>
                            let (venue, j) :=
                              venue_lines (skipn (S i) lines) (S i) [] in
                            let raw :=
                              {| GameRaw.lineIdx := i;
                                 GameRaw.spieltyp := spieltyp;
                                 GameRaw.spielklasse := trim g1;
                                 GameRaw.date := g2;
                                 GameRaw.time := g3;
                                 GameRaw.pairing := trim g4;
                                 GameRaw.venue := trim venue;
                                 GameRaw.section := currentSection |} in
                            rows fuel' lines (S (j - 1)) currentSection
                              (raws ++ [raw])
                        | _, _, _, _ => Some Throws
                        end
                    end
                | _, _ => Some Throws
                end
            end
      end
  end.

(** The loop, run on the lines of the input; one iteration per line is
    enough (lemma [rows_finishes]). *)
Definition tokenize (txt : jsstring) : outcome (list GameRaw.t) :=
  let lines := input_lines txt in
  match rows (List.length lines) lines 0 [] [] with
  | Some r => r
  | None => Throws
  end.

(** Lines 459-480: the function that [parseBFVText] maps over the rows. *)
Definition mapRawToGame {H : Host} (r : GameRaw.t) (prefixes : list jsstring)
    : option GameItem.t * list jsstring :=
  if str_eqb (toUpperCase (GameRaw.time r)) SPIELFREI then (None, prefixes)
  else
    let (split, prefixes') := detectHomeAndSplit (GameRaw.pairing r) prefixes in
    let iso := toISODate (GameRaw.date r) in
    let dt :=
      iso ++ u "T"
        ++ (if Nat.eqb (List.length (GameRaw.time r)) 4
            then u "0" ++ GameRaw.time r else GameRaw.time r)
        ++ u ":00" in
    let competition :=
      trim (GameRaw.spieltyp r ++ u " " ++ GameRaw.spielklasse r) in
    let suggestedField :=
      if Split.isHome split then suggestFieldFromVenue (GameRaw.venue r)
      else None in
    (Some {| GameItem.id := makeId r;
             GameItem.date := iso;
             GameItem.time := GameRaw.time r;
             GameItem.dt := dt;
             GameItem.section := GameRaw.section r;
             GameItem.competition := competition;
             GameItem.homeTeam := Split.homeTeam split;
             GameItem.awayTeam := Split.awayTeam split;
             GameItem.isHome := Split.isHome split;
             GameItem.venue := GameRaw.venue r;
             GameItem.suggestedField := suggestedField;
             GameItem.assignedField := suggestedField |},
     prefixes').

(** Lines 399-484. *)
Definition parseBFVText {H : Host} (txt : jsstring) (prefixes : list jsstring)
    : outcome (list GameItem.t * list jsstring) :=
  raws <- tokenize txt ;;
  let (mapped, prefixes') := map_st mapRawToGame raws prefixes in
  Returns (array_sort by_dt (filter_non_null mapped), prefixes').

End V2.


(** ** Predicates of the specification *)

(** Every white-space character of [s] is a single space between two other
    characters; [prev_ws] tells that a space stands directly before [s]. *)
Fixpoint single_spaced (prev_ws : bool) (s : jsstring) : bool :=
  match s with
  | [] => true
  | c :: s' =>
      if isWhiteSpace c
      then cu_eqb c 32 && negb prev_ws && single_spaced true s'
      else single_spaced false s'
  end.

(** [v] is a left-anchored prefix of [text]: the text starts with [v] and
    a space, or is [v]. *)
Definition left_anchored (text v : jsstring) : Prop :=
  (exists r, text = v ++ u " " ++ r) \/ text = v.

(** [short] is a strict prefix of [long]. *)
Definition strict_prefix (short long : jsstring) : Prop :=
  exists x, x <> [] /\ long = short ++ x.

(** The strings that a regular expression matches, without regard to the
    order of preference, the anchors and the captures. *)
Fixpoint lang (r : regex) (l : jsstring) : Prop :=
  match r with
  | Eps | Bol | Eol => l = []
  | Chr p => exists c, l = [c] /\ p c = true
  | Seq r1 r2 => exists l1 l2, l = l1 ++ l2 /\ lang r1 l1 /\ lang r2 l2
  | Alt r1 r2 => lang r1 l \/ lang r2 l
  | Star _ p => forallb p l = true
  | Group _ r1 => lang r1 l
  end.

Fixpoint group_free (r : regex) : bool :=
  match r with
  | Seq r1 r2 | Alt r1 r2 => group_free r1 && group_free r2
  | Group _ _ => false
  | _ => true
  end.

(** [DD.MM.YYYY]: two digits, two digits and four digits between dots. *)
Definition well_formed_date (s : jsstring) : bool :=
  match s with
  | [a; b; p; c; d; q; e; f; g; h] =>
      forallb isDigit [a; b; c; d; e; f; g; h] && cu_eqb p 46 && cu_eqb q 46
  | _ => false
  end.

(** [HH:MM], two digits and two digits around a colon. *)
Definition well_formed_time (s : jsstring) : bool :=
  match s with
  | [a; b; p; c; d] => forallb isDigit [a; b; c; d] && cu_eqb p 58
  | _ => false
  end.

(** The three match-type codes. *)
Definition type_codes : list jsstring := [u "FS"; u "ME"; u "PO"].

(** [rest] matches the full pattern
    [<competition label> <DD.MM.YYYY> <HH:MM or SPIELFREI> <pairing text>]
    with these four fields. *)
Definition full_pattern (rest label date kickoff pairing : jsstring) : Prop :=
  exists w1 w2 w3,
    rest = label ++ [w1] ++ date ++ [w2] ++ kickoff ++ [w3] ++ pairing
    /\ isWhiteSpace w1 = true /\ isWhiteSpace w2 = true /\ isWhiteSpace w3 = true
    /\ forallb isDot label = true
    /\ well_formed_date date = true
    /\ (well_formed_time kickoff = true \/ kickoff = SPIELFREI)
    /\ forallb isDot pairing = true.

(** [line] is a row start with type code [code] and remainder [rest]. *)
Definition row_start (line code rest : jsstring) : Prop :=
  exists ws,
    line = code ++ ws ++ rest /\ In code type_codes
    /\ ws <> [] /\ forallb isWhiteSpace ws = true
    /\ forallb isDot rest = true.

(** The row [r] was read from a line of [lines] that is a row start and
    whose remainder matches the full pattern. *)
Definition tokenized (lines : list jsstring) (r : GameRaw.t) : Prop :=
  exists line rest label pairing,
    nth_error lines (GameRaw.lineIdx r) = Some line
    /\ row_start line (GameRaw.spieltyp r) rest
    /\ full_pattern rest label (GameRaw.date r) (GameRaw.time r) pairing
    /\ GameRaw.spielklasse r = trim label
    /\ GameRaw.pairing r = trim pairing.

(** The pitch of the home ground that a lower-cased venue text names:
    the first of [platz 1], [platz 2] and [platz 3] that it contains, and
    field A when it contains none. *)
Definition pitch_field (v : jsstring) : FieldName :=
  if includes v (u "platz 1") then Field_A
  else if includes v (u "platz 2") then Field_B
  else if includes v (u "platz 3") then Field_C
  else Field_A.

(** ** Sample inputs *)

Definition line_feed : jsstring := [10%N].

Definition sample_home_row : jsstring :=
  u "ME Kreisliga 21.09.2025 15:00 TSV Lonnerstadt SpVgg Reuth".

Definition sample_away_row : jsstring :=
  u "ME Kreisliga 22.09.2025 10:00 SC Adelsdorf TSV Lonnerstadt".

Definition sample_venue_line : jsstring :=
  u "Lonnerstadt, Am Sonnenh" ++ [252%N] ++ u "gel, Platz 2".

Definition sample_spielfrei_row : jsstring :=
  u "ME Gruppe 23.09.2025 SPIELFREI (SG) TSV Lonnerstadt".

(** A row start whose remainder does not match the full pattern: after the
    date comes the pairing, and SPIELFREI stands at the end (the third
    example scenario of the specification). *)
Definition sample_malformed_rest : jsstring :=
  u "Gruppe 23.09.2025 (SG) TSV Lonnerstadt SPIELFREI".

Definition sample_malformed_row : jsstring := u "ME " ++ sample_malformed_rest.

Definition sample_text : jsstring :=
  u "Herren" ++ line_feed
    ++ sample_away_row ++ line_feed
    ++ sample_home_row ++ line_feed
    ++ sample_venue_line ++ line_feed
    ++ sample_spielfrei_row.

(** The records of an outcome, none when it throws. *)
Definition games_of (o : outcome (list GameItem.t * list jsstring))
    : list GameItem.t :=
  match o with
  | Returns (games, _) => games
  | Throws => []
  end.

Definition empty_game : GameItem.t :=
  {| GameItem.id := []; GameItem.date := []; GameItem.time := [];
     GameItem.dt := []; GameItem.section := []; GameItem.competition := [];
     GameItem.homeTeam := []; GameItem.awayTeam := []; GameItem.isHome := false;
     GameItem.venue := []; GameItem.suggestedField := None;
     GameItem.assignedField := None |}.

(** The output of the second variant on the sample text, and its two
    records: the home fixture of 21.09.2025 and the away fixture of
    22.09.2025. *)
Definition sample_games : list GameItem.t :=
  Eval vm_compute in
    games_of (V2.parseBFVText (H := latin1_host) sample_text OUR_TEAM_PREFIXES).

Definition sample_home_game : GameItem.t :=
  Eval vm_compute in nth 0 sample_games empty_game.

Definition sample_away_game : GameItem.t :=
  Eval vm_compute in nth 1 sample_games empty_game.

Definition sorted_prefixes : list jsstring :=
  Eval vm_compute in array_sort by_length_desc OUR_TEAM_PREFIXES.

Definition empty_row : GameRaw.t :=
  {| GameRaw.lineIdx := 0; GameRaw.spieltyp := []; GameRaw.spielklasse := [];
     GameRaw.date := []; GameRaw.time := []; GameRaw.pairing := [];
     GameRaw.venue := []; GameRaw.section := [] |}.

(** The rows of the sample text and its SPIELFREI row. *)
Definition sample_rows : list GameRaw.t :=
  Eval vm_compute in
    match V2.tokenize sample_text with
    | Returns raws => raws
    | Throws => []
    end.

Definition sample_spielfrei_raw : GameRaw.t :=
  Eval vm_compute in nth 2 sample_rows empty_row.

(** The output of the first variant on the sample text. *)
Definition sample_games_v1 : list GameItem.t :=
  Eval vm_compute in
    games_of (V1.parseBFVText (H := latin1_host) sample_text OUR_TEAM_PREFIXES).

(** The row [r] is the one that the first variant pushes for a row-start
    line whose remainder does not match the full pattern: its class, date,
    time and pairing are empty. *)
Definition unmatched (lines : list jsstring) (r : GameRaw.t) : Prop :=
  exists line rest,
    nth_error lines (GameRaw.lineIdx r) = Some line
    /\ row_start line (GameRaw.spieltyp r) rest
    /\ re_match re_date_time rest = None
    /\ GameRaw.spielklasse r = [] /\ GameRaw.date r = []
    /\ GameRaw.time r = [] /\ GameRaw.pairing r = [].

(** [s] has a character that is not white space. *)
Definition has_text (s : jsstring) : bool :=
  existsb (fun c => negb (isWhiteSpace c)) s.

(** The row that the first variant makes of the malformed sample line. *)
Definition malformed_raw : GameRaw.t :=
  {| GameRaw.lineIdx := 0; GameRaw.spieltyp := u "ME";
     GameRaw.spielklasse := []; GameRaw.date := []; GameRaw.time := [];
     GameRaw.pairing := []; GameRaw.venue := []; GameRaw.section := [] |}.

(** * The rest of the component *)

(** The string of a field name (lines 13 and 311). *)
Definition field_name (f : FieldName) : jsstring :=
  match f with
  | Field_A => u "A"
  | Field_B => u "B"
  | Field_C => u "C"
  | Frimmersdorf => u "Frimmersdorf"
  | Vestenbergsgreuth => u "Vestenbergsgreuth"
  | ASV_Weisendorf_Kunstrasen => u "ASV Weisendorf Kunstrasen"
  end.

(** An element of an array of strings under [join]: [null] is joined as
    the empty string.  The same string is [x ?? ""]. *)
Definition field_text (x : option FieldName) : jsstring :=
  match x with
  | Some f => field_name f
  | None => []
  end.

(** [xs.join(sep)] *)
Fixpoint join (sep : jsstring) (l : list jsstring) : jsstring :=
  match l with
  | [] => []
  | [x] => x
  | x :: l' => x ++ sep ++ join sep l'
  end.

(** The line separator of the CSV files, a carriage return and a line
    feed. *)
Definition crlf : jsstring := [13%N; 10%N].

(** [s.split(sep)] for a separator of one code unit. *)
Definition split_at (sep : N) (s : jsstring) : list jsstring := split_on sep [] s.

(** [s.replace(/c/g, by)] for a pattern of one literal character. *)
Definition replace_char (c : N) (by_ : jsstring) (s : jsstring) : jsstring :=
  flat_map (fun x => if cu_eqb x c then by_ else [x]) s.

Definition is_assigned (g : GameItem.t) : bool :=
  match GameItem.assignedField g with Some _ => true | None => false end.

Definition FieldName_eqb (a b : FieldName) : bool :=
  match a, b with
  | Field_A, Field_A | Field_B, Field_B | Field_C, Field_C
  | Frimmersdorf, Frimmersdorf | Vestenbergsgreuth, Vestenbergsgreuth
  | ASV_Weisendorf_Kunstrasen, ASV_Weisendorf_Kunstrasen => true
  | _, _ => false
  end.

(** [x.assignedField === field] *)
Definition assigned_to (field : FieldName) (g : GameItem.t) : bool :=
  match GameItem.assignedField g with
  | Some f => FieldName_eqb f field
  | None => false
  end.

(** ** The exports of the first variant (lines 159-224) *)

Module V1App.

Section Week.
(** The week that the component passes on, as the date library renders it:
    [weekStart.isoWeek()], [weekStart.format("YYYY-MM-DD")],
    [weekEnd.format("YYYY-MM-DD")], [dayjs(date).format("dd")] and, for the
    day [i] of the week, [dayjs(date).isSame(weekStart.add(i, "day"), "day")]. *)
Variable weekNumber : jsstring.
Variable weekStartText : jsstring.
Variable weekEndText : jsstring.
Variable weekday : jsstring -> jsstring.
Variable isSameDay : jsstring -> nat -> bool.

(** Lines 160-179: the HTML text of the printable plan, a table row for
    each field and a cell for each of the seven days. *)
Definition day_cell (games : list GameItem.t) (field : FieldName) (d : nat)
    : jsstring :=
  let g := filter (fun x => assigned_to field x && isSameDay (GameItem.date x) d)
             games in
  match g with
  | [] => u "<td></td>"
  | _ :: _ =>
      let t :=
        join (u "<br/>")
          (map (fun x => GameItem.time x ++ u " " ++ [8211%N] ++ u " "
                           ++ GameItem.homeTeam x ++ u " vs "
                           ++ GameItem.awayTeam x) g) in
      u "<td>" ++ t ++ u "</td>"
  end.

Definition field_row (games : list GameItem.t) (field : FieldName) : jsstring :=
  let cols := join [] (map (day_cell games field) (seq 0 7)) in
  u "<tr><th>" ++ field_name field ++ u "</th>" ++ cols ++ u "</tr>".

Definition exportWeekPrintable (games : list GameItem.t) : jsstring :=
  let rowsHtml := join [] (map (field_row games) FIELDS) in
  u "<!doctype html><html><body><table>" ++ rowsHtml
    ++ u "</table></body></html>".

(** Lines 182-224: the text of the CSV file; [None] is the alert
    [Keine Spiele geladen.] without a download. *)
Definition csv_header : list jsstring :=
  [u "week_number"; u "start_date"; u "end_date"; u "field"; u "day";
   u "date"; u "time"; u "home_team"; u "away_team"; u "category"; u "league"].

Definition csv_row (g : GameItem.t) : list jsstring :=
  [weekNumber; weekStartText; weekEndText; field_text (GameItem.assignedField g);
   weekday (GameItem.date g); GameItem.date g; GameItem.time g;
   GameItem.homeTeam g; GameItem.awayTeam g; GameItem.section g;
   GameItem.competition g].

Definition exportWeekCSV (games : list GameItem.t) : option jsstring :=
  match games with
  | [] => None
  | _ :: _ =>
      let rows :=
        map csv_row
          (filter (fun g => GameItem.isHome g && is_assigned g) games) in
      Some (join crlf (map (join (u ",")) (csv_header :: rows)))
  end.
End Week.

End V1App.

(** ** The exports and the component of the second variant (lines 486-686) *)

Module V2App.

(** Line 513, the escaping of a text for the table:
    [t.replace(/&/g, "&amp;").replace(/</g, "&lt;").replace(/>/g, "&gt;")]. *)
Definition cell (t : jsstring) : jsstring :=
  replace_char 62 (u "&gt;")
    (replace_char 60 (u "&lt;") (replace_char 38 (u "&amp;") t)).

Section Csv.
(** [dayjs(date).format("DD.MM.YYYY")] *)
Variable format_dmy : jsstring -> jsstring.

(** Lines 487-505: the text of the CSV file. *)
Definition csv_header : list jsstring :=
  [u "Datum"; u "Zeit"; u "Heim"; u "Gast"; u "Wettbewerb"; u "Abschnitt";
   u "Platz"; u "Spielort"].

Definition csv_row (g : GameItem.t) : list jsstring :=
  [format_dmy (GameItem.date g); GameItem.time g; GameItem.homeTeam g;
   GameItem.awayTeam g; GameItem.competition g; GameItem.section g;
   field_text (GameItem.assignedField g);
   replace_char 34 (u "'") (GameItem.venue g)].

Definition exportWeekCSV (games : list GameItem.t) : jsstring :=
  join crlf (map (join (u ";")) (csv_header :: map csv_row games)).
End Csv.

(** Lines 571-576, the list that the component shows and exports; [notPast]
    is [dayjs(date).isAfter(dayjs().subtract(1, "day"), "day")]. *)
Definition parsedGames (notPast : jsstring -> bool) (showHomeOnly hidePast : bool)
    (games : list GameItem.t) : list GameItem.t :=
  let g := games in
  let g := if showHomeOnly then filter GameItem.isHome g else g in
  let g := if hidePast then filter (fun x => notPast (GameItem.date x)) g else g in
  g.

(** Lines 660-668, the change of the field select of the row with
    identifier [id]: [choice] is the option chosen, [None] for the option
    [Nicht zugewiesen], whose value is the empty string. *)
Definition set_assignedField (x : GameItem.t) (choice : option FieldName)
    : GameItem.t :=
  {| GameItem.id := GameItem.id x;
     GameItem.date := GameItem.date x;
     GameItem.time := GameItem.time x;
     GameItem.dt := GameItem.dt x;
     GameItem.section := GameItem.section x;
     GameItem.competition := GameItem.competition x;
     GameItem.homeTeam := GameItem.homeTeam x;
     GameItem.awayTeam := GameItem.awayTeam x;
     GameItem.isHome := GameItem.isHome x;
     GameItem.venue := GameItem.venue x;
     GameItem.suggestedField := GameItem.suggestedField x;
     GameItem.assignedField := choice |}.

Definition onFieldChange (id : jsstring) (choice : option FieldName)
    (prev : list GameItem.t) : list GameItem.t :=
  map (fun x => if str_eqb (GameItem.id x) id then set_assignedField x choice
                else x) prev.

End V2App.

(** ** Further predicates of the specification *)

(** The escaping of one character: the entity of an ampersand or an angle
    bracket, and every other character as it is. *)
Definition escape_char (c : N) : jsstring :=
  if cu_eqb c 38 then u "&amp;"
  else if cu_eqb c 60 then u "&lt;"
  else if cu_eqb c 62 then u "&gt;"
  else [c].

(** The section that the loop holds when it reaches line [i]: the last
    header line before it, and the empty string when there is none. *)
Definition section_before (isHeader : jsstring -> bool) (lines : list jsstring)
    (i : nat) : jsstring :=
  fold_left (fun sec l => if isHeader l then l else sec) (firstn i lines) [].

(** The longest prefix of [l] whose elements satisfy [p]. *)
Fixpoint take_while {A : Type} (p : A -> bool) (l : list A) : list A :=
  match l with
  | [] => []
  | x :: l' => if p x then x :: take_while p l' else []
  end.

(** The lines after line [i] that belong to the row of line [i]: those
    up to the next row start or header. *)
Definition continuation_lines (lines : list jsstring) (i : nat) : list jsstring :=
  take_while (fun l => negb (isRowStart l) && negb (V2.isHeaderSection l))
    (skipn (S i) lines).

(** The venue text of the row of line [i], read off the continuation
    lines without the boilerplate. *)
Definition venue_text (lines : list jsstring) (i : nat) : jsstring :=
  trim (join (u " ")
          (filter (fun l => negb (re_test V2.re_boilerplate l))
             (continuation_lines lines i))).

(** A row line of the class [A-Klasse], and a text with a header and
    that row. *)
Definition sample_class_row : jsstring :=
  u "ME A-Klasse 21.09.2025 15:00 TSV Lonnerstadt SpVgg Reuth".

Definition sample_class_text : jsstring :=
  u "Herren" ++ line_feed ++ sample_class_row.

(** The rows of the first variant on the sample text. *)
Definition sample_rows_v1 : list GameRaw.t :=
  Eval vm_compute in
    match V1.tokenize sample_text with
    | Returns raws => raws
    | Throws => []
    end.

(** A regular expression without the anchors [^] and [$]. *)
Fixpoint anchor_free (r : regex) : bool :=
  match r with
  | Bol | Eol => false
  | Seq r1 r2 | Alt r1 r2 => anchor_free r1 && anchor_free r2
  | Group _ r1 => anchor_free r1
  | _ => true
  end.

(** [k] is the keyword [kw] up to the case of its letters, as the [i] flag
    compares them. *)
Fixpoint ci_eqb (kw k : jsstring) : bool :=
  match kw, k with
  | [], [] => true
  | c :: kw', x :: k' =>
      (x <? 256)%N && cu_eqb (canonicalize c) (canonicalize x) && ci_eqb kw' k'
  | _, _ => false
  end.

(** The keywords of the header test of the second variant (line 407). *)
Definition header_keywords : list jsstring :=
  [ u "Herren"; u "Frauen"; u "A-"; u "B-"; u "C-"; u "D-"; u "E-"; u "F-";
    u "G-"; u "Junioren"; u "Juniorinnen"; [220%N] ++ u "32" ].

(** The date-time pattern behind its first group:
    [\s(\d{2}\.\d{2}\.\d{4})\s(\d{2}:\d{2}|SPIELFREI)\s( .* )$]. *)
Definition re_date_time_tail : regex :=
  seqs [re_s; Group 2 re_date; re_s;
        Group 3 (Alt re_time (lit (u "SPIELFREI"))); re_s;
        Group 4 re_dot_star; Eol].

(** A regular expression without [^] whose [$] stand at its end only. *)
Fixpoint end_ok (r : regex) : bool :=
  match r with
  | Bol => false
  | Eol => true
  | Seq r1 r2 => anchor_free r1 && end_ok r2
  | Alt r1 r2 => end_ok r1 && end_ok r2
  | Group _ r1 => end_ok r1
  | _ => true
  end.

(** [s] contains a well-formed date. *)
Fixpoint has_date (s : jsstring) : bool :=
  match s with
  | [] => false
  | _ :: s' => well_formed_date (firstn 10 s) || has_date s'
  end.

(** [s] begins with a character that is not white space. *)
Definition starts_with_text (s : jsstring) : bool :=
  match s with
  | c :: _ => negb (isWhiteSpace c)
  | [] => false
  end.

(** The row [r] holds the fields read from line [i]. *)
Definition row_fields (r : GameRaw.t) (i : nat)
    (code label date kickoff pairing : jsstring) : Prop :=
  GameRaw.lineIdx r = i /\ GameRaw.spieltyp r = code
  /\ GameRaw.spielklasse r = trim label /\ GameRaw.date r = date
  /\ GameRaw.time r = kickoff /\ GameRaw.pairing r = trim pairing.

(** The two patterns of the loop read these fields from [line]. *)
Definition line_reads (line code label date kickoff pairing : jsstring) : Prop :=
  isRowStart line = true
  /\ exists m rst dt,
       re_match re_type_rest line = Some m
       /\ group m 1 = Some code /\ group m 2 = Some rst
       /\ re_match re_date_time rst = Some dt
       /\ group dt 1 = Some label /\ group dt 2 = Some date
       /\ group dt 3 = Some kickoff /\ group dt 4 = Some pairing.

(** The characters of [s] that are not white space. *)
Definition visible (s : jsstring) : jsstring :=
  filter (fun c => negb (isWhiteSpace c)) s.

(** The words of the boilerplate test of the second variant (line 436). *)
Definition boilerplate_words : list jsstring :=
  [u "Kursiv"; u "Ergebnisse"; u "VEREINSSPIELPLAN"; u "Seite"].
(** * Properties *)

(** ** The example scenarios of the specification, on the second variant *)

Example scenario_home_fixture :
  let games :=
    games_of (V2.parseBFVText (H := latin1_host)
                (sample_home_row ++ line_feed
                   ++ u "Lonnerstadt, Am Sonnenh" ++ [252%N] ++ u "gel, Platz 1")
                OUR_TEAM_PREFIXES) in
  map GameItem.date games = [u "2025-09-21"]
  /\ map GameItem.time games = [u "15:00"]
  /\ map GameItem.homeTeam games = [u "TSV Lonnerstadt"]
  /\ map GameItem.awayTeam games = [u "SpVgg Reuth"]
  /\ map GameItem.isHome games = [true]
  /\ map GameItem.suggestedField games = [Some Field_A].
Proof. vm_compute. repeat split. Qed.

Example scenario_away_fixture :
  let games :=
    games_of (V2.parseBFVText (H := latin1_host) sample_away_row
                OUR_TEAM_PREFIXES) in
  map GameItem.homeTeam games = [u "SC Adelsdorf"]
  /\ map GameItem.awayTeam games = [u "TSV Lonnerstadt"]
  /\ map GameItem.isHome games = [false]
  /\ map GameItem.suggestedField games = [None].
Proof. vm_compute. repeat split. Qed.

Example scenario_spielfrei :
  games_of (V2.parseBFVText (H := latin1_host) sample_malformed_row
              OUR_TEAM_PREFIXES) = []
  /\ games_of (V2.parseBFVText (H := latin1_host) sample_spielfrei_row
                 OUR_TEAM_PREFIXES) = [].
Proof. vm_compute. repeat split. Qed.

Example scenario_frimmersdorf :
  V2.suggestFieldFromVenue (H := latin1_host) (u "Frimmersdorf, Sportplatz")
  = Some Frimmersdorf.
Proof. reflexivity. Qed.

Example scenario_kunstrasen :
  V2.suggestFieldFromVenue (H := latin1_host) (u "ASV Weisendorf, Kunstrasen")
  = Some ASV_Weisendorf_Kunstrasen.
Proof. reflexivity. Qed.

(** ** Strings *)

Lemma cu_eqb_eq (a b : N) : cu_eqb a b = true <-> a = b.
Proof. unfold cu_eqb. apply N.eqb_eq. Qed.

Lemma str_eqb_eq (a b : jsstring) : str_eqb a b = true <-> a = b.
Proof.
  revert b. induction a as [|x a IH]; intros [|y b]; simpl; split;
    try congruence; try reflexivity.
  - intros E. apply andb_true_iff in E as [E1 E2].
    apply cu_eqb_eq in E1. apply IH in E2. congruence.
  - intros E. injection E as -> ->. apply andb_true_iff. split.
    + now apply cu_eqb_eq.
    + now apply IH.
Qed.

Lemma str_eqb_refl (a : jsstring) : str_eqb a a = true.
Proof. now apply str_eqb_eq. Qed.

Lemma startsWith_spec (s p : jsstring) :
  startsWith s p = true <-> exists r, s = p ++ r.
Proof.
  revert s. induction p as [|x p IH]; intros s; simpl.
  - split; [intros _; now exists s | reflexivity].
  - destruct s as [|y s].
    + split; [discriminate | intros [r E]; discriminate].
    + rewrite andb_true_iff, cu_eqb_eq, IH. split.
      * intros [-> [r ->]]. now exists r.
      * intros [r E]. injection E as -> ->. split; [reflexivity | now exists r].
Qed.

Lemma dropWhile_suffix (p : N -> bool) (s : jsstring) :
  exists l, s = l ++ dropWhile p s /\ forallb p l = true.
Proof.
  induction s as [|c s [l [E F]]]; simpl.
  - now exists [].
  - destruct (p c) eqn:Pc.
    + exists (c :: l). simpl. rewrite Pc, F. split; [congruence | reflexivity].
    + now exists [].
Qed.

Lemma dropWhile_head (p : N -> bool) (s : jsstring) (c : N) (r : jsstring) :
  dropWhile p s = c :: r -> p c = false.
Proof.
  induction s as [|x s IH]; simpl; [discriminate|].
  destruct (p x) eqn:Px; [exact IH|]. intros E. injection E as -> _. exact Px.
Qed.

Lemma dropWhile_id (p : N -> bool) (c : N) (s : jsstring) :
  p c = false -> dropWhile p (c :: s) = c :: s.
Proof. intros E. simpl. now rewrite E. Qed.

Lemma trimEnd_snoc (s : jsstring) (c : N) :
  isWhiteSpace c = false -> trimEnd (s ++ [c]) = s ++ [c].
Proof.
  intros E. unfold trimEnd. rewrite rev_app_distr. simpl. rewrite E.
  simpl. now rewrite rev_involutive.
Qed.

Lemma trimEnd_last (s r : jsstring) (c : N) :
  trimEnd s = r ++ [c] -> isWhiteSpace c = false.
Proof.
  unfold trimEnd. intros E.
  assert (E' : dropWhile isWhiteSpace (rev s) = c :: rev r).
  { rewrite <- (rev_involutive (dropWhile _ _)), E, rev_app_distr. reflexivity. }
  exact (dropWhile_head _ _ _ _ E').
Qed.

Lemma trimEnd_prefix (s : jsstring) : exists l, s = trimEnd s ++ l.
Proof.
  unfold trimEnd. destruct (dropWhile_suffix isWhiteSpace (rev s)) as [l [E _]].
  exists (rev l). rewrite <- rev_app_distr, <- E. now rewrite rev_involutive.
Qed.

Lemma trimEnd_cons (c : N) (s : jsstring) :
  isWhiteSpace c = false -> exists r, trimEnd (c :: s) = c :: r.
Proof.
  intros E. destruct (trimEnd_prefix (c :: s)) as [l El].
  destruct (trimEnd (c :: s)) as [|x r] eqn:T.
  - exfalso. unfold trimEnd in T. simpl in T.
    assert (R : dropWhile isWhiteSpace (rev s ++ [c]) = []).
    { rewrite <- (rev_involutive (dropWhile _ _)), T. reflexivity. }
    clear -E R. induction (rev s) as [|y t IH]; simpl in R.
    + now rewrite E in R.
    + destruct (isWhiteSpace y); [auto | discriminate].
  - simpl in El. injection El as <- _. now exists r.
Qed.

(** The result of [trim] neither starts nor ends with white space. *)
Lemma trim_head (s r : jsstring) (c : N) :
  trim s = c :: r -> isWhiteSpace c = false.
Proof.
  unfold trim, trimStart. intros E.
  destruct (dropWhile isWhiteSpace s) as [|x t] eqn:D.
  - discriminate.
  - pose proof (dropWhile_head _ _ _ _ D) as Hx.
    destruct (trimEnd_cons x t Hx) as [r' E']. rewrite E' in E. congruence.
Qed.

Lemma trim_last (s r : jsstring) (c : N) :
  trim s = r ++ [c] -> isWhiteSpace c = false.
Proof. unfold trim. apply trimEnd_last. Qed.


Lemma trim_nonempty (s : jsstring) :
  existsb (fun c => negb (isWhiteSpace c)) s = true -> trim s <> [].
Proof.
  intros E. unfold trim, trimStart.
  assert (D : dropWhile isWhiteSpace s <> []).
  { induction s as [|c s IH]; simpl in *; [discriminate|].
    destruct (isWhiteSpace c); simpl in E; [auto | discriminate]. }
  destruct (dropWhile isWhiteSpace s) as [|x t] eqn:Dx; [congruence|].
  destruct (trimEnd_cons x t (dropWhile_head _ _ _ _ Dx)) as [r ->]. discriminate.
Qed.

(** ** The stable sort *)

Section ArraySortFacts.
Variable A : Type.
Variable cmp : A -> A -> Z.

Lemma insert_sorted_perm (x : A) (l : list A) :
  Permutation (insert_sorted cmp x l) (x :: l).
Proof.
  induction l as [|y l IH]; simpl.
  - apply Permutation_refl.
  - destruct (cmp x y <=? 0)%Z.
    + apply Permutation_refl.
    + eapply Permutation_trans; [apply perm_skip, IH | apply perm_swap].
Qed.

Lemma array_sort_perm (l : list A) : Permutation (array_sort cmp l) l.
Proof.
  induction l as [|x l IH]; simpl.
  - apply perm_nil.
  - eapply Permutation_trans; [apply insert_sorted_perm | now apply perm_skip].
Qed.

Lemma array_sort_In (l : list A) (x : A) : In x (array_sort cmp l) <-> In x l.
Proof.
  split; apply Permutation_in;
    [apply array_sort_perm | apply Permutation_sym, array_sort_perm].
Qed.

Hypothesis cmp_total : forall x y, before cmp x y \/ before cmp y x.
Hypothesis cmp_trans : forall x y z, before cmp x y -> before cmp y z -> before cmp x z.

Lemma insert_sorted_sorted (x : A) (l : list A) :
  StronglySorted (before cmp) l -> StronglySorted (before cmp) (insert_sorted cmp x l).
Proof.
  induction 1 as [|y l Hl IH Hy]; simpl.
  - constructor; constructor.
  - destruct (cmp x y <=? 0)%Z eqn:E.
    + apply Z.leb_le in E. constructor.
      * now constructor.
      * constructor; [exact E|].
        eapply Forall_impl; [|exact Hy]. intros z Hz. now apply (cmp_trans x y z).
    + apply Z.leb_gt in E. constructor; [exact IH|].
      apply Forall_forall. intros z Hz.
      apply (Permutation_in _ (insert_sorted_perm x l)) in Hz.
      destruct Hz as [<- | Hz].
      * destruct (cmp_total x y) as [C | C]; [unfold before in C; lia | exact C].
      * rewrite Forall_forall in Hy. now apply Hy.
Qed.

Lemma array_sort_sorted (l : list A) : StronglySorted (before cmp) (array_sort cmp l).
Proof.
  induction l as [|x l IH]; simpl.
  - constructor.
  - now apply insert_sorted_sorted.
Qed.

(** Stability: the elements that compare equal to [k] keep their order. *)
Lemma insert_sorted_stable (k x : A) (l : list A) :
  filter (same_key cmp k) (insert_sorted cmp x l) = filter (same_key cmp k) (x :: l).
Proof.
  induction l as [|y l IH]; [reflexivity|].
  simpl insert_sorted. destruct (cmp x y <=? 0)%Z eqn:E; [reflexivity|].
  apply Z.leb_gt in E.
  change (filter (same_key cmp k) (y :: insert_sorted cmp x l))
    with (if same_key cmp k y then y :: filter (same_key cmp k) (insert_sorted cmp x l)
          else filter (same_key cmp k) (insert_sorted cmp x l)).
  rewrite IH. simpl.
  destruct (same_key cmp k x) eqn:Kx, (same_key cmp k y) eqn:Ky; try reflexivity.
  exfalso. unfold same_key in Kx, Ky.
  apply andb_true_iff in Kx as [K1 K2]. apply andb_true_iff in Ky as [K3 K4].
  apply Z.leb_le in K1, K2, K3, K4.
  assert (B : before cmp x y) by (apply (cmp_trans x k y); assumption).
  unfold before in B. lia.
Qed.

Lemma array_sort_stable (k : A) (l : list A) :
  filter (same_key cmp k) (array_sort cmp l) = filter (same_key cmp k) l.
Proof.
  induction l as [|x l IH]; [reflexivity|].
  simpl array_sort. rewrite insert_sorted_stable. simpl. now rewrite IH.
Qed.

(** The first element of a sorted array that satisfies a test stands
    before cmp every other element that satisfies it. *)
Lemma find_first_sorted (p : A -> bool) (l : list A) (x y : A) :
  (forall a, before cmp a a) ->
  StronglySorted (before cmp) l -> find p l = Some x -> In y l -> p y = true ->
  before cmp x y.
Proof.
  intros Hrefl Hs. induction Hs as [|a l Hl IH Ha]; simpl; [discriminate|].
  destruct (p a) eqn:Pa.
  - intros E [<- | Hy] _; injection E as <-; [apply Hrefl|].
    rewrite Forall_forall in Ha. now apply Ha.
  - intros E [<- | Hy] Py; [congruence | now apply IH].
Qed.
End ArraySortFacts.

Lemma by_length_desc_before (a b : jsstring) :
  before by_length_desc a b <-> List.length b <= List.length a.
Proof. unfold before, by_length_desc, str_length. lia. Qed.

Lemma sorted_prefixes_sorted (prefixes : list jsstring) :
  StronglySorted (before by_length_desc) (array_sort by_length_desc prefixes).
Proof.
  apply array_sort_sorted.
  - intros x y. rewrite !by_length_desc_before. lia.
  - intros x y z. rewrite !by_length_desc_before. lia.
Qed.

(** ** [normalizeSpaces] *)

Lemma replace_ws_runs_single_spaced (b : bool) (s : jsstring) :
  single_spaced b (replace_ws_runs b s) = true.
Proof.
  revert b. induction s as [|c s IH]; intros b; [reflexivity|].
  simpl. destruct (isWhiteSpace c) eqn:W.
  - destruct b; [apply IH|]. simpl. rewrite IH. reflexivity.
  - simpl. rewrite W. apply IH.
Qed.

Lemma single_spaced_weaken (s : jsstring) :
  single_spaced true s = true -> single_spaced false s = true.
Proof.
  destruct s as [|c s]; [reflexivity|]. simpl.
  destruct (isWhiteSpace c); [|trivial].
  rewrite andb_false_r. discriminate.
Qed.

Lemma single_spaced_suffix (b : bool) (l s : jsstring) :
  single_spaced b (l ++ s) = true -> single_spaced false s = true.
Proof.
  revert b. induction l as [|c l IH]; intros b; simpl.
  - destruct b; [apply single_spaced_weaken | trivial].
  - destruct (isWhiteSpace c).
    + intros E. apply andb_true_iff in E as [_ E]. exact (IH _ E).
    + apply IH.
Qed.

Lemma single_spaced_prefix (b : bool) (s l : jsstring) :
  single_spaced b (s ++ l) = true -> single_spaced b s = true.
Proof.
  revert b. induction s as [|c s IH]; intros b; simpl; [reflexivity|].
  destruct (isWhiteSpace c).
  - intros E. apply andb_true_iff in E as [E1 E2]. rewrite E1. exact (IH _ E2).
  - apply IH.
Qed.

Lemma trim_single_spaced (s : jsstring) :
  single_spaced false s = true -> single_spaced false (trim s) = true.
Proof.
  intros E. unfold trim, trimStart.
  destruct (dropWhile_suffix isWhiteSpace s) as [l [El _]].
  rewrite El in E. apply single_spaced_suffix in E.
  destruct (trimEnd_prefix (dropWhile isWhiteSpace s)) as [l' El'].
  rewrite El' in E. exact (single_spaced_prefix _ _ _ E).
Qed.

Lemma normalizeSpaces_single_spaced (s : jsstring) :
  single_spaced false (normalizeSpaces s) = true.
Proof. apply trim_single_spaced, replace_ws_runs_single_spaced. Qed.

(** After a space of a normalized text comes a character that is not white
    space. *)
Lemma single_spaced_after_space (a r : jsstring) (c : N) :
  single_spaced false (a ++ 32%N :: c :: r) = true -> isWhiteSpace c = false.
Proof.
  intros E. apply single_spaced_suffix in E. simpl in E.
  destruct (isWhiteSpace c); [|reflexivity].
  change (isWhiteSpace 32) with true in E. simpl in E.
  rewrite andb_false_r in E. discriminate.
Qed.

Lemma normalizeSpaces_head (s r : jsstring) (c : N) :
  normalizeSpaces s = c :: r -> isWhiteSpace c = false.
Proof. apply trim_head. Qed.

Lemma normalizeSpaces_last (s r : jsstring) (c : N) :
  normalizeSpaces s = r ++ [c] -> isWhiteSpace c = false.
Proof. apply trim_last. Qed.

(** What follows a space of a normalized text is not empty and is left as
    it is by [trim]. *)
Lemma normalized_tail (s a r : jsstring) :
  normalizeSpaces s = a ++ 32%N :: r -> r <> [] /\ trim (32%N :: r) = r.
Proof.
  intros E.
  assert (Hne : r <> []).
  { intros ->. apply (normalizeSpaces_last s a 32%N) in E. discriminate E. }
  split; [exact Hne|].
  destruct r as [|c r]; [congruence|].
  pose proof (normalizeSpaces_single_spaced s) as S. rewrite E in S.
  pose proof (single_spaced_after_space _ _ _ S) as Wc.
  unfold trim, trimStart.
  change (dropWhile isWhiteSpace (32%N :: c :: r))
    with (dropWhile isWhiteSpace (c :: r)).
  rewrite dropWhile_id by exact Wc.
  destruct (exists_last (l := c :: r)) as [t [x Et]]; [discriminate|].
  rewrite Et. apply trimEnd_snoc.
  apply (normalizeSpaces_last s (a ++ 32%N :: t) x).
  rewrite E, Et, <- app_assoc. reflexivity.
Qed.

(** ** [slice] *)

Lemma slice_from (a b : jsstring) : slice (a ++ b) (str_length a) None = b.
Proof.
  unfold slice, slice_index, str_length.
  destruct (Z.of_nat (List.length a) <? 0)%Z eqn:E; [apply Z.ltb_lt in E; lia|].
  rewrite Nat2Z.id, length_app.
  replace (Nat.min (List.length a) (List.length a + List.length b))
    with (List.length a) by lia.
  rewrite skipn_app, skipn_all, Nat.sub_diag. simpl.
  replace (List.length a + List.length b - List.length a) with (List.length b) by lia.
  apply firstn_all.
Qed.


(** ** [detectHomeAndSplit] *)

Lemma left_match_spec (text v : jsstring) :
  left_match text v = true <-> left_anchored text v.
Proof.
  unfold left_match, left_anchored.
  rewrite orb_true_iff, startsWith_spec, str_eqb_eq.
  split; (intros [[r E] | E]; [left; exists r | right; exact E]).
  - rewrite E, <- app_assoc. reflexivity.
  - rewrite E, <- app_assoc. reflexivity.
Qed.

Lemma sorted_prefixes_In (prefixes : list jsstring) (v : jsstring) :
  In v (array_sort by_length_desc prefixes) <-> In v prefixes.
Proof. apply array_sort_In. Qed.

(** The first loop returns at the first variant of the sorted array that
    passes its test. *)
Lemma detect_left (pairing : jsstring) (prefixes : list jsstring) (prefix : jsstring) :
  find (left_match (normalizeSpaces pairing))
       (array_sort by_length_desc prefixes) = Some prefix ->
  fst (detectHomeAndSplit pairing prefixes)
  = {| Split.homeTeam := prefix;
       Split.awayTeam :=
         trim (slice (normalizeSpaces pairing) (str_length prefix) None);
       Split.isHome := true |}.
Proof. intros E. unfold detectHomeAndSplit. simpl. now rewrite E. Qed.

Lemma detect_no_left (pairing : jsstring) (prefixes : list jsstring) :
  find (left_match (normalizeSpaces pairing))
       (array_sort by_length_desc prefixes) = None ->
  Split.isHome (fst (detectHomeAndSplit pairing prefixes)) = false.
Proof.
  intros E. unfold detectHomeAndSplit. simpl. rewrite E.
  destruct (find (right_match _) _) as [p|]; [|reflexivity].
  destruct (truthy p); reflexivity.
Qed.

Lemma detect_isHome_find (pairing : jsstring) (prefixes : list jsstring) :
  Split.isHome (fst (detectHomeAndSplit pairing prefixes)) = true ->
  exists prefix,
    find (left_match (normalizeSpaces pairing))
         (array_sort by_length_desc prefixes) = Some prefix.
Proof.
  intros E.
  destruct (find (left_match (normalizeSpaces pairing))
                 (array_sort by_length_desc prefixes)) as [p|] eqn:F.
  - now exists p.
  - rewrite (detect_no_left _ _ F) in E. discriminate.
Qed.

Lemma detect_isHome_iff (pairing : jsstring) (prefixes : list jsstring) :
  Split.isHome (fst (detectHomeAndSplit pairing prefixes)) = true <->
  exists v, In v prefixes /\ left_anchored (normalizeSpaces pairing) v.
Proof.
  split.
  - intros E. destruct (detect_isHome_find _ _ E) as [p F].
    apply find_some in F as [Hin Hm]. exists p. split.
    + now apply sorted_prefixes_In.
    + now apply left_match_spec.
  - intros [v [Hin Hm]].
    destruct (find (left_match (normalizeSpaces pairing))
                   (array_sort by_length_desc prefixes)) as [p|] eqn:F.
    + now rewrite (detect_left _ _ _ F).
    + exfalso. apply sorted_prefixes_In in Hin.
      pose proof (find_none _ _ F v Hin) as N.
      apply left_match_spec in Hm. congruence.
Qed.

(** Two left-anchored variants of one text: the shorter is a prefix of the
    longer, and variants of equal length are equal. *)
Lemma left_anchored_same_length (text v w : jsstring) :
  left_anchored text v -> left_anchored text w ->
  List.length v = List.length w -> v = w.
Proof.
  intros Hv Hw L.
  assert (P : forall x, left_anchored text x -> exists r, text = x ++ r).
  { intros x [[r E] | E]; [exists (u " " ++ r); exact E | exists []; now rewrite app_nil_r]. }
  destruct (P v Hv) as [r1 E1]. destruct (P w Hw) as [r2 E2].
  rewrite E1 in E2. clear -E2 L.
  revert w L E2. induction v as [|a v IH]; intros [|b w] L E; simpl in *;
    try discriminate; [reflexivity|].
  injection E as -> E. f_equal. apply IH; [lia | exact E].
Qed.

(** ** The matcher *)

Lemma star_run_sound (g : bool) (p : N -> bool) (cs : list (nat * jsstring))
    (s : jsstring) (n : nat) (st' : mstate) :
  In st' (star_run g p n s cs) ->
  exists l, s = l ++ rest st' /\ pos st' = n + List.length l
            /\ forallb p l = true /\ caps st' = cs.
Proof.
  revert n. induction s as [|c s IH]; intros n; simpl.
  - intros [<- | []]. exists []. simpl. repeat split; lia.
  - assert (Here : {| pos := n; rest := c :: s; caps := cs |} = st' ->
                   exists l, c :: s = l ++ rest st' /\ pos st' = n + List.length l
                             /\ forallb p l = true /\ caps st' = cs).
    { intros <-. exists []. simpl. repeat split; lia. }
    assert (There : In st' (star_run g p (S n) s cs) -> p c = true ->
                    exists l, c :: s = l ++ rest st' /\ pos st' = n + List.length l
                              /\ forallb p l = true /\ caps st' = cs).
    { intros Hin Pc. destruct (IH _ Hin) as [l [E1 [E2 [E3 E4]]]].
      exists (c :: l). simpl. rewrite Pc, E3, <- E1. repeat split; [lia | exact E4]. }
    destruct (p c) eqn:Pc.
    + destruct g.
      * intros Hin. apply in_app_or in Hin as [Hin | [E | []]]; auto.
      * intros [E | Hin]; auto.
    + intros [E | []]. auto.
Qed.

(** The matcher only reaches states behind a string of the language. *)
Lemma run_sound (r : regex) (st st' : mstate) :
  In st' (run r st) ->
  exists l, rest st = l ++ rest st' /\ pos st' = pos st + List.length l /\ lang r l.
Proof.
  revert st st'. induction r as [|p|r1 IH1 r2 IH2|r1 IH1 r2 IH2|g p|n r1 IH1| |];
    intros st st'; simpl.
  - intros [<- | []]. exists []. simpl. repeat split; lia.
  - destruct (rest st) as [|c s] eqn:R; [intros []|].
    destruct (p c) eqn:Pc; [|intros []].
    intros [<- | []]. exists [c]. simpl. repeat split; [lia|].
    exists c. now split.
  - intros Hin. apply in_flat_map in Hin as [st1 [H1 H2]].
    destruct (IH1 _ _ H1) as [l1 [E1 [P1 L1]]].
    destruct (IH2 _ _ H2) as [l2 [E2 [P2 L2]]].
    exists (l1 ++ l2). rewrite <- app_assoc, <- E2, <- E1, length_app.
    repeat split; [lia|]. now exists l1, l2.
  - intros Hin. apply in_app_or in Hin as [Hin | Hin].
    + destruct (IH1 _ _ Hin) as [l [E [P L]]]. exists l. auto.
    + destruct (IH2 _ _ Hin) as [l [E [P L]]]. exists l. auto.
  - intros Hin. destruct (star_run_sound _ _ _ _ _ _ Hin) as [l [E1 [E2 [E3 _]]]].
    exists l. auto.
  - intros Hin. apply in_map_iff in Hin as [st1 [<- H1]].
    destruct (IH1 _ _ H1) as [l [E [P L]]]. exists l. auto.
  - destruct (Nat.eqb (pos st) 0); [|intros []].
    intros [<- | []]. exists []. simpl. repeat split; lia.
  - destruct (rest st) as [|c s] eqn:R; [|intros []].
    intros [<- | []]. exists []. rewrite R. simpl. repeat split; lia.
Qed.

(** A regular expression without groups leaves the captures alone. *)
Lemma run_group_free (r : regex) (st st' : mstate) :
  group_free r = true -> In st' (run r st) -> caps st' = caps st.
Proof.
  revert st st'. induction r as [|p|r1 IH1 r2 IH2|r1 IH1 r2 IH2|g p|n r1 IH1| |];
    intros st st'; simpl; intros G.
  - intros [<- | []]. reflexivity.
  - destruct (rest st) as [|c s]; [intros []|].
    destruct (p c); [|intros []]. intros [<- | []]. reflexivity.
  - apply andb_true_iff in G as [G1 G2].
    intros Hin. apply in_flat_map in Hin as [st1 [H1 H2]].
    rewrite (IH2 _ _ G2 H2). exact (IH1 _ _ G1 H1).
  - apply andb_true_iff in G as [G1 G2].
    intros Hin. apply in_app_or in Hin as [Hin | Hin]; auto.
  - intros Hin. destruct (star_run_sound _ _ _ _ _ _ Hin) as [l [_ [_ [_ E]]]].
    exact E.
  - discriminate.
  - destruct (Nat.eqb (pos st) 0); [|intros []]. intros [<- | []]. reflexivity.
  - destruct (rest st); [|intros []]. intros [<- | []]. reflexivity.
Qed.

Lemma run_plain (r : regex) (st st' : mstate) :
  group_free r = true -> In st' (run r st) ->
  exists l, rest st = l ++ rest st' /\ pos st' = pos st + List.length l
            /\ lang r l /\ caps st' = caps st.
Proof.
  intros G Hin. destruct (run_sound _ _ _ Hin) as [l [E [P L]]].
  exists l. repeat split; auto. exact (run_group_free _ _ _ G Hin).
Qed.

(** A group around a regular expression without inner groups captures the
    string that it matched. *)
Lemma run_group (n : nat) (r : regex) (st st' : mstate) :
  group_free r = true -> In st' (run (Group n r) st) ->
  exists l, rest st = l ++ rest st' /\ pos st' = pos st + List.length l
            /\ lang r l /\ caps st' = (n, l) :: caps st.
Proof.
  intros G Hin. simpl in Hin. apply in_map_iff in Hin as [st1 [<- H1]].
  destruct (run_plain _ _ _ G H1) as [l [E [P [L C]]]].
  exists l. simpl. repeat split; auto.
  rewrite C, E, P. f_equal. f_equal.
  replace (pos st + List.length l - pos st) with (List.length l) by lia.
  rewrite firstn_app, firstn_all, Nat.sub_diag. simpl. apply app_nil_r.
Qed.

Lemma run_seq (r1 r2 : regex) (st st' : mstate) :
  In st' (run (Seq r1 r2) st) ->
  exists st1, In st1 (run r1 st) /\ In st' (run r2 st1).
Proof. simpl. intros Hin. now apply in_flat_map in Hin. Qed.

Lemma run_eol (st st' : mstate) :
  In st' (run Eol st) -> st' = st /\ rest st = [].
Proof.
  simpl. destruct (rest st); [|intros []]. intros [<- | []]. now split.
Qed.

(** A regular expression that starts with [^] matches at index 0 only. *)
Lemma exec_from_anchored (r : regex) (s : jsstring) (n : nat) (m : rmatch) :
  exec_from (Seq Bol r) n s = Some m ->
  n = 0 /\ In (m_end m) (run r {| pos := 0; rest := s; caps := [] |}).
Proof.
  assert (Later : forall t k, exec_from (Seq Bol r) (S k) t = None).
  { induction t as [|c t IH]; intros k; simpl; [reflexivity | apply IH]. }
  destruct n as [|n]; [|rewrite Later; discriminate].
  destruct s as [|c s]; simpl; rewrite app_nil_r.
  - destruct (run r _) as [|st l] eqn:R; [discriminate|].
    intros E. injection E as <-. split; [reflexivity | now left].
  - destruct (run r _) as [|st l] eqn:R; [rewrite Later; discriminate|].
    intros E. injection E as <-. split; [reflexivity | now left].
Qed.

Lemma re_match_anchored (r : regex) (s : jsstring) (m : rmatch) :
  re_match (Seq Bol r) s = Some m ->
  In (m_end m) (run r {| pos := 0; rest := s; caps := [] |}).
Proof. intros E. now apply exec_from_anchored in E. Qed.

(** ** The regular expressions of the parser *)

#[local] Arguments cu_eqb : simpl never.
#[local] Arguments isDigit : simpl never.
#[local] Arguments isWhiteSpace : simpl never.
#[local] Arguments isDot : simpl never.

Ltac lang_inv :=
  repeat match goal with
         | H : exists _, _ |- _ => destruct H
         | H : _ /\ _ |- _ => destruct H
         | H : _ \/ _ |- _ => destruct H
         | H : cu_eqb _ _ = true |- _ => apply cu_eqb_eq in H
         end; subst.

Lemma lang_re_s (w : jsstring) :
  lang re_s w -> exists c, w = [c] /\ isWhiteSpace c = true.
Proof. simpl. trivial. Qed.

Lemma lang_re_s_plus (ws : jsstring) :
  lang re_s_plus ws -> ws <> [] /\ forallb isWhiteSpace ws = true.
Proof.
  simpl. intros H. lang_inv. simpl. split; [discriminate|].
  match goal with E : isWhiteSpace _ = true |- _ => rewrite E end. assumption.
Qed.

Lemma lang_type_code (code : jsstring) :
  lang (alts [lit (u "FS"); lit (u "ME"); lit (u "PO")]) code ->
  In code type_codes.
Proof.
  simpl. unfold chr. simpl. intros H.
  lang_inv; [left | right; left | right; right; left]; reflexivity.
Qed.

Lemma lang_re_date (d : jsstring) : lang re_date d -> well_formed_date d = true.
Proof.
  simpl. unfold chr. simpl. intros H. lang_inv. simpl.
  repeat match goal with E : isDigit _ = true |- _ => rewrite E; clear E end.
  reflexivity.
Qed.

Lemma lang_re_kickoff (t : jsstring) :
  lang (Alt re_time (lit (u "SPIELFREI"))) t ->
  well_formed_time t = true \/ t = SPIELFREI.
Proof.
  simpl. unfold chr. simpl. intros H. lang_inv.
  - left. simpl.
    repeat match goal with E : isDigit _ = true |- _ => rewrite E; clear E end.
    reflexivity.
  - right. reflexivity.
Qed.

(** A match of [/^(FS|ME|PO)\s+( .* )$/]: the line is a type code, white
    space and a remainder without line terminators; group 1 is the code
    and group 2 the remainder. *)
Lemma type_rest_match (line : jsstring) (m : rmatch) :
  re_match re_type_rest line = Some m ->
  exists code rest,
    row_start line code rest
    /\ group m 1 = Some code /\ group m 2 = Some rest.
Proof.
  intros E. apply re_match_anchored in E.
  apply run_seq in E as [s1 [H1 E]].
  apply run_seq in E as [s2 [H2 E]].
  apply run_seq in E as [s3 [H3 E]].
  apply run_eol in E as [E R].
  apply run_group in H1 as [code [E1 [_ [L1 C1]]]]; [|reflexivity].
  apply run_plain in H2 as [ws [E2 [_ [L2 C2]]]]; [|reflexivity].
  apply run_group in H3 as [rest [E3 [_ [L3 C3]]]]; [|reflexivity].
  simpl in E1, C1. rewrite R, app_nil_r in E3.
  exists code, rest. repeat split.
  - exists ws. apply lang_re_s_plus in L2 as [Wn Wf].
    repeat split; auto.
    + rewrite E1, E2, E3. reflexivity.
    + now apply lang_type_code.
  - unfold group. rewrite E, C3, C2, C1. reflexivity.
  - unfold group. rewrite E, C3. reflexivity.
Qed.

(** A match of the date-time pattern: the four groups are the four fields
    of the full pattern. *)
Lemma date_time_match (rest : jsstring) (m : rmatch) :
  re_match re_date_time rest = Some m ->
  exists label date kickoff pairing,
    full_pattern rest label date kickoff pairing
    /\ group m 1 = Some label /\ group m 2 = Some date
    /\ group m 3 = Some kickoff /\ group m 4 = Some pairing.
Proof.
  intros E. apply re_match_anchored in E.
  apply run_seq in E as [s1 [H1 E]].
  apply run_seq in E as [s2 [H2 E]].
  apply run_seq in E as [s3 [H3 E]].
  apply run_seq in E as [s4 [H4 E]].
  apply run_seq in E as [s5 [H5 E]].
  apply run_seq in E as [s6 [H6 E]].
  apply run_seq in E as [s7 [H7 E]].
  apply run_eol in E as [E R].
  apply run_group in H1 as [label [E1 [_ [L1 C1]]]]; [|reflexivity].
  apply run_plain in H2 as [w1 [E2 [_ [L2 C2]]]]; [|reflexivity].
  apply run_group in H3 as [date [E3 [_ [L3 C3]]]]; [|reflexivity].
  apply run_plain in H4 as [w2 [E4 [_ [L4 C4]]]]; [|reflexivity].
  apply run_group in H5 as [kickoff [E5 [_ [L5 C5]]]]; [|reflexivity].
  apply run_plain in H6 as [w3 [E6 [_ [L6 C6]]]]; [|reflexivity].
  apply run_group in H7 as [pairing [E7 [_ [L7 C7]]]]; [|reflexivity].
  simpl in E1, C1. rewrite R, app_nil_r in E7.
  apply lang_re_s in L2 as [c1 [-> W1]].
  apply lang_re_s in L4 as [c2 [-> W2]].
  apply lang_re_s in L6 as [c3 [-> W3]].
  exists label, date, kickoff, pairing. repeat split.
  - exists c1, c2, c3. repeat split; auto.
    + rewrite E1, E2, E3, E4, E5, E6, E7. reflexivity.
    + now apply lang_re_date.
    + now apply lang_re_kickoff.
  - unfold group. rewrite E, C7, C6, C5, C4, C3, C2, C1. reflexivity.
  - unfold group. rewrite E, C7, C6, C5, C4, C3. reflexivity.
  - unfold group. rewrite E, C7, C6, C5. reflexivity.
  - unfold group. rewrite E, C7. reflexivity.
Qed.

(** ** The tokenizer *)

#[local] Arguments skipn : simpl never.

Lemma venue_lines_index (ls : list jsstring) (j : nat) (venue : jsstring) :
  j <= snd (V2.venue_lines ls j venue).
Proof.
  revert j venue. induction ls as [|l ls IH]; intros j venue; simpl; [lia|].
  destruct (negb (isRowStart l) && negb (V2.isHeaderSection l)); simpl; [|lia].
  destruct (re_test V2.re_boilerplate l).
  - specialize (IH (S j) venue). lia.
  - specialize (IH (S j) (venue ++ (if truthy venue then u " " else []) ++ l)). lia.
Qed.

(** The loop of the second variant ends within one iteration per line,
    and it does not throw. *)
Lemma rows_finishes (lines : list jsstring) (fuel i : nat)
    (currentSection : jsstring) (raws : list GameRaw.t) :
  List.length lines <= i + fuel ->
  exists out, V2.rows fuel lines i currentSection raws = Some (Returns out).
Proof.
  revert i currentSection raws.
  induction fuel as [|fuel IH]; intros i sec raws Hlen.
  - simpl. destruct (nth_error lines i) as [line|] eqn:N; [|now eexists].
    assert (i < List.length lines) by (apply nth_error_Some; congruence). lia.
  - simpl. destruct (nth_error lines i) as [line|] eqn:N; [|now eexists].
    destruct (V2.isHeaderSection line); [apply IH; lia|].
    destruct (negb (isRowStart line)); [apply IH; lia|].
    destruct (re_match re_type_rest line) as [m|] eqn:M; [|apply IH; lia].
    destruct (type_rest_match _ _ M) as [code [rest [_ [G1 G2]]]].
    rewrite G1, G2. simpl.
    destruct (re_match re_date_time rest) as [dt|] eqn:D; [|apply IH; lia].
    destruct (date_time_match _ _ D) as [g1 [g2 [g3 [g4 [_ [E1 [E2 [E3 E4]]]]]]]].
    rewrite E1, E2, E3, E4. simpl.
    pose proof (venue_lines_index (skipn (S i) lines) (S i) []) as J.
    destruct (V2.venue_lines (skipn (S i) lines) (S i) []) as [venue j].
    simpl in J. apply IH. lia.
Qed.

Lemma V2_tokenize_returns (txt : jsstring) :
  exists raws,
    V2.rows (List.length (input_lines txt)) (input_lines txt) 0 [] []
      = Some (Returns raws)
    /\ V2.tokenize txt = Returns raws.
Proof.
  destruct (rows_finishes (input_lines txt) (List.length (input_lines txt)) 0 [] [])
    as [out E]; [lia|].
  exists out. split; [exact E|]. unfold V2.tokenize. now rewrite E.
Qed.

(** Every row of the second variant comes from a line that matches the
    full pattern. *)
Lemma V2_rows_tokenized (lines : list jsstring) (fuel i : nat)
    (currentSection : jsstring) (raws out : list GameRaw.t) :
  V2.rows fuel lines i currentSection raws = Some (Returns out) ->
  Forall (tokenized lines) raws -> Forall (tokenized lines) out.
Proof.
  revert i currentSection raws.
  induction fuel as [|fuel IH]; intros i sec raws; simpl.
  - destruct (nth_error lines i); [discriminate|]. congruence.
  - destruct (nth_error lines i) as [line|] eqn:N; [|congruence].
    destruct (V2.isHeaderSection line); [apply IH|].
    destruct (negb (isRowStart line)); [apply IH|].
    destruct (re_match re_type_rest line) as [m|] eqn:M; [|apply IH].
    destruct (type_rest_match _ _ M) as [code [rest [RS [G1 G2]]]].
    rewrite G1, G2. simpl.
    destruct (re_match re_date_time rest) as [dt|] eqn:D; [|apply IH].
    destruct (date_time_match _ _ D) as [g1 [g2 [g3 [g4 [FP [E1 [E2 [E3 E4]]]]]]]].
    rewrite E1, E2, E3, E4. simpl.
    destruct (V2.venue_lines (skipn (S i) lines) (S i) []) as [venue j].
    intros E F. apply (IH _ _ _ E).
    apply Forall_app. split; [exact F|]. constructor; [|constructor].
    exists line, rest, g1, g4. simpl. auto.
Qed.

(** The loop of the first variant does not throw. *)
Lemma V1_rows_returns (ls : list jsstring) (i : nat) (currentSection : jsstring)
    (raws : list GameRaw.t) :
  exists out, V1.rows ls i currentSection raws = Returns out.
Proof.
  revert i currentSection raws.
  induction ls as [|line ls IH]; intros i sec raws; simpl; [now eexists|].
  destruct (V1.isHeaderSection line); [apply IH|].
  destruct (negb (isRowStart line)); [apply IH|].
  destruct (re_match re_type_rest line) as [m|] eqn:M; [|apply IH].
  destruct (type_rest_match _ _ M) as [code [rest [_ [G1 G2]]]].
  rewrite G1, G2. simpl.
  destruct (re_match re_date_time rest) as [dt|] eqn:D; [|apply IH].
  destruct (date_time_match _ _ D) as [g1 [g2 [g3 [g4 [_ [E1 [E2 [E3 E4]]]]]]]].
  rewrite E1, E2, E3, E4. simpl. apply IH.
Qed.

(** ** The module-level array of variants *)

Lemma array_sort_fixed (A : Type) (cmp : A -> A -> Z) (l : list A) :
  StronglySorted (before cmp) l -> array_sort cmp l = l.
Proof.
  induction 1 as [|x l Hl IH Hx]; [reflexivity|].
  simpl. rewrite IH. destruct l as [|y l]; [reflexivity|].
  simpl. apply Forall_inv in Hx. unfold before in Hx.
  apply Z.leb_le in Hx. now rewrite Hx.
Qed.

Lemma sorted_prefixes_idem (prefixes : list jsstring) :
  array_sort by_length_desc (array_sort by_length_desc prefixes)
  = array_sort by_length_desc prefixes.
Proof. apply array_sort_fixed, sorted_prefixes_sorted. Qed.


(** A call on the sorted array returns what the call on the declared
    array returns: the result does not depend on earlier calls. *)
Lemma detect_fst_sorted (pairing : jsstring) (prefixes : list jsstring) :
  fst (detectHomeAndSplit pairing (array_sort by_length_desc prefixes))
  = fst (detectHomeAndSplit pairing prefixes).
Proof.
  unfold detectHomeAndSplit. simpl. now rewrite sorted_prefixes_idem.
Qed.

Lemma map_st_pure (A B S : Type) (f : A -> S -> B * S) (norm : S -> S) :
  (forall s, norm (norm s) = norm s) ->
  (forall x s, snd (f x s) = s \/ snd (f x s) = norm s) ->
  (forall x s, fst (f x (norm s)) = fst (f x s)) ->
  forall l s, fst (map_st f l s) = map (fun x => fst (f x s)) l.
Proof.
  intros Hidem Hsnd Hfst. induction l as [|x l IH]; intros s; [reflexivity|].
  simpl. destruct (f x s) as [y s1] eqn:E.
  specialize (IH s1). destruct (map_st f l s1) as [ys s2]. simpl in *.
  f_equal. rewrite IH. apply map_ext. intros a.
  destruct (Hsnd x s) as [E1 | E1]; rewrite E in E1; simpl in E1; subst s1.
  - reflexivity.
  - apply Hfst.
Qed.

Lemma filter_non_null_In (A : Type) (l : list (option A)) (x : A) :
  In x (filter_non_null l) <-> In (Some x) l.
Proof.
  induction l as [|[y|] l IH]; simpl.
  - tauto.
  - rewrite IH. split; (intros [E | E]; [left; congruence | now right]).
  - rewrite IH. split; [now right | intros [E | E]; [discriminate | exact E]].
Qed.

(** ** [mapRawToGame] *)

Section MapRawToGame.
Context {H : Host}.

Lemma V1_map_snd (r : GameRaw.t) (ps : list jsstring) :
  snd (V1.mapRawToGame r ps) = ps
  \/ snd (V1.mapRawToGame r ps) = array_sort by_length_desc ps.
Proof.
  unfold V1.mapRawToGame.
  destruct (str_eqb _ SPIELFREI); [now left | now right].
Qed.

Lemma V1_map_fst_sorted (r : GameRaw.t) (ps : list jsstring) :
  fst (V1.mapRawToGame r (array_sort by_length_desc ps))
  = fst (V1.mapRawToGame r ps).
Proof.
  unfold V1.mapRawToGame.
  destruct (str_eqb _ SPIELFREI); [reflexivity|].
  pose proof (detect_fst_sorted (GameRaw.pairing r) ps) as E.
  destruct (detectHomeAndSplit (GameRaw.pairing r) (array_sort _ ps)).
  destruct (detectHomeAndSplit (GameRaw.pairing r) ps).
  simpl in *. now subst.
Qed.

Lemma V2_map_snd (r : GameRaw.t) (ps : list jsstring) :
  snd (V2.mapRawToGame r ps) = ps
  \/ snd (V2.mapRawToGame r ps) = array_sort by_length_desc ps.
Proof.
  unfold V2.mapRawToGame.
  destruct (str_eqb _ SPIELFREI); [now left | now right].
Qed.

Lemma V2_map_fst_sorted (r : GameRaw.t) (ps : list jsstring) :
  fst (V2.mapRawToGame r (array_sort by_length_desc ps))
  = fst (V2.mapRawToGame r ps).
Proof.
  unfold V2.mapRawToGame.
  destruct (str_eqb _ SPIELFREI); [reflexivity|].
  pose proof (detect_fst_sorted (GameRaw.pairing r) ps) as E.
  destruct (detectHomeAndSplit (GameRaw.pairing r) (array_sort _ ps)).
  destruct (detectHomeAndSplit (GameRaw.pairing r) ps).
  simpl in *. now subst.
Qed.

(** The rows are mapped one by one, each as if on the declared array. *)
Lemma V1_map_rows (raws : list GameRaw.t) (ps : list jsstring) :
  fst (map_st V1.mapRawToGame raws ps)
  = map (fun r => fst (V1.mapRawToGame r ps)) raws.
Proof.
  apply (map_st_pure _ _ _ V1.mapRawToGame (array_sort by_length_desc)).
  - apply sorted_prefixes_idem.
  - apply V1_map_snd.
  - apply V1_map_fst_sorted.
Qed.

Lemma V2_map_rows (raws : list GameRaw.t) (ps : list jsstring) :
  fst (map_st V2.mapRawToGame raws ps)
  = map (fun r => fst (V2.mapRawToGame r ps)) raws.
Proof.
  apply (map_st_pure _ _ _ V2.mapRawToGame (array_sort by_length_desc)).
  - apply sorted_prefixes_idem.
  - apply V2_map_snd.
  - apply V2_map_fst_sorted.
Qed.

(** What a record takes from its row. *)
Lemma V1_map_some (r : GameRaw.t) (ps : list jsstring) (g : GameItem.t) :
  fst (V1.mapRawToGame r ps) = Some g ->
  let split := fst (detectHomeAndSplit (GameRaw.pairing r) ps) in
  str_eqb (toUpperCase (GameRaw.time r)) SPIELFREI = false
  /\ GameItem.time g = GameRaw.time r
  /\ GameItem.venue g = GameRaw.venue r
  /\ GameItem.homeTeam g = Split.homeTeam split
  /\ GameItem.awayTeam g = Split.awayTeam split
  /\ GameItem.isHome g = Split.isHome split
  /\ GameItem.suggestedField g
     = (if Split.isHome split then V1.suggestFieldFromVenue (GameRaw.venue r)
        else None).
Proof.
  unfold V1.mapRawToGame.
  destruct (str_eqb _ SPIELFREI); [discriminate|].
  destruct (detectHomeAndSplit (GameRaw.pairing r) ps) as [sp ps'].
  simpl. intros E. injection E as <-. simpl. repeat split.
Qed.

Lemma V2_map_some (r : GameRaw.t) (ps : list jsstring) (g : GameItem.t) :
  fst (V2.mapRawToGame r ps) = Some g ->
  let split := fst (detectHomeAndSplit (GameRaw.pairing r) ps) in
  str_eqb (toUpperCase (GameRaw.time r)) SPIELFREI = false
  /\ GameItem.time g = GameRaw.time r
  /\ GameItem.venue g = GameRaw.venue r
  /\ GameItem.homeTeam g = Split.homeTeam split
  /\ GameItem.awayTeam g = Split.awayTeam split
  /\ GameItem.isHome g = Split.isHome split
  /\ GameItem.suggestedField g
     = (if Split.isHome split then V2.suggestFieldFromVenue (GameRaw.venue r)
        else None).
Proof.
  unfold V2.mapRawToGame.
  destruct (str_eqb _ SPIELFREI); [discriminate|].
  destruct (detectHomeAndSplit (GameRaw.pairing r) ps) as [sp ps'].
  simpl. intros E. injection E as <-. simpl. repeat split.
Qed.

(** [parseBFVText] as a function of the rows. *)
Lemma V1_parse_rows (txt : jsstring) (ps ps' : list jsstring)
    (games : list GameItem.t) :
  V1.parseBFVText txt ps = Returns (games, ps') ->
  exists raws,
    V1.tokenize txt = Returns raws
    /\ games = filter_non_null (map (fun r => fst (V1.mapRawToGame r ps)) raws).
Proof.
  unfold V1.parseBFVText.
  destruct (V1.tokenize txt) as [raws|]; simpl; [|discriminate].
  pose proof (V1_map_rows raws ps) as E.
  destruct (map_st V1.mapRawToGame raws ps) as [mapped ps1]. simpl in E.
  intros R. injection R as <- <-. exists raws. now rewrite E.
Qed.

Lemma V2_parse_rows (txt : jsstring) (ps ps' : list jsstring)
    (games : list GameItem.t) :
  V2.parseBFVText txt ps = Returns (games, ps') ->
  exists raws,
    V2.tokenize txt = Returns raws
    /\ games = array_sort by_dt
                 (filter_non_null (map (fun r => fst (V2.mapRawToGame r ps)) raws)).
Proof.
  unfold V2.parseBFVText.
  destruct (V2.tokenize txt) as [raws|]; simpl; [|discriminate].
  pose proof (V2_map_rows raws ps) as E.
  destruct (map_st V2.mapRawToGame raws ps) as [mapped ps1]. simpl in E.
  intros R. injection R as <- <-. exists raws. now rewrite E.
Qed.

(** Every record of the output is the record of a row. *)
Lemma V1_record_row (txt : jsstring) (ps ps' : list jsstring)
    (games : list GameItem.t) (g : GameItem.t) :
  V1.parseBFVText txt ps = Returns (games, ps') -> In g games ->
  exists raws r,
    V1.tokenize txt = Returns raws /\ In r raws
    /\ fst (V1.mapRawToGame r ps) = Some g.
Proof.
  intros P Hin. destruct (V1_parse_rows _ _ _ _ P) as [raws [T ->]].
  apply filter_non_null_In, in_map_iff in Hin as [r [E Hr]].
  now exists raws, r.
Qed.

Lemma V2_record_row (txt : jsstring) (ps ps' : list jsstring)
    (games : list GameItem.t) (g : GameItem.t) :
  V2.parseBFVText txt ps = Returns (games, ps') -> In g games ->
  exists raws r,
    V2.tokenize txt = Returns raws /\ In r raws
    /\ fst (V2.mapRawToGame r ps) = Some g.
Proof.
  intros P Hin. destruct (V2_parse_rows _ _ _ _ P) as [raws [T ->]].
  apply array_sort_In, filter_non_null_In, in_map_iff in Hin as [r [E Hr]].
  now exists raws, r.
Qed.
End MapRawToGame.

(** * The claims *)

(** ** C3 *)

(** C3, as the code has it.  When a configured variant [long] is a
    left-anchored prefix of the normalized pairing, the fixture is a home
    fixture and [homeTeam] is the longest configured variant that is a
    left-anchored prefix of it.  So [homeTeam] is never a strict prefix
    [short] of [long], and it is [long] itself unless a still longer
    variant matches as well. *)
Theorem longest_variant_wins :
  forall (prefixes : list jsstring) (pairing short long : jsstring),
    In long prefixes ->
    strict_prefix short long ->
    left_anchored (normalizeSpaces pairing) long ->
    let text := normalizeSpaces pairing in
    let split := fst (detectHomeAndSplit pairing prefixes) in
    Split.isHome split = true
    /\ In (Split.homeTeam split) prefixes
    /\ left_anchored text (Split.homeTeam split)
    /\ (forall v, In v prefixes -> left_anchored text v ->
                  List.length v <= List.length (Split.homeTeam split))
    /\ Split.homeTeam split <> short
    /\ ((forall v, In v prefixes -> left_anchored text v ->
                   List.length v <= List.length long) ->
        Split.homeTeam split = long).
Proof.
  intros ps pairing short long Hlong [x [Hx Hpre]] Hm text split.
  destruct (find (left_match text) (array_sort by_length_desc ps)) as [p|] eqn:F.
  - assert (Es : split = {| Split.homeTeam := p;
                            Split.awayTeam := trim (slice text (str_length p) None);
                            Split.isHome := true |})
      by (apply detect_left; exact F).
    pose proof (find_some _ _ F) as [Hin Hp].
    apply (proj1 (sorted_prefixes_In _ _)) in Hin. apply left_match_spec in Hp.
    assert (Longest : forall v, In v ps -> left_anchored text v ->
                                List.length v <= List.length p).
    { intros v Hv Mv. apply by_length_desc_before.
      apply (find_first_sorted _ by_length_desc (left_match text)
               (array_sort by_length_desc ps)).
      - intros a. apply by_length_desc_before. lia.
      - apply sorted_prefixes_sorted.
      - exact F.
      - now apply sorted_prefixes_In.
      - now apply left_match_spec. }
    rewrite Es. simpl. repeat split; auto.
    + intros ->. specialize (Longest long Hlong Hm).
      rewrite Hpre, length_app in Longest.
      destruct x; [congruence | simpl in Longest; lia].
    + intros Hmax. apply (left_anchored_same_length text); auto.
      specialize (Longest long Hlong Hm). specialize (Hmax p Hin Hp). lia.
  - exfalso. apply (proj2 (sorted_prefixes_In _ _)) in Hlong.
    pose proof (find_none _ _ F long Hlong) as N.
    apply left_match_spec in Hm. unfold text in N. congruence.
Qed.

Lemma longest_variant_wins_witness :
  In (u "TSV Lonnerstadt 2") OUR_TEAM_PREFIXES
  /\ strict_prefix (u "TSV Lonnerstadt") (u "TSV Lonnerstadt 2")
  /\ left_anchored (normalizeSpaces (u "TSV Lonnerstadt 2  SV Beispiel"))
       (u "TSV Lonnerstadt 2")
  /\ Split.homeTeam
       (fst (detectHomeAndSplit (u "TSV Lonnerstadt 2  SV Beispiel")
               OUR_TEAM_PREFIXES))
     <> u "TSV Lonnerstadt".
Proof.
  assert (H1 : In (u "TSV Lonnerstadt 2") OUR_TEAM_PREFIXES)
    by (do 4 right; left; reflexivity).
  assert (H2 : strict_prefix (u "TSV Lonnerstadt") (u "TSV Lonnerstadt 2"))
    by (exists (u " 2"); split; [discriminate | reflexivity]).
  assert (H3 : left_anchored (normalizeSpaces (u "TSV Lonnerstadt 2  SV Beispiel"))
                 (u "TSV Lonnerstadt 2"))
    by (left; exists (u "SV Beispiel"); vm_compute; reflexivity).
  split; [exact H1 | split; [exact H2 | split; [exact H3|]]].
  exact (proj1 (proj2 (proj2 (proj2 (proj2
           (longest_variant_wins OUR_TEAM_PREFIXES
              (u "TSV Lonnerstadt 2  SV Beispiel")
              (u "TSV Lonnerstadt") (u "TSV Lonnerstadt 2") H1 H2 H3)))))).
Defined.

(** C3 as stated fails: [TSV Lonnerstadt] is a strict prefix of
    [TSV Lonnerstadt 2], both are configured, and the pairing matches the
    longer one as a left-anchored prefix; yet [homeTeam] is not the longer
    one but the still longer variant [TSV Lonnerstadt 2 (7er)]. *)
Lemma longer_variant_not_always_home :
  let pairing := u "TSV Lonnerstadt 2 (7er) SV Beispiel" in
  let short := u "TSV Lonnerstadt" in
  let long := u "TSV Lonnerstadt 2" in
  In short OUR_TEAM_PREFIXES /\ In long OUR_TEAM_PREFIXES
  /\ strict_prefix short long
  /\ left_anchored (normalizeSpaces pairing) long
  /\ Split.homeTeam (fst (detectHomeAndSplit pairing OUR_TEAM_PREFIXES))
     = u "TSV Lonnerstadt 2 (7er)"
  /\ Split.homeTeam (fst (detectHomeAndSplit pairing OUR_TEAM_PREFIXES)) <> long.
Proof.
  cbv zeta. repeat split.
  - do 8 right; left; reflexivity.
  - do 4 right; left; reflexivity.
  - exists (u " 2"). split; [discriminate | reflexivity].
  - left. exists (u "(7er) SV Beispiel"). vm_compute. reflexivity.
  - vm_compute. discriminate.
Qed.

(** ** C10 *)

(** C10.  When [detectHomeAndSplit] reports a home fixture, the home team,
    a single space and the away team make up the normalized pairing; and
    when the away team is empty, the home team alone is the normalized
    pairing. *)
Theorem home_split_lossless :
  forall (pairing : jsstring) (prefixes : list jsstring),
    let split := fst (detectHomeAndSplit pairing prefixes) in
    Split.isHome split = true ->
    (Split.awayTeam split <> [] ->
     Split.homeTeam split ++ u " " ++ Split.awayTeam split
     = normalizeSpaces pairing)
    /\ (Split.awayTeam split = [] ->
        Split.homeTeam split = normalizeSpaces pairing).
Proof.
  intros pairing ps split Hhome.
  destruct (detect_isHome_find _ _ Hhome) as [p F].
  assert (Es : split = {| Split.homeTeam := p;
                          Split.awayTeam :=
                            trim (slice (normalizeSpaces pairing) (str_length p) None);
                          Split.isHome := true |})
    by (apply detect_left; exact F).
  apply find_some in F as [_ Hp]. apply left_match_spec in Hp.
  rewrite Es. simpl. clear Es split Hhome.
  destruct Hp as [[r E] | E].
  - change (u " " ++ r) with (32%N :: r) in E.
    destruct (normalized_tail _ _ _ E) as [Hne Ht].
    rewrite E, slice_from, Ht. split.
    + intros _. reflexivity.
    + intros ->. congruence.
  - rewrite E. rewrite <- (app_nil_r p) at 1 4. rewrite slice_from.
    split; [intros N; now elim N | intros _; reflexivity].
Qed.

Lemma home_split_lossless_witness :
  Split.isHome
    (fst (detectHomeAndSplit (u " TSV  Lonnerstadt   SpVgg Reuth ")
            OUR_TEAM_PREFIXES)) = true
  /\ u "TSV Lonnerstadt" ++ u " " ++ u "SpVgg Reuth"
     = normalizeSpaces (u " TSV  Lonnerstadt   SpVgg Reuth ").
Proof.
  split; [reflexivity|].
  apply (proj1 (home_split_lossless (u " TSV  Lonnerstadt   SpVgg Reuth ")
                  OUR_TEAM_PREFIXES eq_refl)).
  vm_compute. discriminate.
Defined.

(** ** C9 *)

Section FieldSuggester.
Context {H : Host}.

Lemma V1_suggest_home_ground (venue : jsstring) :
  let v := toLowerCase venue in
  includes v (u "frimmersdorf") = false ->
  includes v (u "vestenbergsgreuth") = false ->
  includes v (u "weisendorf") && includes v (u "kunstrasen") = false ->
  includes v (u "am sonnenh" ++ [252%N] ++ u "gel") = true ->
  V1.suggestFieldFromVenue venue = Some (pitch_field v).
Proof.
  intros v E1 E2 E3 E4. unfold V1.suggestFieldFromVenue, pitch_field.
  fold v. rewrite E1, E2, E3, E4.
  destruct (includes v (u "platz 1")); [reflexivity|].
  destruct (includes v (u "platz 2")); [reflexivity|].
  destruct (includes v (u "platz 3")); reflexivity.
Qed.

Lemma V2_suggest_home_ground (venue : jsstring) :
  let v := toLowerCase venue in
  includes v (u "frimmersdorf") = false ->
  includes v (u "vestenbergsgreuth") = false ->
  includes v (u "weisendorf") && includes v (u "kunstrasen") = false ->
  includes v (u "am sonnenh" ++ [252%N] ++ u "gel")
  || includes v (u "sportgel" ++ [228%N] ++ u "nde") = true ->
  V2.suggestFieldFromVenue venue = Some (pitch_field v).
Proof.
  intros v E1 E2 E3 E4. unfold V2.suggestFieldFromVenue, pitch_field.
  fold v. rewrite E1, E2, E3, E4.
  destruct (includes v (u "platz 1")); [reflexivity|].
  destruct (includes v (u "platz 2")); [reflexivity|].
  destruct (includes v (u "platz 3")); reflexivity.
Qed.
End FieldSuggester.

(** C9.  Take a home fixture of the output whose lower-cased venue text
    contains the home-ground phrase ([am sonnenhuegel] with u-diaeresis;
    in the second variant also [sportgelaende] with a-diaeresis) and to
    which none of the earlier rules applies ([frimmersdorf],
    [vestenbergsgreuth], [weisendorf] together with [kunstrasen]).  Its
    suggested field follows the pitch-number token, the tokens being tested
    in this order: [platz 1] gives A, [platz 2] gives B, [platz 3] gives C,
    and without a token the field is A. *)
Theorem home_ground_pitch_number :
  forall (H : Host) (txt : jsstring) (prefixes prefixes' : list jsstring)
         (games : list GameItem.t) (g : GameItem.t),
    let v := toLowerCase (GameItem.venue g) in
    let home_ground_1 := includes v (u "am sonnenh" ++ [252%N] ++ u "gel") in
    let home_ground_2 :=
      home_ground_1 || includes v (u "sportgel" ++ [228%N] ++ u "nde") in
    In g games ->
    GameItem.isHome g = true ->
    includes v (u "frimmersdorf") = false ->
    includes v (u "vestenbergsgreuth") = false ->
    includes v (u "weisendorf") && includes v (u "kunstrasen") = false ->
    (V1.parseBFVText txt prefixes = Returns (games, prefixes')
     /\ home_ground_1 = true)
    \/ (V2.parseBFVText txt prefixes = Returns (games, prefixes')
        /\ home_ground_2 = true) ->
    (includes v (u "platz 1") = true ->
     GameItem.suggestedField g = Some Field_A)
    /\ (includes v (u "platz 1") = false ->
        includes v (u "platz 2") = true ->
        GameItem.suggestedField g = Some Field_B)
    /\ (includes v (u "platz 1") = false ->
        includes v (u "platz 2") = false ->
        includes v (u "platz 3") = true ->
        GameItem.suggestedField g = Some Field_C)
    /\ (includes v (u "platz 1") = false ->
        includes v (u "platz 2") = false ->
        includes v (u "platz 3") = false ->
        GameItem.suggestedField g = Some Field_A).
Proof.
  intros H txt ps ps' games g v hg1 hg2 Hin Hhome E1 E2 E3 Hparse.
  assert (S : GameItem.suggestedField g = Some (pitch_field v)).
  { destruct Hparse as [[P G] | [P G]].
    - destruct (V1_record_row _ _ _ _ _ P Hin) as [raws [r [_ [_ M]]]].
      apply V1_map_some in M as [_ [_ [Ev [_ [_ [Eh Es]]]]]].
      rewrite Es, <- Eh, Hhome, <- Ev. now apply V1_suggest_home_ground.
    - destruct (V2_record_row _ _ _ _ _ P Hin) as [raws [r [_ [_ M]]]].
      apply V2_map_some in M as [_ [_ [Ev [_ [_ [Eh Es]]]]]].
      rewrite Es, <- Eh, Hhome, <- Ev. now apply V2_suggest_home_ground. }
  rewrite S. unfold pitch_field.
  repeat split; intros; repeat match goal with
                               | E : includes v _ = _ |- _ => rewrite E; clear E
                               end; reflexivity.
Qed.

Lemma home_ground_pitch_number_witness :
  In sample_home_game sample_games
  /\ GameItem.isHome sample_home_game = true
  /\ V2.parseBFVText (H := latin1_host) sample_text OUR_TEAM_PREFIXES
     = Returns (sample_games, sorted_prefixes)
  /\ GameItem.suggestedField sample_home_game = Some Field_B.
Proof.
  assert (P : V2.parseBFVText (H := latin1_host) sample_text OUR_TEAM_PREFIXES
              = Returns (sample_games, sorted_prefixes))
    by (vm_compute; reflexivity).
  assert (I : In sample_home_game sample_games) by (left; reflexivity).
  split; [exact I | split; [reflexivity | split; [exact P|]]].
  exact (proj1 (proj2
           (home_ground_pitch_number latin1_host sample_text OUR_TEAM_PREFIXES
              sorted_prefixes sample_games sample_home_game I eq_refl eq_refl
              eq_refl eq_refl (or_intror (conj P eq_refl))))
           eq_refl eq_refl).
Defined.

(** ** C5 *)

(** C5.  A record of the output of [parseBFVText], in either variant, that
    is not a home fixture has no suggested field. *)
Theorem away_fixture_has_no_suggestion :
  forall (H : Host) (txt : jsstring) (prefixes prefixes' : list jsstring)
         (games : list GameItem.t) (g : GameItem.t),
    V1.parseBFVText txt prefixes = Returns (games, prefixes')
    \/ V2.parseBFVText txt prefixes = Returns (games, prefixes') ->
    In g games ->
    GameItem.isHome g = false ->
    GameItem.suggestedField g = None.
Proof.
  intros H txt ps ps' games g [P | P] Hin Haway.
  - destruct (V1_record_row _ _ _ _ _ P Hin) as [raws [r [_ [_ M]]]].
    apply V1_map_some in M as [_ [_ [_ [_ [_ [Eh Es]]]]]].
    now rewrite Es, <- Eh, Haway.
  - destruct (V2_record_row _ _ _ _ _ P Hin) as [raws [r [_ [_ M]]]].
    apply V2_map_some in M as [_ [_ [_ [_ [_ [Eh Es]]]]]].
    now rewrite Es, <- Eh, Haway.
Qed.

Lemma away_fixture_has_no_suggestion_witness :
  V2.parseBFVText (H := latin1_host) sample_text OUR_TEAM_PREFIXES
  = Returns (sample_games, sorted_prefixes)
  /\ In sample_away_game sample_games
  /\ GameItem.isHome sample_away_game = false
  /\ GameItem.suggestedField sample_away_game = None.
Proof.
  assert (P : V2.parseBFVText (H := latin1_host) sample_text OUR_TEAM_PREFIXES
              = Returns (sample_games, sorted_prefixes))
    by (vm_compute; reflexivity).
  assert (I : In sample_away_game sample_games) by (right; left; reflexivity).
  split; [exact P | split; [exact I | split; [reflexivity|]]].
  exact (away_fixture_has_no_suggestion latin1_host sample_text
           OUR_TEAM_PREFIXES sorted_prefixes sample_games sample_away_game
           (or_intror P) I eq_refl).
Defined.

(** ** C6 *)

(** C6.  Every record of the output comes from a row, and it is a home
    fixture exactly when some configured variant is a left-anchored prefix
    of the normalized pairing text of that row: the text starts with the
    variant and a space, or is the variant.  A variant that only occurs
    further right, and a pairing without any variant, give [isHome = false]. *)
Theorem home_fixture_iff_left_anchored_variant :
  forall (H : Host) (txt : jsstring) (prefixes prefixes' : list jsstring)
         (games : list GameItem.t) (g : GameItem.t),
    In g games ->
    (V1.parseBFVText txt prefixes = Returns (games, prefixes') ->
     exists raws r,
       V1.tokenize txt = Returns raws /\ In r raws
       /\ fst (V1.mapRawToGame r prefixes) = Some g
       /\ (GameItem.isHome g = true <->
           exists v, In v prefixes
                     /\ left_anchored (normalizeSpaces (GameRaw.pairing r)) v))
    /\ (V2.parseBFVText txt prefixes = Returns (games, prefixes') ->
        exists raws r,
          V2.tokenize txt = Returns raws /\ In r raws
          /\ fst (V2.mapRawToGame r prefixes) = Some g
          /\ (GameItem.isHome g = true <->
              exists v, In v prefixes
                        /\ left_anchored (normalizeSpaces (GameRaw.pairing r)) v)).
Proof.
  intros H txt ps ps' games g Hin. split; intros P.
  - destruct (V1_record_row _ _ _ _ _ P Hin) as [raws [r [T [Hr M]]]].
    exists raws, r. repeat split; auto.
    + intros E. apply V1_map_some in M as [_ [_ [_ [_ [_ [Eh _]]]]]].
      rewrite Eh in E. now apply detect_isHome_iff.
    + intros E. apply V1_map_some in M as [_ [_ [_ [_ [_ [Eh _]]]]]].
      rewrite Eh. now apply detect_isHome_iff.
  - destruct (V2_record_row _ _ _ _ _ P Hin) as [raws [r [T [Hr M]]]].
    exists raws, r. repeat split; auto.
    + intros E. apply V2_map_some in M as [_ [_ [_ [_ [_ [Eh _]]]]]].
      rewrite Eh in E. now apply detect_isHome_iff.
    + intros E. apply V2_map_some in M as [_ [_ [_ [_ [_ [Eh _]]]]]].
      rewrite Eh. now apply detect_isHome_iff.
Qed.

Lemma home_fixture_iff_left_anchored_variant_witness :
  In sample_home_game sample_games
  /\ V2.parseBFVText (H := latin1_host) sample_text OUR_TEAM_PREFIXES
     = Returns (sample_games, sorted_prefixes)
  /\ exists raws r,
       V2.tokenize sample_text = Returns raws /\ In r raws
       /\ fst (V2.mapRawToGame (H := latin1_host) r OUR_TEAM_PREFIXES)
          = Some sample_home_game
       /\ (GameItem.isHome sample_home_game = true <->
           exists v, In v OUR_TEAM_PREFIXES
                     /\ left_anchored (normalizeSpaces (GameRaw.pairing r)) v).
Proof.
  assert (P : V2.parseBFVText (H := latin1_host) sample_text OUR_TEAM_PREFIXES
              = Returns (sample_games, sorted_prefixes))
    by (vm_compute; reflexivity).
  assert (I : In sample_home_game sample_games) by (left; reflexivity).
  split; [exact I | split; [exact P|]].
  exact (proj2 (home_fixture_iff_left_anchored_variant latin1_host sample_text
                  OUR_TEAM_PREFIXES sorted_prefixes sample_games
                  sample_home_game I) P).
Defined.

(** ** C2 *)

Section Spielfrei.
Context {H : Host}.

Lemma V1_map_spielfrei (r : GameRaw.t) (ps : list jsstring) :
  toUpperCase (GameRaw.time r) = SPIELFREI ->
  fst (V1.mapRawToGame r ps) = None.
Proof.
  intros E. unfold V1.mapRawToGame. rewrite E, str_eqb_refl. reflexivity.
Qed.

Lemma V2_map_spielfrei (r : GameRaw.t) (ps : list jsstring) :
  toUpperCase (GameRaw.time r) = SPIELFREI ->
  fst (V2.mapRawToGame r ps) = None.
Proof.
  intros E. unfold V2.mapRawToGame. rewrite E, str_eqb_refl. reflexivity.
Qed.

Lemma V1_map_other (r : GameRaw.t) (ps : list jsstring) :
  toUpperCase (GameRaw.time r) <> SPIELFREI ->
  exists g, fst (V1.mapRawToGame r ps) = Some g.
Proof.
  intros E. unfold V1.mapRawToGame.
  destruct (str_eqb _ SPIELFREI) eqn:S; [apply str_eqb_eq in S; congruence|].
  destruct (detectHomeAndSplit _ ps). now eexists.
Qed.

Lemma V2_map_other (r : GameRaw.t) (ps : list jsstring) :
  toUpperCase (GameRaw.time r) <> SPIELFREI ->
  exists g, fst (V2.mapRawToGame r ps) = Some g.
Proof.
  intros E. unfold V2.mapRawToGame.
  destruct (str_eqb _ SPIELFREI) eqn:S; [apply str_eqb_eq in S; congruence|].
  destruct (detectHomeAndSplit _ ps). now eexists.
Qed.

(** One record per row that is not a SPIELFREI row. *)
Lemma records_count (f : GameRaw.t -> option GameItem.t) (raws : list GameRaw.t) :
  (forall r, toUpperCase (GameRaw.time r) = SPIELFREI -> f r = None) ->
  (forall r, toUpperCase (GameRaw.time r) <> SPIELFREI -> exists g, f r = Some g) ->
  List.length (filter_non_null (map f raws))
  = List.length
      (filter (fun r => negb (str_eqb (toUpperCase (GameRaw.time r)) SPIELFREI))
              raws).
Proof.
  intros Hn Hs. induction raws as [|r raws IH]; [reflexivity|]. simpl.
  destruct (str_eqb (toUpperCase (GameRaw.time r)) SPIELFREI) eqn:S; simpl.
  - apply str_eqb_eq in S. now rewrite (Hn r S).
  - destruct (Hs r) as [g ->]; [|simpl; now rewrite IH].
    intros E. apply str_eqb_eq in E. congruence.
Qed.
End Spielfrei.

(** C2.  A row whose kickoff field is [SPIELFREI] in any letter case is
    mapped to [null] and removed.  So no record of the output has such a
    kickoff time, and the output has exactly one record for each of the
    other rows. *)
Theorem spielfrei_rows_yield_no_record :
  forall (H : Host) (txt : jsstring) (prefixes : list jsstring),
    let other := fun r =>
      negb (str_eqb (toUpperCase (GameRaw.time r)) SPIELFREI) in
    (forall r, toUpperCase (GameRaw.time r) = SPIELFREI ->
               fst (V1.mapRawToGame r prefixes) = None
               /\ fst (V2.mapRawToGame r prefixes) = None)
    /\ (forall games prefixes',
           V1.parseBFVText txt prefixes = Returns (games, prefixes') ->
           (forall g, In g games -> toUpperCase (GameItem.time g) <> SPIELFREI)
           /\ exists raws, V1.tokenize txt = Returns raws
                           /\ List.length games = List.length (filter other raws))
    /\ (forall games prefixes',
           V2.parseBFVText txt prefixes = Returns (games, prefixes') ->
           (forall g, In g games -> toUpperCase (GameItem.time g) <> SPIELFREI)
           /\ exists raws, V2.tokenize txt = Returns raws
                           /\ List.length games = List.length (filter other raws)).
Proof.
  intros H txt ps other. split; [|split].
  - intros r E. split; [now apply V1_map_spielfrei | now apply V2_map_spielfrei].
  - intros games ps' P. split.
    + intros g Hin. destruct (V1_record_row _ _ _ _ _ P Hin) as [raws [r [_ [_ M]]]].
      apply V1_map_some in M as [S [Et _]]. rewrite Et. intros E.
      rewrite E, str_eqb_refl in S. discriminate.
    + destruct (V1_parse_rows _ _ _ _ P) as [raws [T ->]]. exists raws.
      split; [exact T|]. apply records_count.
      * intros r. apply V1_map_spielfrei.
      * intros r. apply V1_map_other.
  - intros games ps' P. split.
    + intros g Hin. destruct (V2_record_row _ _ _ _ _ P Hin) as [raws [r [_ [_ M]]]].
      apply V2_map_some in M as [S [Et _]]. rewrite Et. intros E.
      rewrite E, str_eqb_refl in S. discriminate.
    + destruct (V2_parse_rows _ _ _ _ P) as [raws [T ->]]. exists raws.
      split; [exact T|].
      rewrite (Permutation_length (array_sort_perm _ by_dt _)).
      apply records_count.
      * intros r. apply V2_map_spielfrei.
      * intros r. apply V2_map_other.
Qed.

Lemma spielfrei_rows_yield_no_record_witness :
  toUpperCase (Host := latin1_host) (GameRaw.time sample_spielfrei_raw) = SPIELFREI
  /\ fst (V2.mapRawToGame (H := latin1_host) sample_spielfrei_raw OUR_TEAM_PREFIXES)
     = None.
Proof.
  split; [reflexivity|].
  exact (proj2 (proj1 (spielfrei_rows_yield_no_record latin1_host sample_text
                         OUR_TEAM_PREFIXES) sample_spielfrei_raw eq_refl)).
Defined.

(** ** C8 *)

(** C8.  [parseBFVText] returns a list of records for every input string
    and every state of the array of variants, in both variants: no capture
    group that the loop reads is [undefined], and the loop over the line
    indices ends.  On the empty string the list is empty. *)
Theorem parse_is_total :
  forall (H : Host) (txt : jsstring) (prefixes : list jsstring),
    (exists games prefixes',
        V1.parseBFVText txt prefixes = Returns (games, prefixes'))
    /\ (exists games prefixes',
           V2.parseBFVText txt prefixes = Returns (games, prefixes'))
    /\ V1.parseBFVText [] prefixes = Returns ([], prefixes)
    /\ V2.parseBFVText [] prefixes = Returns ([], prefixes).
Proof.
  intros H txt ps. repeat split.
  - unfold V1.parseBFVText, V1.tokenize.
    destruct (V1_rows_returns (input_lines txt) 0 [] []) as [raws ->]. simpl.
    destruct (map_st V1.mapRawToGame raws ps) as [mapped ps']. now eexists _, _.
  - unfold V2.parseBFVText.
    destruct (V2_tokenize_returns txt) as [raws [_ ->]]. simpl.
    destruct (map_st V2.mapRawToGame raws ps) as [mapped ps']. now eexists _, _.
Qed.

(** ** C4 *)

(** The comparison by code units is a total preorder. *)
Lemma code_unit_compare_total (a b : jsstring) :
  (code_unit_compare a b <= 0)%Z \/ (code_unit_compare b a <= 0)%Z.
Proof.
  revert b. induction a as [|x a IH]; intros [|y b]; simpl; try (left; lia);
    try (right; lia).
  destruct (N.ltb_spec x y), (N.ltb_spec y x); try (left; lia); try (right; lia).
  apply IH.
Qed.

Lemma code_unit_compare_trans (a b c : jsstring) :
  (code_unit_compare a b <= 0)%Z -> (code_unit_compare b c <= 0)%Z ->
  (code_unit_compare a c <= 0)%Z.
Proof.
  revert b c. induction a as [|x a IH]; intros [|y b] [|z c]; simpl; try lia.
  destruct (N.ltb_spec x y), (N.ltb_spec y x), (N.ltb_spec y z),
    (N.ltb_spec z y), (N.ltb_spec x z), (N.ltb_spec z x); try lia.
  apply IH.
Qed.

Section Chronological.
Context {H : Host}.
Hypothesis localeCompare_total :
  forall a b, (localeCompare a b <= 0)%Z \/ (localeCompare b a <= 0)%Z.
Hypothesis localeCompare_trans :
  forall a b c, (localeCompare a b <= 0)%Z -> (localeCompare b c <= 0)%Z ->
                (localeCompare a c <= 0)%Z.

(** Sorting by [dt] gives a list in which every record stands before all
    later ones, with the same records, those of equal [dt] in their
    former order. *)
Lemma sort_by_dt (l : list GameItem.t) :
  StronglySorted (before by_dt) (array_sort by_dt l)
  /\ Permutation (array_sort by_dt l) l
  /\ forall k, filter (same_key by_dt k) (array_sort by_dt l)
               = filter (same_key by_dt k) l.
Proof.
  assert (T : forall x y, before by_dt x y \/ before by_dt y x)
    by (intros x y; apply localeCompare_total).
  assert (R : forall x y z, before by_dt x y -> before by_dt y z -> before by_dt x z)
    by (intros x y z; apply localeCompare_trans).
  split; [|split].
  - now apply array_sort_sorted.
  - apply array_sort_perm.
  - intros k. now apply array_sort_stable.
Qed.
End Chronological.

(** C4, as the code has it.  [localeCompare] is taken to be a total
    preorder.  In the second variant the output of [parseBFVText] is sorted
    by [dt]: every record stands before all later ones, so [dt] does not
    decrease from one record to the next; the output has the records of the
    rows, and records of equal [dt] keep their row order.  The first variant
    returns the records in row order, and sorts, in the same stable way, the
    list [parsedGames] that its component shows and exports. *)
Theorem output_sorted_by_dt :
  forall (H : Host),
    (forall a b, (localeCompare a b <= 0)%Z \/ (localeCompare b a <= 0)%Z) ->
    (forall a b c, (localeCompare a b <= 0)%Z -> (localeCompare b c <= 0)%Z ->
                   (localeCompare a c <= 0)%Z) ->
    forall (txt : jsstring) (prefixes prefixes' : list jsstring)
           (games : list GameItem.t),
      (V2.parseBFVText txt prefixes = Returns (games, prefixes') ->
       exists raws,
         V2.tokenize txt = Returns raws
         /\ let in_row_order :=
              filter_non_null
                (map (fun r => fst (V2.mapRawToGame r prefixes)) raws) in
            StronglySorted (before by_dt) games
            /\ Sorted (before by_dt) games
            /\ Permutation games in_row_order
            /\ forall k, filter (same_key by_dt k) games
                         = filter (same_key by_dt k) in_row_order)
      /\ (V1.parseBFVText txt prefixes = Returns (games, prefixes') ->
          exists raws,
            V1.tokenize txt = Returns raws
            /\ games = filter_non_null
                         (map (fun r => fst (V1.mapRawToGame r prefixes)) raws)
            /\ forall homeOnly : bool,
                 let chosen :=
                   if homeOnly then filter GameItem.isHome games else games in
                 let shown := V1.parsedGames homeOnly games in
                 StronglySorted (before by_dt) shown
                 /\ Sorted (before by_dt) shown
                 /\ Permutation shown chosen
                 /\ forall k, filter (same_key by_dt k) shown
                              = filter (same_key by_dt k) chosen).
Proof.
  intros H T R txt ps ps' games. split; intros P.
  - destruct (V2_parse_rows _ _ _ _ P) as [raws [Tk ->]]. exists raws.
    split; [exact Tk|]. cbv zeta.
    match goal with |- context [array_sort by_dt ?l] =>
      destruct (sort_by_dt T R l) as [S1 [S2 S3]] end.
    repeat split; auto. now apply StronglySorted_Sorted.
  - destruct (V1_parse_rows _ _ _ _ P) as [raws [Tk ->]]. exists raws.
    split; [exact Tk|]. split; [reflexivity|]. intros homeOnly. cbv zeta.
    unfold V1.parsedGames.
    match goal with |- context [array_sort by_dt ?l] =>
      destruct (sort_by_dt T R l) as [S1 [S2 S3]] end.
    repeat split; auto. now apply StronglySorted_Sorted.
Qed.

Lemma output_sorted_by_dt_witness :
  V2.parseBFVText (H := latin1_host) sample_text OUR_TEAM_PREFIXES
  = Returns (sample_games, sorted_prefixes)
  /\ Sorted (before (by_dt (H := latin1_host))) sample_games.
Proof.
  assert (P : V2.parseBFVText (H := latin1_host) sample_text OUR_TEAM_PREFIXES
              = Returns (sample_games, sorted_prefixes))
    by (vm_compute; reflexivity).
  split; [exact P|].
  destruct (proj1 (output_sorted_by_dt latin1_host code_unit_compare_total
                     code_unit_compare_trans sample_text OUR_TEAM_PREFIXES
                     sorted_prefixes sample_games) P)
    as [raws [_ [_ [S _]]]].
  exact S.
Defined.

(** C4 as stated fails on the first variant: on the sample text, whose
    first row is the fixture of 22.09.2025 and whose second row is the
    fixture of 21.09.2025, [parseBFVText] returns the two records in row
    order, the later [dt] first. *)
Lemma first_variant_output_not_sorted :
  V1.parseBFVText (H := latin1_host) sample_text OUR_TEAM_PREFIXES
  = Returns (sample_games_v1, sorted_prefixes)
  /\ map GameItem.dt sample_games_v1
     = [u "2025-09-22T10:00:00"; u "2025-09-21T15:00:00"]
  /\ ~ Sorted (before (by_dt (H := latin1_host))) sample_games_v1.
Proof.
  split; [vm_compute; reflexivity|]. split; [reflexivity|].
  intros S. unfold sample_games_v1 in S.
  apply Sorted_inv in S as [_ S]. apply HdRel_inv in S.
  vm_compute in S. now apply S.
Qed.

(** ** Occurrences of a substring *)

Lemma endsWith_spec (s p : jsstring) :
  endsWith s p = true -> exists a, s = a ++ p.
Proof.
  unfold endsWith. intros E. apply startsWith_spec in E as [r E].
  exists (rev r). rewrite <- (rev_involutive s), E, rev_app_distr.
  now rewrite rev_involutive.
Qed.

Lemma indexOf_from_spec (s p : jsstring) (i j : nat) :
  indexOf_from i s p = Some j -> exists a b, s = a ++ p ++ b.
Proof.
  revert i. induction s as [|c s IH]; intros i; simpl.
  - destruct (startsWith [] p) eqn:E; [|discriminate].
    apply startsWith_spec in E as [r E]. intros _. now exists [], r.
  - destruct (startsWith (c :: s) p) eqn:E.
    + apply startsWith_spec in E as [r E]. intros _. now exists [], r.
    + intros F. destruct (IH _ F) as [a [b ->]]. now exists (c :: a), b.
Qed.

Lemma includes_spec (s p : jsstring) :
  includes s p = true -> exists a b, s = a ++ p ++ b.
Proof.
  unfold includes, indexOf. destruct (indexOf_from 0 s p) as [j|] eqn:E;
    [|discriminate].
  intros _. exact (indexOf_from_spec _ _ _ _ E).
Qed.

Lemma lastIndexOf_from_lower (s p : jsstring) (i j : nat) :
  lastIndexOf_from i s p = Some j -> i <= j.
Proof.
  revert i. induction s as [|c s IH]; intros i; simpl.
  - destruct (startsWith [] p); [|discriminate]. intros E. injection E. lia.
  - destruct (lastIndexOf_from (S i) s p) as [k|] eqn:L.
    + intros E. injection E as <-. specialize (IH _ L). lia.
    + destruct (startsWith (c :: s) p); [|discriminate]. intros E. injection E. lia.
Qed.

(** [lastIndexOf] finds an index that is not before any occurrence. *)
Lemma lastIndexOf_from_occurrence (a p b : jsstring) (i : nat) :
  exists j, lastIndexOf_from i (a ++ p ++ b) p = Some j /\ i + List.length a <= j.
Proof.
  revert i. induction a as [|c a IH]; intros i.
  - assert (St : startsWith (p ++ b) p = true)
      by (apply startsWith_spec; now exists b).
    simpl app. destruct (p ++ b) as [|c s] eqn:E; simpl.
    + rewrite St. exists i. split; [reflexivity | lia].
    + destruct (lastIndexOf_from (S i) s p) as [k|] eqn:L.
      * exists k. split; [reflexivity|]. apply lastIndexOf_from_lower in L. lia.
      * rewrite St. exists i. split; [reflexivity | lia].
  - simpl. destruct (IH (S i)) as [j [-> Hj]]. exists j. split; [reflexivity | lia].
Qed.

Lemma slice_to_head (c : N) (t : jsstring) (j : nat) :
  1 <= j ->
  exists r, slice (c :: t) 0 (Some (Z.of_nat j)) = c :: r.
Proof.
  intros Hj. unfold slice, slice_index.
  destruct (Z.of_nat j <? 0)%Z eqn:E; [apply Z.ltb_lt in E; lia|].
  change (0 <? 0)%Z with false. cbv iota.
  rewrite Nat2Z.id. change (Z.to_nat 0) with 0. simpl Nat.min at 2.
  simpl skipn.
  destruct (Nat.min j (List.length (c :: t)) - 0) as [|k] eqn:M.
  - simpl in M. lia.
  - simpl. now eexists.
Qed.


Lemma has_text_head (c : N) (s : jsstring) :
  isWhiteSpace c = false -> has_text (c :: s) = true.
Proof. intros E. unfold has_text. simpl. now rewrite E. Qed.

Lemma has_text_app_r (a b : jsstring) :
  has_text b = true -> has_text (a ++ b) = true.
Proof.
  unfold has_text. intros E. rewrite existsb_app, E. apply orb_true_r.
Qed.

Lemma trim_has_text (s : jsstring) : has_text s = true -> has_text (trim s) = true.
Proof.
  intros E. pose proof (trim_nonempty s E) as N.
  destruct (trim s) as [|c r] eqn:T; [congruence|].
  apply has_text_head. exact (trim_head _ _ _ T).
Qed.

Lemma replace_nbsp_has_text (s : jsstring) :
  has_text s = true -> has_text (replace_nbsp s) = true.
Proof.
  unfold has_text, replace_nbsp. induction s as [|c s IH]; simpl; [trivial|].
  destruct (cu_eqb c 160) eqn:E.
  - apply cu_eqb_eq in E. subst c. simpl. exact IH.
  - destruct (isWhiteSpace c); simpl; [exact IH | trivial].
Qed.

Lemma replace_ws_runs_has_text (b : bool) (s : jsstring) :
  has_text s = true -> has_text (replace_ws_runs b s) = true.
Proof.
  unfold has_text. revert b. induction s as [|c s IH]; intros b; simpl; [trivial|].
  destruct (isWhiteSpace c) eqn:W; simpl.
  - intros E. destruct b; [now apply IH|]. simpl. now apply IH.
  - intros _. now rewrite W.
Qed.

Lemma normalizeSpaces_has_text (s : jsstring) :
  has_text s = true -> normalizeSpaces s <> [].
Proof.
  intros E. apply trim_nonempty, replace_ws_runs_has_text, replace_nbsp_has_text.
  exact E.
Qed.

(** ** The home team is not empty *)

Lemma trim_cons_nonws (c : N) (s : jsstring) :
  isWhiteSpace c = false -> trim (c :: s) <> [].
Proof. intros E. apply trim_nonempty. now apply has_text_head. Qed.

(** On a pairing that is not blank, each of the three exits of
    [detectHomeAndSplit] returns a home team that is not empty. *)
Lemma detect_home_nonempty (pairing : jsstring) (prefixes : list jsstring) :
  normalizeSpaces pairing <> [] ->
  Split.homeTeam (fst (detectHomeAndSplit pairing prefixes)) <> [].
Proof.
  intros Hne.
  destruct (normalizeSpaces pairing) as [|c0 t] eqn:T; [congruence|].
  pose proof (normalizeSpaces_head _ _ _ T) as Hc0.
  unfold detectHomeAndSplit. simpl. rewrite T.
  destruct (find (left_match (c0 :: t)) _) as [p|] eqn:F; simpl.
  - apply find_some in F as [_ Hp]. apply left_match_spec in Hp.
    intros ->. destruct Hp as [[r E] | E]; [|discriminate].
    simpl in E. injection E as -> _. discriminate.
  - destruct (find (right_match (c0 :: t)) _) as [rp|] eqn:G; simpl;
      [|discriminate].
    destruct (truthy rp) eqn:Tr; simpl; [|discriminate].
    apply find_some in G as [Hin Hr].
    pose proof (find_none _ _ F rp Hin) as Hl.
    unfold left_match in Hl. apply orb_false_iff in Hl as [_ Hneq].
    unfold right_match in Hr. rewrite Hneq, orb_false_r in Hr.
    assert (Occ : exists a b, c0 :: t = a ++ (u " " ++ rp) ++ b).
    { apply orb_true_iff in Hr as [Hr | Hr].
      - apply endsWith_spec in Hr as [a E]. exists a, [].
        now rewrite app_nil_r.
      - now apply includes_spec. }
    destruct Occ as [a [b E]].
    destruct a as [|x a]; [simpl in E; injection E as -> _; discriminate|].
    assert (E' : c0 :: t = ((x :: a) ++ u " ") ++ rp ++ b)
      by (rewrite E, <- !app_assoc; reflexivity).
    destruct (lastIndexOf_from_occurrence ((x :: a) ++ u " ") rp b 0)
      as [j [Lj Hj]].
    unfold lastIndexOf. rewrite E', Lj, <- E'.
    destruct (slice_to_head c0 t j) as [r ->].
    + rewrite length_app in Hj. simpl in Hj. lia.
    + now apply trim_cons_nonws.
Qed.

(** The pairing of a row that was read from a trimmed, non-empty line
    matching the full pattern is not blank. *)
Lemma tokenized_pairing (txt : jsstring) (r : GameRaw.t) :
  tokenized (input_lines txt) r -> has_text (GameRaw.pairing r) = true.
Proof.
  intros [line [rest [label [pairing [N [RS [FP [_ Ep]]]]]]]].
  apply nth_error_In in N. unfold input_lines in N.
  apply filter_In in N as [N Hlen]. apply in_map_iff in N as [l0 [El _]].
  destruct RS as [ws [Eline _]].
  destruct FP as [w1 [w2 [w3 [Erest [_ [_ [W3 _]]]]]]].
  rewrite Ep. apply trim_has_text.
  destruct (exists_last (l := pairing)) as [t [c Et]].
  - intros ->. rewrite Erest in Eline.
    assert (L : line = (GameRaw.spieltyp r ++ ws ++ label ++ [w1]
                          ++ GameRaw.date r ++ [w2] ++ GameRaw.time r) ++ [w3]).
    { rewrite Eline, app_nil_r, <- !app_assoc. reflexivity. }
    rewrite <- El in L. apply trim_last in L. congruence.
  - assert (L : line = (GameRaw.spieltyp r ++ ws ++ label ++ [w1]
                          ++ GameRaw.date r ++ [w2] ++ GameRaw.time r ++ [w3]
                          ++ t) ++ [c]).
    { rewrite Eline, Erest, Et, <- !app_assoc. reflexivity. }
    rewrite <- El in L. apply trim_last in L.
    rewrite Et. apply has_text_app_r. now apply has_text_head.
Qed.

(** ** C1 and C7 on the second variant *)

(** The second variant drops the rows that C1 speaks of: each of its rows
    was read from a row-start line whose remainder matches the full
    pattern, so its date field is well formed. *)
Theorem second_variant_drops_malformed_rows :
  forall (txt : jsstring) (raws : list GameRaw.t) (r : GameRaw.t),
    V2.tokenize txt = Returns raws -> In r raws ->
    tokenized (input_lines txt) r
    /\ well_formed_date (GameRaw.date r) = true.
Proof.
  intros txt raws r T Hin.
  destruct (V2_tokenize_returns txt) as [out [R T']].
  rewrite T in T'. injection T' as ->.
  pose proof (V2_rows_tokenized _ _ _ _ _ _ R (Forall_nil _)) as F.
  rewrite Forall_forall in F. specialize (F r Hin). split; [exact F|].
  destruct F as [line [rest [label [pairing [_ [_ [FP _]]]]]]].
  destruct FP as [w1 [w2 [w3 [_ [_ [_ [_ [_ [D _]]]]]]]]]. exact D.
Qed.

(** In the output of the second variant every record has a home team that
    is not empty. *)
Theorem second_variant_home_team_nonempty :
  forall (H : Host) (txt : jsstring) (prefixes prefixes' : list jsstring)
         (games : list GameItem.t) (g : GameItem.t),
    V2.parseBFVText txt prefixes = Returns (games, prefixes') ->
    In g games ->
    GameItem.homeTeam g <> [].
Proof.
  intros H txt ps ps' games g P Hin.
  destruct (V2_record_row _ _ _ _ _ P Hin) as [raws [r [T [Hr M]]]].
  apply V2_map_some in M as [_ [_ [_ [Eh _]]]]. rewrite Eh.
  apply detect_home_nonempty, normalizeSpaces_has_text.
  apply (tokenized_pairing txt).
  exact (proj1 (second_variant_drops_malformed_rows txt raws r T Hr)).
Qed.

(** ** The rows of the first variant *)

(** Each row of the first variant comes from a row-start line: one that
    matches the full pattern, or one that does not and then gives a row
    with empty fields. *)
Lemma V1_rows_shape (lines ls : list jsstring) (i : nat)
    (currentSection : jsstring) (raws out : list GameRaw.t) :
  (forall k, nth_error ls k = nth_error lines (i + k)) ->
  V1.rows ls i currentSection raws = Returns out ->
  Forall (fun r => tokenized lines r \/ unmatched lines r) raws ->
  Forall (fun r => tokenized lines r \/ unmatched lines r) out.
Proof.
  revert i currentSection raws.
  induction ls as [|line ls IH]; intros i sec raws Hidx; simpl; [congruence|].
  assert (Hline : nth_error lines i = Some line).
  { specialize (Hidx 0). simpl in Hidx. rewrite Hidx. f_equal. lia. }
  assert (Hnext : forall k, nth_error ls k = nth_error lines (S i + k)).
  { intros k. specialize (Hidx (S k)). simpl in Hidx. rewrite Hidx.
    f_equal. lia. }
  destruct (V1.isHeaderSection line); [now apply IH|].
  destruct (negb (isRowStart line)); [now apply IH|].
  destruct (re_match re_type_rest line) as [m|] eqn:M; [|now apply IH].
  destruct (type_rest_match _ _ M) as [code [rest [RS [G1 G2]]]].
  rewrite G1, G2. simpl.
  destruct (re_match re_date_time rest) as [dt|] eqn:D.
  - destruct (date_time_match _ _ D) as [g1 [g2 [g3 [g4 [FP [E1 [E2 [E3 E4]]]]]]]].
    rewrite E1, E2, E3, E4. simpl. intros E F. apply (IH _ _ _ Hnext E).
    apply Forall_app. split; [exact F|]. constructor; [|constructor].
    left. exists line, rest, g1, g4. simpl. auto.
  - simpl. intros E F. apply (IH _ _ _ Hnext E).
    apply Forall_app. split; [exact F|]. constructor; [|constructor].
    right. exists line, rest. simpl. auto 10.
Qed.

Lemma V1_tokenize_shape (txt : jsstring) (raws : list GameRaw.t) (r : GameRaw.t) :
  V1.tokenize txt = Returns raws -> In r raws ->
  tokenized (input_lines txt) r \/ unmatched (input_lines txt) r.
Proof.
  intros T Hin.
  assert (F : Forall (fun r => tokenized (input_lines txt) r
                               \/ unmatched (input_lines txt) r) raws).
  { apply (V1_rows_shape (input_lines txt) (input_lines txt) 0 [] [] raws);
      [reflexivity | exact T | constructor]. }
  rewrite Forall_forall in F. now apply F.
Qed.

(** On the empty pairing every exit of [detectHomeAndSplit] returns the
    empty home team. *)
Lemma detect_empty (prefixes : list jsstring) :
  Split.homeTeam (fst (detectHomeAndSplit [] prefixes)) = [].
Proof.
  unfold detectHomeAndSplit. simpl.
  change (normalizeSpaces []) with (@nil N).
  destruct (find (left_match []) _) as [p|] eqn:F; simpl.
  - apply find_some in F as [_ Hp]. apply left_match_spec in Hp.
    destruct Hp as [[r E] | E]; [|now symmetry].
    symmetry in E. apply app_eq_nil in E as [_ E]. discriminate.
  - destruct (find (right_match []) _) as [rp|] eqn:G; simpl; [|reflexivity].
    destruct (truthy rp) eqn:Tr; simpl; [|reflexivity].
    exfalso. apply find_some in G as [_ Hr]. unfold right_match in Hr.
    destruct rp as [|c rp]; [discriminate|].
    apply orb_true_iff in Hr as [Hr | Hr];
      [apply orb_true_iff in Hr as [Hr | Hr]|].
    + apply endsWith_spec in Hr as [a E]. symmetry in E.
      apply app_eq_nil in E as [_ E]. discriminate.
    + apply str_eqb_eq in Hr. discriminate.
    + apply includes_spec in Hr as [a [b E]]. symmetry in E.
      apply app_eq_nil in E as [_ E]. discriminate.
Qed.

(** The defect of the first variant, exactly: a record of its output has an
    empty home team if and only if its row was pushed for a row-start line
    whose remainder does not match the full pattern. *)
Theorem first_variant_empty_home_team_iff_unmatched :
  forall (H : Host) (txt : jsstring) (prefixes prefixes' : list jsstring)
         (games : list GameItem.t) (g : GameItem.t),
    V1.parseBFVText txt prefixes = Returns (games, prefixes') ->
    In g games ->
    exists raws r,
      V1.tokenize txt = Returns raws /\ In r raws
      /\ fst (V1.mapRawToGame r prefixes) = Some g
      /\ (GameItem.homeTeam g = [] <-> unmatched (input_lines txt) r).
Proof.
  intros H txt ps ps' games g P Hin.
  destruct (V1_record_row _ _ _ _ _ P Hin) as [raws [r [T [Hr M]]]].
  exists raws, r. repeat split; auto.
  - intros E. destruct (V1_tokenize_shape _ _ _ T Hr) as [Tk | U]; [|exact U].
    exfalso. apply V1_map_some in M as [_ [_ [_ [Eh _]]]].
    rewrite Eh in E. revert E.
    apply detect_home_nonempty, normalizeSpaces_has_text.
    now apply (tokenized_pairing txt).
  - intros [line [rest [_ [_ [_ [_ [_ [_ Ep]]]]]]]].
    apply V1_map_some in M as [_ [_ [_ [Eh _]]]].
    rewrite Eh, Ep. apply detect_empty.
Qed.

(** ** C1 and C7 on the first variant *)

(** C1 fails on the first variant.  The line
    [ME Gruppe 23.09.2025 (SG) TSV Lonnerstadt SPIELFREI] is a row start,
    and its remainder does not match the full pattern.  The loop of lines
    135-155 still pushes a row for it, with empty class, date, time and
    pairing, and [parseBFVText] returns a record for that row; its date
    field was made from the empty date.  The second variant returns no
    record on the same input. *)
Theorem first_variant_keeps_malformed_row :
  isRowStart sample_malformed_row = true
  /\ (exists m, re_match re_type_rest sample_malformed_row = Some m
                /\ group m 2 = Some sample_malformed_rest)
  /\ re_match re_date_time sample_malformed_rest = None
  /\ V1.tokenize sample_malformed_row = Returns [malformed_raw]
  /\ well_formed_date (GameRaw.date malformed_raw) = false
  /\ (exists g,
        games_of (V1.parseBFVText (H := latin1_host) sample_malformed_row
                    OUR_TEAM_PREFIXES) = [g]
        /\ fst (V1.mapRawToGame (H := latin1_host) malformed_raw OUR_TEAM_PREFIXES)
           = Some g
        /\ GameItem.date g = toISODate (H := latin1_host) [])
  /\ games_of (V2.parseBFVText (H := latin1_host) sample_malformed_row
                 OUR_TEAM_PREFIXES) = [].
Proof.
  split; [reflexivity|]. split.
  { destruct (re_match re_type_rest sample_malformed_row) as [m|] eqn:M.
    - exists m. split; [reflexivity|]. vm_compute in M. injection M as <-.
      reflexivity.
    - vm_compute in M. discriminate. }
  split; [reflexivity|]. split; [reflexivity|]. split; [reflexivity|].
  split; [|reflexivity].
  destruct (fst (V1.mapRawToGame (H := latin1_host) malformed_raw OUR_TEAM_PREFIXES))
    as [g|] eqn:M.
  - exists g. vm_compute in M. injection M as <-. repeat split.
  - vm_compute in M. discriminate.
Qed.

(** C7 fails on the first variant, by the defect that C1 names: the record
    that [parseBFVText] returns for the malformed row
    [ME Gruppe 23.09.2025 (SG) TSV Lonnerstadt SPIELFREI] has an empty home
    team (and an empty away team). *)
Theorem first_variant_emits_empty_home_team :
  map GameItem.homeTeam
      (games_of (V1.parseBFVText (H := latin1_host) sample_malformed_row
                   OUR_TEAM_PREFIXES)) = [[]]
  /\ map GameItem.awayTeam
         (games_of (V1.parseBFVText (H := latin1_host) sample_malformed_row
                      OUR_TEAM_PREFIXES)) = [[]]
  /\ map GameItem.homeTeam
         (games_of (V2.parseBFVText (H := latin1_host) sample_malformed_row
                      OUR_TEAM_PREFIXES)) = [].
Proof. repeat split. Qed.

(** * Further properties of the code *)

(** ** [normalizeSpaces] as a normal form *)

Lemma trim_fixed (s : jsstring) :
  (forall c r, s = c :: r -> isWhiteSpace c = false) ->
  (forall c r, s = r ++ [c] -> isWhiteSpace c = false) ->
  trim s = s.
Proof.
  intros Hh Hl. unfold trim, trimStart.
  destruct s as [|c r]; [reflexivity|].
  rewrite dropWhile_id by (eapply Hh; reflexivity).
  destruct (exists_last (l := c :: r)) as [t [x E]]; [discriminate|].
  rewrite E. apply trimEnd_snoc. eapply Hl. exact E.
Qed.

Lemma single_spaced_space (b : bool) (s : jsstring) (c : N) :
  single_spaced b s = true -> In c s -> isWhiteSpace c = true -> c = 32%N.
Proof.
  revert b. induction s as [|x s IH]; intros b S Hin W; [destruct Hin|].
  destruct Hin as [E | Hin].
  - subst x. simpl in S. rewrite W in S.
    apply andb_true_iff in S as [S _]. apply andb_true_iff in S as [S _].
    now apply cu_eqb_eq in S.
  - simpl in S. destruct (isWhiteSpace x).
    + apply andb_true_iff in S as [_ S]. exact (IH _ S Hin W).
    + exact (IH _ S Hin W).
Qed.

Lemma replace_nbsp_fixed (b : bool) (s : jsstring) :
  single_spaced b s = true -> replace_nbsp s = s.
Proof.
  intros S. unfold replace_nbsp. rewrite <- (map_id s) at 2.
  apply map_ext_in. intros c Hin.
  destruct (cu_eqb c 160) eqn:E; [|reflexivity].
  apply cu_eqb_eq in E. subst c.
  pose proof (single_spaced_space _ _ _ S Hin eq_refl). discriminate.
Qed.

Lemma replace_ws_runs_fixed (b : bool) (s : jsstring) :
  single_spaced b s = true -> replace_ws_runs b s = s.
Proof.
  revert b. induction s as [|c s IH]; intros b; simpl; [reflexivity|].
  destruct (isWhiteSpace c).
  - intros S. apply andb_true_iff in S as [S1 S2].
    apply andb_true_iff in S1 as [Ec Eb]. apply cu_eqb_eq in Ec. subst c.
    destruct b; [discriminate|]. now rewrite (IH _ S2).
  - intros S. now rewrite (IH _ S).
Qed.

(** X1.  The result of [normalizeSpaces] is in normal form: every
    white-space character of it is an ordinary space that stands strictly
    inside the text and is followed by a character that is not white
    space. *)
Theorem normalizeSpaces_normal_form :
  forall (s a b : jsstring) (c : N),
    normalizeSpaces s = a ++ c :: b ->
    isWhiteSpace c = true ->
    c = 32%N /\ a <> [] /\ exists d b', b = d :: b' /\ isWhiteSpace d = false.
Proof.
  intros s a b c E W.
  pose proof (normalizeSpaces_single_spaced s) as S. rewrite E in S.
  split; [|split].
  - apply (single_spaced_space _ _ c S); [|exact W].
    apply in_or_app. right. now left.
  - intros ->. simpl in E. apply normalizeSpaces_head in E. congruence.
  - destruct b as [|d b'].
    + apply normalizeSpaces_last in E. congruence.
    + exists d, b'. split; [reflexivity|].
      assert (c = 32%N).
      { apply (single_spaced_space _ _ c S); [|exact W].
        apply in_or_app. right. now left. }
      subst c. exact (single_spaced_after_space _ _ _ S).
Qed.

Lemma normalizeSpaces_normal_form_witness :
  normalizeSpaces (u "  SC  Adelsdorf ") = u "SC" ++ 32%N :: u "Adelsdorf"
  /\ isWhiteSpace 32 = true
  /\ u "SC" <> [].
Proof.
  split; [reflexivity | split; [reflexivity|]].
  exact (proj1 (proj2 (normalizeSpaces_normal_form (u "  SC  Adelsdorf ")
                         (u "SC") (u "Adelsdorf") 32%N eq_refl eq_refl))).
Defined.

(** X2.  [normalizeSpaces] is idempotent: a normalized text is left as it
    is. *)
Theorem normalizeSpaces_idempotent :
  forall s : jsstring, normalizeSpaces (normalizeSpaces s) = normalizeSpaces s.
Proof.
  intros s. pose proof (normalizeSpaces_single_spaced s) as S.
  unfold normalizeSpaces at 1.
  rewrite (replace_nbsp_fixed _ _ S), (replace_ws_runs_fixed _ _ S).
  apply trim_fixed.
  - intros c r E. exact (normalizeSpaces_head _ _ _ E).
  - intros c r E. exact (normalizeSpaces_last _ _ _ E).
Qed.

(** The characters of a text that are not white space. *)
Lemma visible_dropWhile (s : jsstring) :
  filter (fun c => negb (isWhiteSpace c)) (dropWhile isWhiteSpace s)
  = filter (fun c => negb (isWhiteSpace c)) s.
Proof.
  induction s as [|c s IH]; [reflexivity|]. simpl.
  destruct (isWhiteSpace c) eqn:W; simpl; [exact IH | now rewrite W].
Qed.

Lemma filter_rev_list (A : Type) (f : A -> bool) (l : list A) :
  filter f (rev l) = rev (filter f l).
Proof.
  induction l as [|x l IH]; [reflexivity|]. simpl.
  rewrite filter_app, IH. simpl. destruct (f x); simpl.
  - reflexivity.
  - now rewrite app_nil_r.
Qed.

Lemma visible_trim (s : jsstring) :
  filter (fun c => negb (isWhiteSpace c)) (trim s)
  = filter (fun c => negb (isWhiteSpace c)) s.
Proof.
  unfold trim, trimEnd, trimStart.
  rewrite filter_rev_list, visible_dropWhile, filter_rev_list, rev_involutive.
  apply visible_dropWhile.
Qed.

(** X3.  [normalizeSpaces] only touches white space: the characters that
    are not white space come out unchanged and in their order. *)
Theorem normalizeSpaces_keeps_visible_characters :
  forall s : jsstring,
    filter (fun c => negb (isWhiteSpace c)) (normalizeSpaces s)
    = filter (fun c => negb (isWhiteSpace c)) s.
Proof.
  intros s. unfold normalizeSpaces. rewrite visible_trim.
  transitivity (filter (fun c => negb (isWhiteSpace c)) (replace_nbsp s)).
  - generalize (replace_nbsp s) as t. intros t.
    generalize false as b. induction t as [|c t IH]; intros b; [reflexivity|].
    simpl. destruct (isWhiteSpace c) eqn:W.
    + destruct b; simpl; [apply IH|].
      change (isWhiteSpace 32) with true. simpl. apply IH.
    + simpl. rewrite W. simpl. f_equal. apply IH.
  - unfold replace_nbsp. induction s as [|c s IH]; [reflexivity|]. simpl.
    destruct (cu_eqb c 160) eqn:E.
    + apply cu_eqb_eq in E. subst c.
      change (isWhiteSpace 32) with true. change (isWhiteSpace 160) with true.
      simpl. exact IH.
    + destruct (isWhiteSpace c); simpl; [exact IH | now rewrite IH].
Qed.

(** ** The away split and the fallback of [detectHomeAndSplit] *)

Lemma lastIndexOf_from_found (s p : jsstring) (i j : nat) :
  lastIndexOf_from i s p = Some j ->
  exists a b, s = a ++ p ++ b /\ j = i + List.length a.
Proof.
  revert i. induction s as [|c s IH]; intros i; simpl.
  - destruct (startsWith [] p) eqn:E; [|discriminate].
    apply startsWith_spec in E as [r E]. intros F. injection F as <-.
    exists [], r. split; [exact E | simpl; lia].
  - destruct (lastIndexOf_from (S i) s p) as [k|] eqn:L.
    + intros F. injection F as <-. destruct (IH _ L) as [a [b [-> ->]]].
      exists (c :: a), b. split; [reflexivity | simpl; lia].
    + destruct (startsWith (c :: s) p) eqn:E; [|discriminate].
      apply startsWith_spec in E as [r E]. intros F. injection F as <-.
      exists [], r. split; [exact E | simpl; lia].
Qed.

Lemma trimEnd_app_space (t : jsstring) : trimEnd (t ++ [32%N]) = trimEnd t.
Proof. unfold trimEnd. rewrite rev_app_distr. reflexivity. Qed.

Lemma single_spaced_after_space_rev (t : jsstring) (d : N) :
  single_spaced false (t ++ [d; 32%N]) = true -> isWhiteSpace d = false.
Proof.
  intros S. apply single_spaced_suffix in S. simpl in S.
  destruct (isWhiteSpace d); [|reflexivity].
  change (isWhiteSpace 32) with true in S. simpl in S.
  rewrite !andb_false_r in S. discriminate.
Qed.

(** A single-spaced text ends in at most one space. *)
Lemma trimEnd_single_spaced (a : jsstring) :
  single_spaced false a = true ->
  a = trimEnd a \/ a = trimEnd a ++ u " ".
Proof.
  intros S. destruct a as [|x a0]; [now left|].
  destruct (exists_last (l := x :: a0)) as [t [c E]]; [discriminate|].
  rewrite E in *. clear E x a0.
  destruct (isWhiteSpace c) eqn:W.
  - assert (c = 32%N).
    { apply (single_spaced_space _ _ c S); [|exact W].
      apply in_or_app. right. now left. }
    subst c. right. rewrite trimEnd_app_space. f_equal.
    destruct t as [|y t0]; [reflexivity|].
    destruct (exists_last (l := y :: t0)) as [t' [d E]]; [discriminate|].
    rewrite E in *. symmetry. apply trimEnd_snoc.
    rewrite <- app_assoc in S. simpl in S.
    exact (single_spaced_after_space_rev _ _ S).
  - left. symmetry. now apply trimEnd_snoc.
Qed.

(** The three exits of [detectHomeAndSplit]. *)
Lemma detect_cases (pairing : jsstring) (prefixes : list jsstring) :
  let text := normalizeSpaces pairing in
  let sorted := array_sort by_length_desc prefixes in
  let split := fst (detectHomeAndSplit pairing prefixes) in
  (exists p, find (left_match text) sorted = Some p
             /\ split = {| Split.homeTeam := p;
                           Split.awayTeam := trim (slice text (str_length p) None);
                           Split.isHome := true |})
  \/ (find (left_match text) sorted = None
      /\ exists rp, find (right_match text) sorted = Some rp
                    /\ rp <> []
                    /\ split = {| Split.homeTeam :=
                                    trim (slice text 0 (Some (lastIndexOf text rp)));
                                  Split.awayTeam := rp;
                                  Split.isHome := false |})
  \/ (find (left_match text) sorted = None
      /\ (forall rp, find (right_match text) sorted = Some rp -> rp = [])
      /\ split = {| Split.homeTeam := text; Split.awayTeam := [];
                    Split.isHome := false |}).
Proof.
  intros text sorted split. unfold split, detectHomeAndSplit. simpl.
  fold text. fold sorted.
  destruct (find (left_match text) sorted) as [p|] eqn:F.
  - left. now exists p.
  - right. destruct (find (right_match text) sorted) as [rp|] eqn:G.
    + destruct rp as [|c rp]; simpl.
      * right. repeat split. intros rp E. congruence.
      * left. split; [reflexivity|]. exists (c :: rp).
        repeat split. discriminate.
    + right. repeat split. intros rp E. discriminate.
Qed.

Lemma slice_to (a b : jsstring) :
  slice (a ++ b) 0 (Some (str_length a)) = a.
Proof.
  unfold slice, slice_index, str_length.
  destruct (Z.of_nat (List.length a) <? 0)%Z eqn:E; [apply Z.ltb_lt in E; lia|].
  change (0 <? 0)%Z with false. cbv iota.
  rewrite Nat2Z.id, length_app. change (Z.to_nat 0) with 0.
  replace (Nat.min (List.length a) (List.length a + List.length b)
           - Nat.min 0 (List.length a + List.length b))
    with (List.length a) by lia.
  replace (Nat.min 0 (List.length a + List.length b)) with 0 by lia.
  change (skipn 0 (a ++ b)) with (a ++ b).
  rewrite firstn_app, firstn_all, Nat.sub_diag. simpl. apply app_nil_r.
Qed.

(** X4.  The away split.  When [detectHomeAndSplit] reports no home fixture
    and a non-empty away team, the away team is a configured variant, the
    home team is not empty, and the normalized pairing is the home team, at
    most one space, the away team and a tail; the tail is dropped. *)
Theorem away_split_decomposition :
  forall (pairing : jsstring) (prefixes : list jsstring),
    let text := normalizeSpaces pairing in
    let split := fst (detectHomeAndSplit pairing prefixes) in
    Split.isHome split = false ->
    Split.awayTeam split <> [] ->
    In (Split.awayTeam split) prefixes
    /\ Split.homeTeam split <> []
    /\ exists sep tail,
         (sep = [] \/ sep = u " ")
         /\ text = Split.homeTeam split ++ sep ++ Split.awayTeam split ++ tail.
Proof.
  intros pairing ps text split Haway Hne.
  destruct (detect_cases pairing ps) as [[p [_ E]] | [[F [rp [G [Hrp E]]]] | [_ [_ E]]]];
    fold text in E; fold split in E;
    [rewrite E in Haway; discriminate | | rewrite E in Hne; now elim Hne].
  fold text in F, G.
  pose proof (find_some _ _ G) as [Hin Hr].
  pose proof (find_none _ _ F rp Hin) as Hl.
  unfold left_match in Hl. apply orb_false_iff in Hl as [_ Hneq].
  unfold right_match in Hr. rewrite Hneq, orb_false_r in Hr.
  assert (Occ : exists a0 b0, text = a0 ++ (u " " ++ rp) ++ b0).
  { apply orb_true_iff in Hr as [Hr | Hr].
    - apply endsWith_spec in Hr as [a0 E0]. exists a0, [].
      now rewrite app_nil_r.
    - now apply includes_spec. }
  destruct Occ as [a0 [b0 E0]].
  assert (Htext : text <> []).
  { rewrite E0. intros N. apply app_eq_nil in N as [_ N]. discriminate. }
  assert (E0' : text = (a0 ++ u " ") ++ rp ++ b0)
    by (rewrite E0, <- !app_assoc; reflexivity).
  destruct (lastIndexOf_from_occurrence (a0 ++ u " ") rp b0 0) as [j [Lj Hj]].
  rewrite <- E0' in Lj.
  destruct (lastIndexOf_from_found _ _ _ _ Lj) as [a [b [Ea Ej]]].
  simpl in Ej. subst j.
  assert (Hsplit : split = {| Split.homeTeam := trim a; Split.awayTeam := rp;
                              Split.isHome := false |}).
  { rewrite E. f_equal. unfold lastIndexOf. rewrite Lj.
    rewrite Ea at 1. now rewrite slice_to. }
  rewrite Hsplit. simpl.
  assert (Hhome : trim a <> []).
  { pose proof (detect_home_nonempty pairing ps Htext) as Hh.
    fold split in Hh. now rewrite Hsplit in Hh. }
  split; [exact (proj1 (sorted_prefixes_In _ _) Hin)|]. split; [exact Hhome|].
  pose proof (normalizeSpaces_single_spaced pairing) as S. fold text in S.
  rewrite Ea in S. apply single_spaced_prefix in S.
  assert (Ta : trim a = trimEnd a).
  { unfold trim, trimStart. destruct a as [|x a1]; [reflexivity|].
    rewrite dropWhile_id; [reflexivity|].
    apply (normalizeSpaces_head pairing (a1 ++ rp ++ b) x). exact Ea. }
  rewrite Ta.
  destruct (trimEnd_single_spaced a S) as [Et | Et].
  - exists [], b. split; [now left|]. simpl. now rewrite <- Et.
  - exists (u " "), b. split; [now right|].
    rewrite app_assoc, <- Et. exact Ea.
Qed.

Lemma away_split_decomposition_witness :
  Split.isHome (fst (detectHomeAndSplit (u "SC Adelsdorf TSV Lonnerstadt (a.K.)")
                       OUR_TEAM_PREFIXES)) = false
  /\ Split.awayTeam (fst (detectHomeAndSplit (u "SC Adelsdorf TSV Lonnerstadt (a.K.)")
                            OUR_TEAM_PREFIXES)) = u "TSV Lonnerstadt"
  /\ Split.homeTeam (fst (detectHomeAndSplit (u "SC Adelsdorf TSV Lonnerstadt (a.K.)")
                            OUR_TEAM_PREFIXES)) <> [].
Proof.
  split; [reflexivity | split; [reflexivity|]].
  apply (away_split_decomposition (u "SC Adelsdorf TSV Lonnerstadt (a.K.)")
           OUR_TEAM_PREFIXES eq_refl).
  vm_compute. discriminate.
Defined.

(** X5.  The fallback.  When no configured variant is a left-anchored prefix
    of the normalized pairing and none occurs in it behind a space, the
    whole normalized pairing becomes the home team, the away team is empty
    and the fixture is no home fixture. *)
Theorem unsplittable_pairing_falls_back :
  forall (pairing : jsstring) (prefixes : list jsstring),
    let text := normalizeSpaces pairing in
    (forall v, In v prefixes ->
               ~ left_anchored text v
               /\ ~ exists a b, text = a ++ u " " ++ v ++ b) ->
    fst (detectHomeAndSplit pairing prefixes)
    = {| Split.homeTeam := text; Split.awayTeam := []; Split.isHome := false |}.
Proof.
  intros pairing ps text Hno. subst text.
  destruct (detect_cases pairing ps) as [[p [F _]] | [[F [rp [G _]]] | [_ [_ E]]]];
    [| |exact E]; exfalso.
  - apply find_some in F as [Hin Hp].
    apply (proj1 (sorted_prefixes_In _ _)) in Hin. apply left_match_spec in Hp.
    now apply (proj1 (Hno p Hin)).
  - pose proof (find_some _ _ G) as [Hin Hr].
    pose proof (find_none _ _ F rp Hin) as Hl.
    unfold left_match in Hl. apply orb_false_iff in Hl as [_ Hneq].
    unfold right_match in Hr. rewrite Hneq, orb_false_r in Hr.
    apply (proj1 (sorted_prefixes_In _ _)) in Hin. apply (proj2 (Hno rp Hin)).
    apply orb_true_iff in Hr as [Hr | Hr].
    + apply endsWith_spec in Hr as [a0 E0]. exists a0, [].
      rewrite E0, app_nil_r. reflexivity.
    + apply includes_spec in Hr as [a0 [b0 E0]]. exists a0, b0.
      rewrite E0, <- app_assoc. reflexivity.
Qed.

Lemma unsplittable_pairing_falls_back_witness :
  (forall v, In v [u "TSV Lonnerstadt"] ->
             ~ left_anchored (normalizeSpaces (u "ab")) v
             /\ ~ exists a b, normalizeSpaces (u "ab") = a ++ u " " ++ v ++ b)
  /\ fst (detectHomeAndSplit (u "ab") [u "TSV Lonnerstadt"])
     = {| Split.homeTeam := u "ab"; Split.awayTeam := []; Split.isHome := false |}.
Proof.
  assert (Hno : forall v, In v [u "TSV Lonnerstadt"] ->
             ~ left_anchored (normalizeSpaces (u "ab")) v
             /\ ~ exists a b, normalizeSpaces (u "ab") = a ++ u " " ++ v ++ b).
  { intros v [<- | []]. split.
    - intros [[r E] | E]; vm_compute in E; discriminate.
    - intros [a [b E]]. apply (f_equal (@List.length N)) in E.
      rewrite !length_app in E.
      change (List.length (normalizeSpaces (u "ab"))) with 2 in E.
      change (List.length (u " ")) with 1 in E.
      change (List.length (u "TSV Lonnerstadt")) with 15 in E. lia. }
  split; [exact Hno|].
  exact (unsplittable_pairing_falls_back (u "ab") [u "TSV Lonnerstadt"] Hno).
Defined.

(** ** The array of variants under [detectHomeAndSplit] *)

Lemma StronglySorted_weaken (A : Type) (R1 R2 : A -> A -> Prop) (l : list A) :
  (forall x y, R1 x y -> R2 x y) -> StronglySorted R1 l -> StronglySorted R2 l.
Proof.
  intros HR. induction 1 as [|x l Hl IH Hx]; constructor; [exact IH|].
  eapply Forall_impl; [|exact Hx]. intros y. apply HR.
Qed.

(** X6.  [detectHomeAndSplit] sorts the module-level array in place: after
    a call the array holds the same variants, longest first, those of equal
    length in their declared order.  A further call leaves the array as it
    is and returns what it would have returned on the declared array. *)
Theorem detect_sorts_array_in_place :
  forall (pairing other : jsstring) (prefixes : list jsstring),
    let prefixes' := snd (detectHomeAndSplit pairing prefixes) in
    StronglySorted (fun a b : jsstring => List.length b <= List.length a) prefixes'
    /\ Permutation prefixes' prefixes
    /\ (forall k : jsstring, filter (fun v : jsstring => Nat.eqb (List.length v) (List.length k)) prefixes'
                  = filter (fun v : jsstring => Nat.eqb (List.length v) (List.length k)) prefixes)
    /\ snd (detectHomeAndSplit other prefixes') = prefixes'
    /\ fst (detectHomeAndSplit other prefixes')
       = fst (detectHomeAndSplit other prefixes).
Proof.
  intros pairing other ps ps'.
  change ps' with (array_sort by_length_desc ps).
  repeat split.
  - apply (StronglySorted_weaken _ (before by_length_desc)).
    + intros x y. apply by_length_desc_before.
    + apply sorted_prefixes_sorted.
  - apply array_sort_perm.
  - intros k.
    assert (K : forall v, same_key by_length_desc k v
                          = Nat.eqb (List.length v) (List.length k)).
    { intros v. unfold same_key, by_length_desc, str_length.
      destruct (Nat.eqb_spec (List.length v) (List.length k)) as [E | E].
      - rewrite E, Z.sub_diag. reflexivity.
      - destruct (Z.leb_spec (Z.of_nat (List.length v) - Z.of_nat (List.length k)) 0);
          destruct (Z.leb_spec (Z.of_nat (List.length k) - Z.of_nat (List.length v)) 0);
          try reflexivity; lia. }
    rewrite <- !(filter_ext _ _ K).
    apply array_sort_stable.
    + intros x y z. rewrite !by_length_desc_before. lia.
  - apply sorted_prefixes_idem.
  - apply detect_fst_sorted.
Qed.

(** ** Parsing again *)

Lemma map_st_snd (A B S : Type) (f : A -> S -> B * S) (norm : S -> S) :
  (forall s, norm (norm s) = norm s) ->
  (forall x s, snd (f x s) = s \/ snd (f x s) = norm s) ->
  forall l s, snd (map_st f l s) = s \/ snd (map_st f l s) = norm s.
Proof.
  intros Hidem Hsnd. induction l as [|x l IH]; intros s; [now left|].
  simpl. destruct (f x s) as [y s1] eqn:E.
  specialize (IH s1). destruct (map_st f l s1) as [ys s2]. simpl in *.
  destruct (Hsnd x s) as [E1 | E1]; rewrite E in E1; simpl in E1; subst s1.
  - exact IH.
  - right. destruct IH as [-> | ->]; [reflexivity | apply Hidem].
Qed.

Section Reparse.
Context {H : Host}.

Lemma V1_parse_state (txt : jsstring) (ps ps' : list jsstring)
    (games : list GameItem.t) :
  V1.parseBFVText txt ps = Returns (games, ps') ->
  ps' = ps \/ ps' = array_sort by_length_desc ps.
Proof.
  unfold V1.parseBFVText.
  destruct (V1.tokenize txt) as [raws|]; simpl; [|discriminate].
  pose proof (map_st_snd _ _ _ V1.mapRawToGame (array_sort by_length_desc)
                sorted_prefixes_idem V1_map_snd raws ps) as E.
  destruct (map_st V1.mapRawToGame raws ps) as [mapped ps1]. simpl in E.
  intros R. injection R as _ <-. exact E.
Qed.

Lemma V2_parse_state (txt : jsstring) (ps ps' : list jsstring)
    (games : list GameItem.t) :
  V2.parseBFVText txt ps = Returns (games, ps') ->
  ps' = ps \/ ps' = array_sort by_length_desc ps.
Proof.
  unfold V2.parseBFVText.
  destruct (V2.tokenize txt) as [raws|]; simpl; [|discriminate].
  pose proof (map_st_snd _ _ _ V2.mapRawToGame (array_sort by_length_desc)
                sorted_prefixes_idem V2_map_snd raws ps) as E.
  destruct (map_st V2.mapRawToGame raws ps) as [mapped ps1]. simpl in E.
  intros R. injection R as _ <-. exact E.
Qed.

Lemma V1_parse_sorted_state (txt : jsstring) (ps ps' : list jsstring)
    (games : list GameItem.t) :
  V1.parseBFVText txt ps = Returns (games, ps') ->
  V1.parseBFVText txt (array_sort by_length_desc ps)
  = Returns (games, array_sort by_length_desc ps).
Proof.
  intros P. destruct (V1_parse_rows _ _ _ _ P) as [raws [T ->]].
  unfold V1.parseBFVText. rewrite T. simpl.
  pose proof (V1_map_rows raws (array_sort by_length_desc ps)) as E.
  pose proof (map_st_snd _ _ _ V1.mapRawToGame (array_sort by_length_desc)
                sorted_prefixes_idem V1_map_snd raws
                (array_sort by_length_desc ps)) as Es.
  destruct (map_st V1.mapRawToGame raws (array_sort by_length_desc ps))
    as [mapped ps1]. simpl in E, Es. rewrite sorted_prefixes_idem in Es.
  assert (ps1 = array_sort by_length_desc ps) by (destruct Es; assumption).
  subst ps1. rewrite E. do 3 f_equal. apply map_ext. intros r.
  apply V1_map_fst_sorted.
Qed.

Lemma V2_parse_sorted_state (txt : jsstring) (ps ps' : list jsstring)
    (games : list GameItem.t) :
  V2.parseBFVText txt ps = Returns (games, ps') ->
  V2.parseBFVText txt (array_sort by_length_desc ps)
  = Returns (games, array_sort by_length_desc ps).
Proof.
  intros P. destruct (V2_parse_rows _ _ _ _ P) as [raws [T ->]].
  unfold V2.parseBFVText. rewrite T. simpl.
  pose proof (V2_map_rows raws (array_sort by_length_desc ps)) as E.
  pose proof (map_st_snd _ _ _ V2.mapRawToGame (array_sort by_length_desc)
                sorted_prefixes_idem V2_map_snd raws
                (array_sort by_length_desc ps)) as Es.
  destruct (map_st V2.mapRawToGame raws (array_sort by_length_desc ps))
    as [mapped ps1]. simpl in E, Es. rewrite sorted_prefixes_idem in Es.
  assert (ps1 = array_sort by_length_desc ps) by (destruct Es; assumption).
  subst ps1. rewrite E. do 4 f_equal. apply map_ext. intros r.
  apply V2_map_fst_sorted.
Qed.
End Reparse.

(** X7.  Parsing the same text again gives the same records in the same
    order, in both variants, although the first parse may have sorted the
    module-level array of variants: the second parse starts from the array
    that the first one left and leaves it unchanged. *)
Theorem reparse_gives_same_records :
  forall (H : Host) (txt : jsstring) (prefixes prefixes' : list jsstring)
         (games : list GameItem.t),
    (V1.parseBFVText txt prefixes = Returns (games, prefixes') ->
     V1.parseBFVText txt prefixes' = Returns (games, prefixes'))
    /\ (V2.parseBFVText txt prefixes = Returns (games, prefixes') ->
        V2.parseBFVText txt prefixes' = Returns (games, prefixes')).
Proof.
  intros H txt ps ps' games. split; intros P.
  - destruct (V1_parse_state _ _ _ _ P) as [-> | ->]; [exact P|].
    exact (V1_parse_sorted_state _ _ _ _ P).
  - destruct (V2_parse_state _ _ _ _ P) as [-> | ->]; [exact P|].
    exact (V2_parse_sorted_state _ _ _ _ P).
Qed.

Lemma reparse_gives_same_records_witness :
  V2.parseBFVText (H := latin1_host) sample_text OUR_TEAM_PREFIXES
  = Returns (sample_games, sorted_prefixes)
  /\ V2.parseBFVText (H := latin1_host) sample_text sorted_prefixes
     = Returns (sample_games, sorted_prefixes).
Proof.
  assert (P : V2.parseBFVText (H := latin1_host) sample_text OUR_TEAM_PREFIXES
              = Returns (sample_games, sorted_prefixes))
    by (vm_compute; reflexivity).
  split; [exact P|].
  exact (proj2 (reparse_gives_same_records latin1_host sample_text
                  OUR_TEAM_PREFIXES sorted_prefixes sample_games) P).
Defined.

(** ** [toISODate] on a well-formed date *)

Lemma digit_not_space (c : N) : isDigit c = true -> isWhiteSpace c = false.
Proof.
  unfold isDigit, isWhiteSpace, isLineTerminator. intros D.
  apply andb_true_iff in D as [D1 D2]. apply N.leb_le in D1, D2.
  repeat match goal with
         | |- context [(c =? ?k)%N] =>
             destruct (N.eqb_spec c k); [lia|]
         end.
  destruct (N.leb_spec 8192 c); [lia|]. reflexivity.
Qed.

Lemma digit_not_dot (c : N) : isDigit c = true -> cu_eqb c 46 = false.
Proof.
  unfold isDigit, cu_eqb. intros D.
  apply andb_true_iff in D as [D1 D2]. apply N.leb_le in D1, D2.
  apply N.eqb_neq. lia.
Qed.

Lemma trim_digits (t : jsstring) : forallb isDigit t = true -> trim t = t.
Proof.
  intros D. rewrite forallb_forall in D. apply trim_fixed.
  - intros c r ->. apply digit_not_space, D. now left.
  - intros c r ->. apply digit_not_space, D. apply in_or_app. right. now left.
Qed.

Lemma split_on_segment (sep : N) (s r cur : jsstring) :
  forallb (fun c => negb (cu_eqb c sep)) s = true ->
  split_on sep cur (s ++ r) = split_on sep (rev s ++ cur) r.
Proof.
  revert cur. induction s as [|c s IH]; intros cur; simpl; [reflexivity|].
  intros E. apply andb_true_iff in E as [Ec Es].
  apply negb_true_iff in Ec. rewrite Ec, (IH _ Es), <- app_assoc. reflexivity.
Qed.

Lemma digits_no_dot (s : jsstring) :
  forallb isDigit s = true ->
  forallb (fun c => negb (cu_eqb c 46)) s = true.
Proof.
  intros D. rewrite forallb_forall in *. intros c Hc.
  now rewrite (digit_not_dot c (D c Hc)).
Qed.

Section ToISODate.
Context {H : Host}.

Lemma number_string_digits (t : jsstring) :
  forallb isDigit t = true -> t <> [] -> List.length t <= 15 ->
  number_string t = strip_zeros t.
Proof.
  intros D Hne Hlen. unfold number_string. rewrite (trim_digits t D).
  destruct t as [|c t]; [congruence|].
  rewrite D. apply Nat.leb_le in Hlen. now rewrite Hlen.
Qed.

Lemma pad_two_digits (a b : N) : padStart2 (strip_zeros [a; b]) = [a; b].
Proof.
  unfold strip_zeros. simpl.
  destruct (cu_eqb 48 a) eqn:Ea; [|reflexivity].
  apply cu_eqb_eq in Ea. subst a.
  destruct (cu_eqb 48 b) eqn:Eb; [|reflexivity].
  apply cu_eqb_eq in Eb. subst b. reflexivity.
Qed.
End ToISODate.

Lemma split_on_at_sep (sep : N) (cur r : jsstring) :
  split_on sep cur (sep :: r) = rev cur :: split_on sep [] r.
Proof. simpl. unfold cu_eqb. now rewrite N.eqb_refl. Qed.

Lemma split_on_field (sep : N) (s r : jsstring) :
  forallb (fun c => negb (cu_eqb c sep)) s = true ->
  split_on sep [] (s ++ sep :: r) = s :: split_on sep [] r.
Proof.
  intros E. rewrite (split_on_segment sep s _ [] E), split_on_at_sep.
  now rewrite app_nil_r, rev_involutive.
Qed.

Lemma split_on_last_field (sep : N) (s : jsstring) :
  forallb (fun c => negb (cu_eqb c sep)) s = true ->
  split_on sep [] s = [s].
Proof.
  intros E. rewrite <- (app_nil_r s) at 1.
  rewrite (split_on_segment sep s _ [] E). simpl.
  now rewrite app_nil_r, rev_involutive.
Qed.

(** X8.  For a date [DD.MM.YYYY] of digits, [toISODate] hands the date
    library the text [YYYY-MM-DD]: day and month unchanged, and the year
    without its leading zeros ([Number] drops them and nothing pads the
    year), so a year below 1000 reaches the library with fewer than four
    digits. *)
Theorem toISODate_rearranges_date :
  forall (H : Host) (dd mm yyyy : jsstring),
    forallb isDigit dd = true -> List.length dd = 2 ->
    forallb isDigit mm = true -> List.length mm = 2 ->
    forallb isDigit yyyy = true -> List.length yyyy = 4 ->
    toISODate (dd ++ u "." ++ mm ++ u "." ++ yyyy)
    = dayjs_format (strip_zeros yyyy ++ u "-" ++ mm ++ u "-" ++ dd)
    /\ (nth 0 yyyy 0%N <> 48%N -> strip_zeros yyyy = yyyy).
Proof.
  intros H dd mm yyyy Dd Ld Dm Lm Dy Ly. split.
  - assert (Sp : split_dot (dd ++ u "." ++ mm ++ u "." ++ yyyy) = [dd; mm; yyyy]).
    { unfold split_dot. change (u ".") with [46%N]. simpl app.
      rewrite (split_on_field 46 dd _ (digits_no_dot _ Dd)).
      rewrite (split_on_field 46 mm _ (digits_no_dot _ Dm)).
      now rewrite (split_on_last_field 46 yyyy (digits_no_dot _ Dy)). }
    unfold toISODate. rewrite Sp. simpl nth_error. unfold string_of_element.
    rewrite !number_string_digits; try assumption; try lia;
      try (intros ->; discriminate).
    destruct dd as [|a [|b [|? ?]]]; try discriminate.
    destruct mm as [|c [|d [|? ?]]]; try discriminate.
    now rewrite !pad_two_digits.
  - intros Hy. destruct yyyy as [|y yyyy]; [discriminate|].
    simpl in Hy. unfold strip_zeros. simpl.
    destruct (cu_eqb 48 y) eqn:E; [|reflexivity].
    apply cu_eqb_eq in E. congruence.
Qed.

Lemma toISODate_rearranges_date_witness :
  forallb isDigit (u "21") = true /\ List.length (u "21") = 2
  /\ forallb isDigit (u "09") = true /\ List.length (u "09") = 2
  /\ forallb isDigit (u "0987") = true /\ List.length (u "0987") = 4
  /\ toISODate (H := latin1_host) (u "21" ++ u "." ++ u "09" ++ u "." ++ u "0987")
     = dayjs_format (Host := latin1_host)
         (strip_zeros (u "0987") ++ u "-" ++ u "09" ++ u "-" ++ u "21").
Proof.
  repeat (split; [reflexivity|]).
  exact (proj1 (toISODate_rearranges_date latin1_host (u "21") (u "09")
                  (u "0987") eq_refl eq_refl eq_refl eq_refl eq_refl eq_refl)).
Defined.

(** ** The records of the second variant *)

Lemma well_formed_date_length (d : jsstring) :
  well_formed_date d = true -> List.length d = 10.
Proof.
  destruct d as [|? [|? [|? [|? [|? [|? [|? [|? [|? [|? [|? ?]]]]]]]]]]];
    try discriminate. reflexivity.
Qed.

Lemma well_formed_time_length (t : jsstring) :
  well_formed_time t = true -> List.length t = 5.
Proof.
  destruct t as [|? [|? [|? [|? [|? [|? ?]]]]]]; try discriminate. reflexivity.
Qed.

Lemma slice_to_length (s : jsstring) (n : nat) :
  List.length (slice s 0 (Some (Z.of_nat n))) <= n.
Proof.
  unfold slice, slice_index.
  destruct (Z.of_nat n <? 0)%Z eqn:E; [apply Z.ltb_lt in E; lia|].
  rewrite Nat2Z.id. rewrite length_firstn. lia.
Qed.

Lemma V2_map_record (H : Host) (r : GameRaw.t) (ps : list jsstring)
    (g : GameItem.t) :
  fst (V2.mapRawToGame r ps) = Some g ->
  GameItem.id g = makeId r
  /\ GameItem.date g = toISODate (GameRaw.date r)
  /\ GameItem.dt g
     = toISODate (GameRaw.date r) ++ u "T"
         ++ (if Nat.eqb (List.length (GameRaw.time r)) 4
             then u "0" ++ GameRaw.time r else GameRaw.time r)
         ++ u ":00"
  /\ GameItem.section g = GameRaw.section r
  /\ GameItem.competition g
     = trim (GameRaw.spieltyp r ++ u " " ++ GameRaw.spielklasse r)
  /\ GameItem.assignedField g = GameItem.suggestedField g.
Proof.
  unfold V2.mapRawToGame.
  destruct (str_eqb _ SPIELFREI); [discriminate|].
  destruct (detectHomeAndSplit (GameRaw.pairing r) ps) as [sp ps'].
  simpl. intros E. injection E as <-. simpl. repeat split.
Qed.

(** X9.  In the output of the second variant, provided that upper-casing
    leaves [SPIELFREI] as it is, every record has a kickoff time of the
    form [HH:MM]; so the zero-padding of a four-character time never
    applies and [dt] is the date, [T], the time and [:00].  The identifier
    has at most 77 characters (date, time and at most 60 characters of the
    pairing), and the assigned field starts as the suggested field. *)
Theorem second_variant_record_shape :
  forall (H : Host) (txt : jsstring) (prefixes prefixes' : list jsstring)
         (games : list GameItem.t) (g : GameItem.t),
    toUpperCase SPIELFREI = SPIELFREI ->
    V2.parseBFVText txt prefixes = Returns (games, prefixes') ->
    In g games ->
    well_formed_time (GameItem.time g) = true
    /\ GameItem.dt g = GameItem.date g ++ u "T" ++ GameItem.time g ++ u ":00"
    /\ List.length (GameItem.id g) <= 77
    /\ GameItem.assignedField g = GameItem.suggestedField g.
Proof.
  intros H txt ps ps' games g Hup P Hin.
  destruct (V2_record_row _ _ _ _ _ P Hin) as [raws [r [T [Hr M]]]].
  destruct (second_variant_drops_malformed_rows txt raws r T Hr) as [Tk D].
  pose proof (V2_map_some _ _ _ M) as [S [Et _]].
  pose proof (V2_map_record _ _ _ _ M) as [Ei [Ed [Edt [_ [_ Ea]]]]].
  assert (W : well_formed_time (GameRaw.time r) = true).
  { destruct Tk as [line [rest [label [pairing [_ [_ [FP _]]]]]]].
    destruct FP as [w1 [w2 [w3 [_ [_ [_ [_ [_ [_ [[K | K] _]]]]]]]]]]; [exact K|].
    rewrite K, Hup, str_eqb_refl in S. discriminate. }
  pose proof (well_formed_time_length _ W) as Lt.
  rewrite Et. repeat split; auto.
  - rewrite Edt, Ed, Lt. reflexivity.
  - rewrite Ei. unfold makeId. rewrite !length_app.
    rewrite (well_formed_date_length _ D), Lt.
    pose proof (slice_to_length (normalizeSpaces (GameRaw.pairing r)) 60) as L.
    change (Z.of_nat 60) with 60%Z in L.
    change (List.length (u "_")) with 1. lia.
Qed.

Lemma second_variant_record_shape_witness :
  toUpperCase (Host := latin1_host) SPIELFREI = SPIELFREI
  /\ V2.parseBFVText (H := latin1_host) sample_text OUR_TEAM_PREFIXES
     = Returns (sample_games, sorted_prefixes)
  /\ In sample_home_game sample_games
  /\ well_formed_time (GameItem.time sample_home_game) = true.
Proof.
  assert (P : V2.parseBFVText (H := latin1_host) sample_text OUR_TEAM_PREFIXES
              = Returns (sample_games, sorted_prefixes))
    by (vm_compute; reflexivity).
  assert (I : In sample_home_game sample_games) by (left; reflexivity).
  split; [reflexivity | split; [exact P | split; [exact I|]]].
  exact (proj1 (second_variant_record_shape latin1_host sample_text
                  OUR_TEAM_PREFIXES sorted_prefixes sample_games
                  sample_home_game eq_refl P I)).
Defined.

(** ** The first variant never reads a venue *)

Lemma V1_rows_venue (ls : list jsstring) (i : nat) (currentSection : jsstring)
    (raws out : list GameRaw.t) :
  V1.rows ls i currentSection raws = Returns out ->
  Forall (fun r => GameRaw.venue r = []) raws ->
  Forall (fun r => GameRaw.venue r = []) out.
Proof.
  revert i currentSection raws.
  induction ls as [|line ls IH]; intros i sec raws; simpl; [congruence|].
  destruct (V1.isHeaderSection line); [apply IH|].
  destruct (negb (isRowStart line)); [apply IH|].
  destruct (re_match re_type_rest line) as [m|] eqn:M; [|apply IH].
  destruct (type_rest_match _ _ M) as [code [rest [_ [G1 G2]]]].
  rewrite G1, G2. simpl.
  destruct (re_match re_date_time rest) as [dt|] eqn:D.
  - destruct (date_time_match _ _ D) as [g1 [g2 [g3 [g4 [_ [E1 [E2 [E3 E4]]]]]]]].
    rewrite E1, E2, E3, E4. simpl. intros E F. apply (IH _ _ _ E).
    apply Forall_app. split; [exact F|]. constructor; [reflexivity | constructor].
  - simpl. intros E F. apply (IH _ _ _ E).
    apply Forall_app. split; [exact F|]. constructor; [reflexivity | constructor].
Qed.

Lemma V1_suggest_empty (H : Host) :
  toLowerCase [] = [] -> V1.suggestFieldFromVenue [] = None.
Proof. intros E. unfold V1.suggestFieldFromVenue. rewrite E. reflexivity. Qed.

Lemma first_variant_never_suggests_a_field_aux :
  forall (H : Host) (txt : jsstring) (prefixes prefixes' : list jsstring)
         (games : list GameItem.t) (g : GameItem.t),
    toLowerCase [] = [] ->
    V1.parseBFVText txt prefixes = Returns (games, prefixes') ->
    In g games ->
    GameItem.venue g = []
    /\ GameItem.suggestedField g = None
    /\ GameItem.assignedField g = None.
Proof.
  intros H txt ps ps' games g Hlow P Hin.
  destruct (V1_record_row _ _ _ _ _ P Hin) as [raws [r [T [Hr M]]]].
  assert (V : GameRaw.venue r = []).
  { pose proof (V1_rows_venue _ _ _ _ _ T (Forall_nil _)) as F.
    rewrite Forall_forall in F. now apply F. }
  pose proof (V1_map_some _ _ _ M) as [_ [_ [Ev [_ [_ [_ Es]]]]]].
  assert (S : GameItem.suggestedField g = None).
  { rewrite Es, V, (V1_suggest_empty H Hlow). now destruct (Split.isHome _). }
  repeat split; [congruence | exact S|].
  revert M S. unfold V1.mapRawToGame.
  destruct (str_eqb _ SPIELFREI); [discriminate|].
  destruct (detectHomeAndSplit (GameRaw.pairing r) ps) as [sp ps1].
  simpl. intros E. injection E as <-. simpl. trivial.
Qed.

(** X10.  The first variant never reads a venue: provided that lower-casing
    the empty string gives the empty string, every record of its output has
    an empty venue and neither a suggested nor an assigned field. *)
Theorem first_variant_never_suggests_a_field :
  forall (H : Host) (txt : jsstring) (prefixes prefixes' : list jsstring)
         (games : list GameItem.t) (g : GameItem.t),
    toLowerCase [] = [] ->
    V1.parseBFVText txt prefixes = Returns (games, prefixes') ->
    In g games ->
    GameItem.venue g = []
    /\ GameItem.suggestedField g = None
    /\ GameItem.assignedField g = None.
Proof. exact first_variant_never_suggests_a_field_aux. Qed.

Lemma first_variant_never_suggests_a_field_witness :
  toLowerCase (Host := latin1_host) [] = []
  /\ V1.parseBFVText (H := latin1_host) sample_text OUR_TEAM_PREFIXES
     = Returns (sample_games_v1, sorted_prefixes)
  /\ In (nth 1 sample_games_v1 empty_game) sample_games_v1
  /\ GameItem.suggestedField (nth 1 sample_games_v1 empty_game) = None.
Proof.
  assert (P : V1.parseBFVText (H := latin1_host) sample_text OUR_TEAM_PREFIXES
              = Returns (sample_games_v1, sorted_prefixes))
    by (vm_compute; reflexivity).
  assert (I : In (nth 1 sample_games_v1 empty_game) sample_games_v1)
    by (right; left; reflexivity).
  split; [reflexivity | split; [exact P | split; [exact I|]]].
  exact (proj1 (proj2 (first_variant_never_suggests_a_field latin1_host
                         sample_text OUR_TEAM_PREFIXES sorted_prefixes
                         sample_games_v1 (nth 1 sample_games_v1 empty_game)
                         eq_refl P I))).
Defined.

(** ** The exports of the first variant *)

Lemma unassigned_day_cell (isSameDay : jsstring -> nat -> bool)
    (games : list GameItem.t) (field : FieldName) (d : nat) :
  (forall g, In g games -> GameItem.assignedField g = None) ->
  V1App.day_cell isSameDay games field d = u "<td></td>".
Proof.
  intros Hn. unfold V1App.day_cell.
  replace (filter _ games) with (@nil GameItem.t); [reflexivity|].
  symmetry. induction games as [|g games IH]; [reflexivity|]. simpl.
  unfold assigned_to at 1. rewrite (Hn g (or_introl eq_refl)). simpl.
  apply IH. intros x Hx. apply Hn. now right.
Qed.

Lemma V1_parsedGames_In (H : Host) (homeOnly : bool) (games : list GameItem.t)
    (g : GameItem.t) :
  In g (V1.parsedGames homeOnly games) -> In g games.
Proof.
  unfold V1.parsedGames. intros Hin. apply array_sort_In in Hin.
  destruct homeOnly; [apply filter_In in Hin as [Hin _]|]; exact Hin.
Qed.

(** X11.  What the first variant prints and exports never shows a fixture:
    provided that lower-casing the empty string gives the empty string, for
    the records of any parsed text the printable plan is the empty grid
    (every day cell of every field is empty), and the CSV export either
    alerts that no games are loaded or consists of the header line alone. *)
Theorem first_variant_exports_are_empty :
  forall (H : Host) (txt : jsstring) (prefixes prefixes' : list jsstring)
         (games : list GameItem.t) (homeOnly : bool)
         (weekNumber weekStartText weekEndText : jsstring)
         (weekday : jsstring -> jsstring) (isSameDay : jsstring -> nat -> bool),
    toLowerCase [] = [] ->
    V1.parseBFVText txt prefixes = Returns (games, prefixes') ->
    let shown := V1.parsedGames homeOnly games in
    V1App.exportWeekPrintable isSameDay shown
    = V1App.exportWeekPrintable isSameDay []
    /\ (V1App.exportWeekCSV weekNumber weekStartText weekEndText weekday shown
        = None
        \/ V1App.exportWeekCSV weekNumber weekStartText weekEndText weekday shown
           = Some (join (u ",") V1App.csv_header)).
Proof.
  intros H txt ps ps' games homeOnly wn ws we wd same Hlow P shown.
  assert (Hn : forall g, In g shown -> GameItem.assignedField g = None).
  { intros g Hin. apply V1_parsedGames_In in Hin.
    exact (proj2 (proj2 (first_variant_never_suggests_a_field_aux H txt ps ps'
                           games g Hlow P Hin))). }
  split.
  - unfold V1App.exportWeekPrintable, V1App.field_row. do 3 f_equal.
    apply map_ext. intros field. do 5 f_equal. apply map_ext. intros d.
    rewrite (unassigned_day_cell same shown field d Hn).
    symmetry. apply unassigned_day_cell. intros g [].
  - unfold V1App.exportWeekCSV. destruct shown as [|g0 shown0] eqn:E; [now left|].
    right. rewrite <- E in *.
    replace (filter _ shown) with (@nil GameItem.t); [reflexivity|].
    symmetry. clear E. induction shown as [|g l IH]; [reflexivity|]. simpl.
    unfold is_assigned at 1. rewrite (Hn g (or_introl eq_refl)).
    rewrite andb_false_r. apply IH. intros x Hx. apply Hn. now right.
Qed.

Lemma first_variant_exports_are_empty_witness :
  toLowerCase (Host := latin1_host) [] = []
  /\ V1.parseBFVText (H := latin1_host) sample_text OUR_TEAM_PREFIXES
     = Returns (sample_games_v1, sorted_prefixes)
  /\ V1App.exportWeekPrintable (fun _ _ => true)
       (V1.parsedGames (H := latin1_host) false sample_games_v1)
     = V1App.exportWeekPrintable (fun _ _ => true) [].
Proof.
  assert (P : V1.parseBFVText (H := latin1_host) sample_text OUR_TEAM_PREFIXES
              = Returns (sample_games_v1, sorted_prefixes))
    by (vm_compute; reflexivity).
  split; [reflexivity | split; [exact P|]].
  exact (proj1 (first_variant_exports_are_empty latin1_host sample_text
                  OUR_TEAM_PREFIXES sorted_prefixes sample_games_v1 false
                  (u "39") (u "2025-09-22") (u "2025-09-28") (fun d => d)
                  (fun _ _ => true) eq_refl P)).
Defined.

(** ** The CSV export of the second variant *)

Lemma split_join (sep : N) (l : list jsstring) :
  l <> [] ->
  Forall (fun f => ~ In sep f) l ->
  split_at sep (join [sep] l) = l.
Proof.
  assert (No : forall f, ~ In sep f ->
                         forallb (fun c => negb (cu_eqb c sep)) f = true).
  { intros f Hf. apply forallb_forall. intros c Hc.
    destruct (cu_eqb c sep) eqn:E; [|reflexivity].
    apply cu_eqb_eq in E. subst c. contradiction. }
  unfold split_at. induction l as [|x l IH]; [congruence|].
  intros _ F. inversion F as [|? ? Hx Hl]; subst.
  destruct l as [|y l].
  - simpl. apply split_on_last_field. now apply No.
  - change (join [sep] (x :: y :: l)) with (x ++ sep :: join [sep] (y :: l)).
    rewrite split_on_field by now apply No.
    f_equal. apply IH; [discriminate | exact Hl].
Qed.

Lemma split_lines_from_last (x cur : jsstring) :
  ~ In 10%N x -> split_lines_from cur x = [rev cur ++ x].
Proof.
  revert cur. induction x as [|c x IH]; intros cur Hx.
  - simpl. now rewrite app_nil_r.
  - assert (Hc : cu_eqb c 10 = false).
    { destruct (cu_eqb c 10) eqn:E; [|reflexivity].
      apply cu_eqb_eq in E. subst c. elim Hx. now left. }
    assert (Hx' : ~ In 10%N x) by (intros I; apply Hx; now right).
    simpl. rewrite Hc. destruct x as [|d x'].
    + rewrite (IH (c :: cur) Hx'). simpl. now rewrite <- app_assoc.
    + assert (Hd : cu_eqb d 10 = false).
      { destruct (cu_eqb d 10) eqn:E; [|reflexivity].
        apply cu_eqb_eq in E. subst d. elim Hx'. now left. }
      rewrite Hd, andb_false_r, (IH (c :: cur) Hx'). simpl.
      now rewrite <- app_assoc.
Qed.

Lemma split_lines_from_line (x r cur : jsstring) :
  ~ In 10%N x ->
  split_lines_from cur (x ++ crlf ++ r)
  = (rev cur ++ x) :: split_lines_from [] r.
Proof.
  revert cur. induction x as [|c x IH]; intros cur Hx.
  - simpl. now rewrite app_nil_r.
  - assert (Hc : cu_eqb c 10 = false).
    { destruct (cu_eqb c 10) eqn:E; [|reflexivity].
      apply cu_eqb_eq in E. subst c. elim Hx. now left. }
    assert (Hx' : ~ In 10%N x) by (intros I; apply Hx; now right).
    change ((c :: x) ++ crlf ++ r) with (c :: (x ++ crlf ++ r)).
    destruct x as [|d x'].
    + change (split_lines_from cur (c :: [] ++ crlf ++ r))
        with (if cu_eqb c 10 then rev cur :: split_lines_from [] (crlf ++ r)
              else if cu_eqb c 13 && cu_eqb 13 10
                   then rev cur :: split_lines_from [] (10%N :: r)
                   else split_lines_from (c :: cur) ([] ++ crlf ++ r)).
      rewrite Hc. change (cu_eqb 13 10) with false. rewrite andb_false_r.
      rewrite (IH (c :: cur) Hx'). simpl. now rewrite <- app_assoc.
    + assert (Hd : cu_eqb d 10 = false).
      { destruct (cu_eqb d 10) eqn:E; [|reflexivity].
        apply cu_eqb_eq in E. subst d. elim Hx'. now left. }
      change (split_lines_from cur (c :: (d :: x') ++ crlf ++ r))
        with (if cu_eqb c 10
              then rev cur :: split_lines_from [] ((d :: x') ++ crlf ++ r)
              else if cu_eqb c 13 && cu_eqb d 10
                   then rev cur :: split_lines_from [] (x' ++ crlf ++ r)
                   else split_lines_from (c :: cur) ((d :: x') ++ crlf ++ r)).
      rewrite Hc, Hd, andb_false_r, (IH (c :: cur) Hx'). simpl.
      now rewrite <- app_assoc.
Qed.

Lemma split_lines_join (l : list jsstring) :
  l <> [] ->
  Forall (fun x => ~ In 10%N x) l ->
  split_lines (join crlf l) = l.
Proof.
  unfold split_lines. induction l as [|x l IH]; [congruence|].
  intros _ F. inversion F as [|? ? Hx Hl]; subst.
  destruct l as [|y l].
  - simpl. now rewrite split_lines_from_last.
  - change (join crlf (x :: y :: l)) with (x ++ crlf ++ join crlf (y :: l)).
    rewrite split_lines_from_line by exact Hx. simpl rev. simpl app at 1.
    f_equal. apply IH; [discriminate | exact Hl].
Qed.

Lemma Forall_forall_map_id (A : Type) (f : A -> A) (l : list A) :
  Forall (fun x => f x = x) l -> map f l = l.
Proof.
  induction 1 as [|x l Hx Hl IH]; [reflexivity|]. simpl. now rewrite Hx, IH.
Qed.

Lemma join_no_char (c sep : N) (l : list jsstring) :
  c <> sep -> Forall (fun f => ~ In c f) l -> ~ In c (join [sep] l).
Proof.
  intros Hc. induction l as [|x l IH]; intros F; [intros []|].
  inversion F as [|? ? Hx Hl]; subst. destruct l as [|y l]; [exact Hx|].
  change (join [sep] (x :: y :: l)) with (x ++ sep :: join [sep] (y :: l)).
  intros I. apply in_app_or in I as [I | [I | I]].
  - now apply Hx.
  - now apply Hc.
  - now apply (IH Hl).
Qed.

Lemma replace_char_removes (c : N) (by_ s : jsstring) :
  ~ In c by_ -> ~ In c (replace_char c by_ s).
Proof.
  intros Hb. unfold replace_char. induction s as [|x s IH]; [intros []|].
  simpl. intros I. apply in_app_or in I as [I | I]; [|now apply IH].
  destruct (cu_eqb x c) eqn:E; [now apply Hb|].
  destruct I as [-> | []]. unfold cu_eqb in E. now rewrite N.eqb_refl in E.
Qed.

(** X12.  The CSV text of the second variant can be read back: split into
    lines and the lines split at the semicolons, it gives the header and one
    row of eight fields per game, in order, provided that no field contains
    a semicolon or a line feed; the export neither quotes nor escapes its
    fields.  The venue column never contains a double quote. *)
Theorem csv_export_reads_back :
  forall (format_dmy : jsstring -> jsstring) (games : list GameItem.t),
    (forall g f, In g games -> In f (V2App.csv_row format_dmy g) ->
                 ~ In 59%N f /\ ~ In 10%N f) ->
    map (split_at 59) (split_lines (V2App.exportWeekCSV format_dmy games))
    = V2App.csv_header :: map (V2App.csv_row format_dmy) games
    /\ forall g, ~ In 34%N (nth 7 (V2App.csv_row format_dmy g) []).
Proof.
  intros fmt games Hf. split.
  - unfold V2App.exportWeekCSV.
    assert (Fields : Forall (fun row => row <> []
                                        /\ Forall (fun f => ~ In 59%N f) row
                                        /\ Forall (fun f => ~ In 10%N f) row)
                       (V2App.csv_header :: map (V2App.csv_row fmt) games)).
    { constructor.
      - split; [discriminate|]. split; apply Forall_forall; intros f Hin;
          repeat (destruct Hin as [<- | Hin];
                  [vm_compute; intuition discriminate|]); destruct Hin.
      - apply Forall_forall. intros row Hrow.
        apply in_map_iff in Hrow as [g [<- Hg]].
        split; [discriminate|].
        split; apply Forall_forall; intros f Hin; now apply (Hf g f). }
    rewrite split_lines_join.
    + rewrite map_map. apply Forall_forall_map_id.
      eapply Forall_impl; [|exact Fields]. intros row [Hne [H59 _]].
      now apply split_join.
    + discriminate.
    + apply Forall_forall. intros line Hline.
      apply in_map_iff in Hline as [row [<- Hrow]].
      rewrite Forall_forall in Fields. destruct (Fields row Hrow) as [_ [_ H10]].
      apply join_no_char; [discriminate | exact H10].
  - intros g. simpl. apply replace_char_removes. vm_compute. intuition discriminate.
Qed.

Lemma csv_export_reads_back_witness :
  (forall g f, In g [sample_away_game] ->
               In f (V2App.csv_row (fun d => d) g) ->
               ~ In 59%N f /\ ~ In 10%N f)
  /\ map (split_at 59)
         (split_lines (V2App.exportWeekCSV (fun d => d) [sample_away_game]))
     = [V2App.csv_header; V2App.csv_row (fun d => d) sample_away_game].
Proof.
  assert (Hf : forall g f, In g [sample_away_game] ->
               In f (V2App.csv_row (fun d => d) g) ->
               ~ In 59%N f /\ ~ In 10%N f).
  { intros g f [<- | []] Hin.
    repeat (destruct Hin as [<- | Hin];
            [split; intros I; vm_compute in I;
             repeat (destruct I as [I | I]; [discriminate I|]); exact I|]).
    destruct Hin. }
  split; [exact Hf|].
  exact (proj1 (csv_export_reads_back (fun d => d) [sample_away_game] Hf)).
Defined.

(** ** The escaping of the printable plan *)

Lemma escape_char_cases (c : N) :
  (c = 38%N /\ escape_char c = u "&amp;")
  \/ (c = 60%N /\ escape_char c = u "&lt;")
  \/ (c = 62%N /\ escape_char c = u "&gt;")
  \/ (c <> 38%N /\ c <> 60%N /\ c <> 62%N /\ escape_char c = [c]).
Proof.
  unfold escape_char, cu_eqb.
  destruct (N.eqb_spec c 38); [now left|].
  destruct (N.eqb_spec c 60); [right; now left|].
  destruct (N.eqb_spec c 62); [right; right; now left|].
  right. right. right. auto.
Qed.

Lemma cell_char (c : N) : V2App.cell [c] = escape_char c.
Proof.
  unfold V2App.cell, replace_char.
  destruct (escape_char_cases c) as [[-> E] | [[-> E] | [[-> E] | [N1 [N2 [N3 E]]]]]];
    rewrite E; try reflexivity.
  apply N.eqb_neq in N1, N2, N3. unfold cu_eqb. cbn [flat_map].
  rewrite N1. cbn [flat_map app]. rewrite N2. cbn [flat_map app].
  now rewrite N3.
Qed.

Lemma cell_app (a b : jsstring) : V2App.cell (a ++ b) = V2App.cell a ++ V2App.cell b.
Proof. unfold V2App.cell, replace_char. now rewrite !flat_map_app. Qed.

(** The three replacements in a row escape each character once. *)
Lemma cell_single_pass (t : jsstring) : V2App.cell t = flat_map escape_char t.
Proof.
  induction t as [|c t IH]; [reflexivity|].
  change (c :: t) with ([c] ++ t). rewrite cell_app, cell_char, IH. reflexivity.
Qed.

Lemma escape_char_no_bracket (c : N) :
  ~ In 60%N (escape_char c) /\ ~ In 62%N (escape_char c).
Proof.
  destruct (escape_char_cases c) as [[-> E] | [[-> E] | [[-> E] | [N1 [N2 [N3 E]]]]]];
    rewrite E; split; intros I; vm_compute in I;
    repeat (destruct I as [I | I]; [try discriminate I; congruence|]);
    exact I.
Qed.

Lemma escape_injective (t t' : jsstring) :
  flat_map escape_char t = flat_map escape_char t' -> t = t'.
Proof.
  revert t'. induction t as [|c t IH]; intros [|c' t']; cbn [flat_map].
  - reflexivity.
  - destruct (escape_char_cases c') as [[_ E] | [[_ E] | [[_ E] | [_ [_ [_ E]]]]]];
      rewrite E; discriminate.
  - destruct (escape_char_cases c) as [[_ E] | [[_ E] | [[_ E] | [_ [_ [_ E]]]]]];
      rewrite E; discriminate.
  - destruct (escape_char_cases c) as [[-> E] | [[-> E] | [[-> E] | [N1 [N2 [N3 E]]]]]];
      destruct (escape_char_cases c')
        as [[-> E'] | [[-> E'] | [[-> E'] | [N1' [N2' [N3' E']]]]]];
      rewrite E; try rewrite E'; simpl; intros Q; try discriminate Q;
      try (injection Q as Q; f_equal; now apply IH);
      try (injection Q as Q1 Q; congruence).
  injection Q as -> Q. f_equal. now apply IH.
Qed.

(** X13.  The escaping of the printable plan is complete and loses
    nothing: the escaped text contains no angle bracket, every character is
    escaped exactly once (an ampersand of the input is not escaped twice),
    and two texts with the same escaped form are equal. *)
Theorem cell_escapes_markup :
  forall t : jsstring,
    ~ In 60%N (V2App.cell t) /\ ~ In 62%N (V2App.cell t)
    /\ V2App.cell t = flat_map escape_char t
    /\ forall t', V2App.cell t = V2App.cell t' -> t = t'.
Proof.
  intros t. rewrite cell_single_pass. repeat split.
  - intros I. apply in_flat_map in I as [c [_ I]].
    now apply (proj1 (escape_char_no_bracket c)).
  - intros I. apply in_flat_map in I as [c [_ I]].
    now apply (proj2 (escape_char_no_bracket c)).
  - intros t'. rewrite cell_single_pass. apply escape_injective.
Qed.

(** ** The list that the second variant shows *)

Lemma StronglySorted_filter (A : Type) (R : A -> A -> Prop) (p : A -> bool)
    (l : list A) :
  StronglySorted R l -> StronglySorted R (filter p l).
Proof.
  induction 1 as [|x l Hl IH Hx]; simpl; [constructor|].
  destruct (p x); [|exact IH]. constructor; [exact IH|].
  rewrite Forall_forall in *. intros y Hy. apply filter_In in Hy as [Hy _].
  now apply Hx.
Qed.

(** X14.  The list that the second variant shows and exports is still in
    the order of [dt], whatever the two toggles and the clock are: the
    filters only remove records.  [localeCompare] is taken to be a total
    preorder. *)
Theorem shown_list_stays_sorted :
  forall (H : Host),
    (forall a b, (localeCompare a b <= 0)%Z \/ (localeCompare b a <= 0)%Z) ->
    (forall a b c, (localeCompare a b <= 0)%Z -> (localeCompare b c <= 0)%Z ->
                   (localeCompare a c <= 0)%Z) ->
    forall (txt : jsstring) (prefixes prefixes' : list jsstring)
           (games : list GameItem.t) (notPast : jsstring -> bool)
           (showHomeOnly hidePast : bool),
      V2.parseBFVText txt prefixes = Returns (games, prefixes') ->
      let shown := V2App.parsedGames notPast showHomeOnly hidePast games in
      StronglySorted (before by_dt) shown
      /\ (forall g, In g shown -> In g games)
      /\ (showHomeOnly = true -> forall g, In g shown -> GameItem.isHome g = true).
Proof.
  intros H T R txt ps ps' games notPast home past P shown.
  destruct (V2_parse_rows _ _ _ _ P) as [raws [_ E]].
  assert (S : StronglySorted (before by_dt) games).
  { rewrite E. match goal with |- context [array_sort by_dt ?l] =>
      destruct (sort_by_dt T R l) as [S _] end. exact S. }
  unfold shown, V2App.parsedGames. repeat split.
  - destruct home, past; repeat apply StronglySorted_filter; exact S.
  - intros g. destruct home, past; intros Hin;
      repeat (apply filter_In in Hin as [Hin _]); exact Hin.
  - intros -> g. destruct past; intros Hin.
    + apply filter_In in Hin as [Hin _]. now apply filter_In in Hin as [_ Hin].
    + now apply filter_In in Hin as [_ Hin].
Qed.

Lemma shown_list_stays_sorted_witness :
  V2.parseBFVText (H := latin1_host) sample_text OUR_TEAM_PREFIXES
  = Returns (sample_games, sorted_prefixes)
  /\ StronglySorted (before (by_dt (H := latin1_host)))
       (V2App.parsedGames (fun _ => true) true true sample_games).
Proof.
  assert (P : V2.parseBFVText (H := latin1_host) sample_text OUR_TEAM_PREFIXES
              = Returns (sample_games, sorted_prefixes))
    by (vm_compute; reflexivity).
  split; [exact P|].
  exact (proj1 (shown_list_stays_sorted latin1_host code_unit_compare_total
                  code_unit_compare_trans sample_text OUR_TEAM_PREFIXES
                  sorted_prefixes sample_games (fun _ => true) true true P)).
Defined.

(** ** The change of an assigned field *)

Lemma onFieldChange_nth (id : jsstring) (choice : option FieldName)
    (prev : list GameItem.t) (i : nat) :
  nth_error (V2App.onFieldChange id choice prev) i
  = option_map (fun x => if str_eqb (GameItem.id x) id
                         then V2App.set_assignedField x choice else x)
      (nth_error prev i).
Proof. unfold V2App.onFieldChange. apply nth_error_map. Qed.

(** X15.  A change of the field select assigns the chosen field to every
    record that carries the identifier of the row, so records with colliding
    identifiers change together; the other records, and all other fields,
    the identifiers and [dt] among them, stay as they are.  The list keeps
    its length and its order. *)
Theorem field_change_updates_by_identifier :
  forall (id : jsstring) (choice : option FieldName) (prev : list GameItem.t),
    let next := V2App.onFieldChange id choice prev in
    List.length next = List.length prev
    /\ map GameItem.id next = map GameItem.id prev
    /\ map GameItem.dt next = map GameItem.dt prev
    /\ map GameItem.suggestedField next = map GameItem.suggestedField prev
    /\ (forall i x, nth_error prev i = Some x -> GameItem.id x = id ->
          exists y, nth_error next i = Some y
                    /\ GameItem.assignedField y = choice)
    /\ (forall i x, nth_error prev i = Some x -> GameItem.id x <> id ->
          nth_error next i = Some x).
Proof.
  intros id choice prev next. unfold next.
  assert (M : forall (A : Type) (f : GameItem.t -> A),
             (forall x, f (V2App.set_assignedField x choice) = f x) ->
             map f (V2App.onFieldChange id choice prev) = map f prev).
  { intros A f Hf. unfold V2App.onFieldChange. rewrite map_map.
    apply map_ext. intros x. destruct (str_eqb _ id); [apply Hf | reflexivity]. }
  repeat split.
  - unfold V2App.onFieldChange. apply length_map.
  - apply M. reflexivity.
  - apply M. reflexivity.
  - apply M. reflexivity.
  - intros i x Hx Hid. rewrite onFieldChange_nth, Hx. simpl.
    rewrite Hid, str_eqb_refl. eexists. split; reflexivity.
  - intros i x Hx Hid. rewrite onFieldChange_nth, Hx. simpl.
    destruct (str_eqb (GameItem.id x) id) eqn:E; [|reflexivity].
    apply str_eqb_eq in E. contradiction.
Qed.

Lemma field_change_updates_by_identifier_witness :
  nth_error sample_games 0 = Some sample_home_game
  /\ GameItem.id sample_home_game = GameItem.id sample_home_game
  /\ exists y,
       nth_error (V2App.onFieldChange (GameItem.id sample_home_game)
                    (Some Field_C) sample_games) 0 = Some y
       /\ GameItem.assignedField y = Some Field_C.
Proof.
  split; [reflexivity | split; [reflexivity|]].
  exact (proj1 (proj2 (proj2 (proj2 (proj2
           (field_change_updates_by_identifier (GameItem.id sample_home_game)
              (Some Field_C) sample_games)))))
           0 sample_home_game eq_refl eq_refl).
Defined.

(** X16.  The last change of a row wins, and changes of rows with different
    identifiers do not depend on their order. *)
Theorem field_changes_compose :
  forall (id id' : jsstring) (c c' : option FieldName) (prev : list GameItem.t),
    V2App.onFieldChange id c' (V2App.onFieldChange id c prev)
    = V2App.onFieldChange id c' prev
    /\ (id <> id' ->
        V2App.onFieldChange id' c' (V2App.onFieldChange id c prev)
        = V2App.onFieldChange id c (V2App.onFieldChange id' c' prev)).
Proof.
  intros id id' c c' prev. unfold V2App.onFieldChange. rewrite !map_map. split.
  - apply map_ext. intros x.
    destruct (str_eqb (GameItem.id x) id) eqn:E; simpl; rewrite E; reflexivity.
  - intros Hne. apply map_ext. intros x.
    destruct (str_eqb (GameItem.id x) id) eqn:E;
      destruct (str_eqb (GameItem.id x) id') eqn:E'; simpl;
      rewrite ?E, ?E'; try reflexivity.
    apply str_eqb_eq in E, E'. congruence.
Qed.

Lemma field_changes_compose_witness :
  u "a" <> u "b"
  /\ V2App.onFieldChange (u "b") None
       (V2App.onFieldChange (u "a") (Some Field_A) sample_games)
     = V2App.onFieldChange (u "a") (Some Field_A)
         (V2App.onFieldChange (u "b") None sample_games).
Proof.
  assert (Hne : u "a" <> u "b") by discriminate.
  split; [exact Hne|].
  exact (proj2 (field_changes_compose (u "a") (u "b") (Some Field_A) None
                  sample_games) Hne).
Defined.

(** ** Texts without rows *)

Lemma V1_rows_none (ls : list jsstring) (i : nat) (currentSection : jsstring)
    (raws : list GameRaw.t) :
  forallb (fun l => negb (isRowStart l) || V1.isHeaderSection l) ls = true ->
  V1.rows ls i currentSection raws = Returns raws.
Proof.
  revert i currentSection.
  induction ls as [|line ls IH]; intros i sec F; simpl in *; [reflexivity|].
  apply andb_true_iff in F as [F1 F2].
  destruct (V1.isHeaderSection line); [now apply IH|].
  rewrite orb_false_r in F1. rewrite F1. now apply IH.
Qed.

Lemma V2_rows_none (lines : list jsstring) (fuel i : nat)
    (currentSection : jsstring) (raws : list GameRaw.t) :
  forallb (fun l => negb (isRowStart l) || V2.isHeaderSection l) lines = true ->
  List.length lines <= i + fuel ->
  V2.rows fuel lines i currentSection raws = Some (Returns raws).
Proof.
  intros F. rewrite forallb_forall in F. revert i currentSection.
  induction fuel as [|fuel IH]; intros i sec Hlen; simpl.
  - destruct (nth_error lines i) as [line|] eqn:N; [|reflexivity].
    assert (i < List.length lines) by (apply nth_error_Some; congruence). lia.
  - destruct (nth_error lines i) as [line|] eqn:N; [|reflexivity].
    specialize (F line (nth_error_In _ _ N)).
    destruct (V2.isHeaderSection line); [apply IH; lia|].
    rewrite orb_false_r in F. rewrite F. apply IH. lia.
Qed.

(** X17.  A text in which every line that starts a row is also taken as
    a section header yields no record, and the array of variants is not
    touched.  In the second variant the header test looks for a keyword
    anywhere in the line, so a row of the class [A-Klasse] is such a
    line. *)
Theorem header_lines_are_not_rows :
  forall (H : Host) (txt : jsstring) (prefixes : list jsstring),
    (forallb (fun l => negb (isRowStart l) || V1.isHeaderSection l)
       (input_lines txt) = true ->
     V1.parseBFVText txt prefixes = Returns ([], prefixes))
    /\ (forallb (fun l => negb (isRowStart l) || V2.isHeaderSection l)
          (input_lines txt) = true ->
        V2.parseBFVText txt prefixes = Returns ([], prefixes)).
Proof.
  intros H txt ps. split; intros F.
  - unfold V1.parseBFVText, V1.tokenize. rewrite (V1_rows_none _ _ _ _ F).
    reflexivity.
  - unfold V2.parseBFVText, V2.tokenize.
    rewrite (V2_rows_none _ _ _ _ _ F); [reflexivity | lia].
Qed.

Lemma header_lines_are_not_rows_witness :
  isRowStart sample_class_row = true
  /\ forallb (fun l => negb (isRowStart l) || V2.isHeaderSection l)
       (input_lines sample_class_text) = true
  /\ V2.parseBFVText (H := latin1_host) sample_class_text OUR_TEAM_PREFIXES
     = Returns ([], OUR_TEAM_PREFIXES).
Proof.
  assert (F : forallb (fun l => negb (isRowStart l) || V2.isHeaderSection l)
                (input_lines sample_class_text) = true)
    by (vm_compute; reflexivity).
  split; [vm_compute; reflexivity | split; [exact F|]].
  exact (proj2 (header_lines_are_not_rows latin1_host sample_class_text
                  OUR_TEAM_PREFIXES) F).
Defined.

(** ** The line, the section and the venue of a row *)

Lemma skipn_cons_inv (A : Type) (l : list A) (a : nat) (x : A) (r : list A) :
  skipn a l = x :: r -> nth_error l a = Some x /\ skipn (S a) l = r.
Proof.
  revert l. induction a as [|a IH]; intros l E.
  - rewrite skipn_O in E. subst l. split; reflexivity.
  - destruct l as [|y l]; [rewrite skipn_nil in E; discriminate|].
    rewrite skipn_cons in E. apply IH in E as [E1 E2].
    split; [exact E1 | now rewrite skipn_cons].
Qed.

Lemma skipn_nth (A : Type) (l : list A) (a : nat) (x : A) :
  nth_error l a = Some x -> skipn a l = x :: skipn (S a) l.
Proof.
  revert l. induction a as [|a IH]; intros [|y l] E; try discriminate.
  - simpl in E. injection E as ->. reflexivity.
  - simpl in E. rewrite skipn_cons, (skipn_cons (S a)). now apply IH.
Qed.

Lemma firstn_snoc (A : Type) (l : list A) (i : nat) (x : A) :
  nth_error l i = Some x -> firstn (S i) l = firstn i l ++ [x].
Proof.
  revert l. induction i as [|i IH]; intros [|y l] E; try discriminate.
  - simpl in E. injection E as ->. reflexivity.
  - simpl in E. change (firstn (S (S i)) (y :: l)) with (y :: firstn (S i) l).
    rewrite (IH _ E). reflexivity.
Qed.

Lemma section_before_step (isHeader : jsstring -> bool) (lines : list jsstring)
    (i : nat) (line : jsstring) :
  nth_error lines i = Some line ->
  section_before isHeader lines (S i)
  = if isHeader line then line else section_before isHeader lines i.
Proof.
  intros N. unfold section_before. rewrite (firstn_snoc _ _ _ _ N), fold_left_app.
  reflexivity.
Qed.

Lemma section_before_continuation (lines ls : list jsstring) (a : nat) :
  skipn a lines = ls ->
  section_before V2.isHeaderSection lines
    (a + List.length
           (take_while (fun l => negb (isRowStart l) && negb (V2.isHeaderSection l))
              ls))
  = section_before V2.isHeaderSection lines a.
Proof.
  revert a. induction ls as [|l ls IH]; intros a E; simpl.
  - f_equal. lia.
  - destruct (skipn_cons_inv _ _ _ _ _ E) as [N E'].
    destruct (negb (isRowStart l) && negb (V2.isHeaderSection l)) eqn:C; simpl.
    + replace (a + S (List.length (take_while
                 (fun l0 => negb (isRowStart l0) && negb (V2.isHeaderSection l0)) ls)))
        with (S a + List.length (take_while
                 (fun l0 => negb (isRowStart l0) && negb (V2.isHeaderSection l0)) ls))
        by lia.
      rewrite (IH _ E'), (section_before_step _ _ _ _ N).
      apply andb_true_iff in C as [_ C]. apply negb_true_iff in C.
      now rewrite C.
    + f_equal. lia.
Qed.

Lemma venue_lines_spec (ls : list jsstring) (j : nat) (venue : jsstring) :
  V2.venue_lines ls j venue
  = (fold_left (fun v l => v ++ (if truthy v then u " " else []) ++ l)
       (filter (fun l => negb (re_test V2.re_boilerplate l))
          (take_while (fun l => negb (isRowStart l) && negb (V2.isHeaderSection l))
             ls))
       venue,
     j + List.length
           (take_while (fun l => negb (isRowStart l) && negb (V2.isHeaderSection l))
              ls)).
Proof.
  revert j venue. induction ls as [|l ls IH]; intros j venue; simpl.
  - f_equal. lia.
  - destruct (negb (isRowStart l) && negb (V2.isHeaderSection l)); simpl.
    + destruct (re_test V2.re_boilerplate l); simpl; rewrite IH; f_equal; lia.
    + f_equal. lia.
Qed.

Lemma join_cons_cons (sep x y : jsstring) (l : list jsstring) :
  join sep (x :: y :: l) = x ++ sep ++ join sep (y :: l).
Proof. reflexivity. Qed.

Lemma venue_fold_from (kept : list jsstring) (v : jsstring) :
  v <> [] -> Forall (fun l => l <> []) kept ->
  fold_left (fun v l => v ++ (if truthy v then u " " else []) ++ l) kept v
  = join (u " ") (v :: kept).
Proof.
  revert v. induction kept as [|l kept IH]; intros v Hv F; [reflexivity|].
  inversion F as [|? ? Hl F']; subst. simpl fold_left.
  destruct v as [|c v]; [congruence|]. simpl truthy. cbv iota.
  rewrite IH; [|discriminate | exact F'].
  destruct kept as [|k kept]; simpl; rewrite <- ?app_assoc; reflexivity.
Qed.

Lemma venue_fold (kept : list jsstring) :
  Forall (fun l => l <> []) kept ->
  fold_left (fun v l => v ++ (if truthy v then u " " else []) ++ l) kept []
  = join (u " ") kept.
Proof.
  destruct kept as [|l kept]; intros F; [reflexivity|].
  inversion F as [|? ? Hl F']; subst. simpl fold_left.
  now apply venue_fold_from.
Qed.

Lemma take_while_incl (A : Type) (p : A -> bool) (l : list A) (x : A) :
  In x (take_while p l) -> In x l.
Proof.
  induction l as [|y l IH]; simpl; [tauto|].
  destruct (p y); simpl; [|tauto]. intros [E | Hin]; auto.
Qed.

Lemma skipn_incl (A : Type) (n : nat) (l : list A) (x : A) :
  In x (skipn n l) -> In x l.
Proof.
  intros Hin. rewrite <- (firstn_skipn n l). apply in_or_app. now right.
Qed.

Lemma venue_lines_text (lines : list jsstring) (i : nat) :
  Forall (fun l => l <> []) lines ->
  trim (fst (V2.venue_lines (skipn (S i) lines) (S i) [])) = venue_text lines i.
Proof.
  intros F. rewrite venue_lines_spec. simpl fst. unfold venue_text.
  f_equal. apply venue_fold. rewrite Forall_forall in *. intros l Hl.
  apply filter_In in Hl as [Hl _]. apply take_while_incl, skipn_incl in Hl.
  now apply F.
Qed.

Lemma input_lines_nonempty (txt : jsstring) :
  Forall (fun l => l <> []) (input_lines txt).
Proof.
  apply Forall_forall. intros l Hl. unfold input_lines in Hl.
  apply filter_In in Hl as [_ Hl]. destruct l; [discriminate | discriminate].
Qed.

Lemma sorted_snoc (l : list nat) (x : nat) :
  StronglySorted lt l -> Forall (fun y => y < x) l -> StronglySorted lt (l ++ [x]).
Proof.
  induction 1 as [|y l Hl IH Hy]; intros F; simpl.
  - constructor; constructor.
  - inversion F as [|? ? Hyx F']; subst. constructor; [now apply IH|].
    apply Forall_app. split; [exact Hy|]. constructor; [exact Hyx | constructor].
Qed.

Lemma Forall_lt_weaken (A : Type) (f : A -> nat) (i j : nat) (l : list A) :
  i <= j -> Forall (fun r => f r < i) l -> Forall (fun r => f r < j) l.
Proof.
  intros Hij F. rewrite Forall_forall in *. intros r Hr.
  specialize (F r Hr). lia.
Qed.

Lemma ordered_snoc (raws : list GameRaw.t) (raw : GameRaw.t) (i : nat) :
  GameRaw.lineIdx raw = i ->
  StronglySorted lt (map GameRaw.lineIdx raws) ->
  Forall (fun r => GameRaw.lineIdx r < i) raws ->
  StronglySorted lt (map GameRaw.lineIdx (raws ++ [raw]))
  /\ Forall (fun r => GameRaw.lineIdx r < S i) (raws ++ [raw]).
Proof.
  intros E So F. split.
  - rewrite map_app. simpl. apply sorted_snoc; [exact So|].
    rewrite E. apply Forall_map. exact F.
  - apply Forall_app. split.
    + apply (Forall_lt_weaken _ _ i); [lia | exact F].
    + constructor; [lia | constructor].
Qed.

Lemma V1_rows_layout (lines ls : list jsstring) (i : nat)
    (currentSection : jsstring) (raws out : list GameRaw.t) :
  (forall k, nth_error ls k = nth_error lines (i + k)) ->
  currentSection = section_before V1.isHeaderSection lines i ->
  V1.rows ls i currentSection raws = Returns out ->
  StronglySorted lt (map GameRaw.lineIdx raws) ->
  Forall (fun r => GameRaw.lineIdx r < i) raws ->
  Forall (fun r => GameRaw.section r
                   = section_before V1.isHeaderSection lines (GameRaw.lineIdx r))
    raws ->
  StronglySorted lt (map GameRaw.lineIdx out)
  /\ Forall (fun r => GameRaw.section r
                      = section_before V1.isHeaderSection lines (GameRaw.lineIdx r))
       out.
Proof.
  revert i currentSection raws.
  induction ls as [|line ls IH]; intros i sec raws Hidx Hsec; simpl.
  { intros E. injection E as <-. auto. }
  assert (Hline : nth_error lines i = Some line).
  { specialize (Hidx 0). simpl in Hidx. rewrite Hidx. f_equal. lia. }
  assert (Hnext : forall k, nth_error ls k = nth_error lines (S i + k)).
  { intros k. specialize (Hidx (S k)). simpl in Hidx. rewrite Hidx.
    f_equal. lia. }
  pose proof (section_before_step V1.isHeaderSection _ _ _ Hline) as Step.
  assert (W : forall l : list GameRaw.t,
             Forall (fun r => GameRaw.lineIdx r < i) l ->
             Forall (fun r => GameRaw.lineIdx r < S i) l).
  { intros l. apply Forall_lt_weaken. lia. }
  destruct (V1.isHeaderSection line) eqn:Hd.
  { intros E So F Q. apply (IH _ _ _ Hnext (eq_sym Step) E So (W _ F) Q). }
  rewrite <- Hsec in Step.
  destruct (negb (isRowStart line)).
  { intros E So F Q. apply (IH _ _ _ Hnext (eq_sym Step) E So (W _ F) Q). }
  destruct (re_match re_type_rest line) as [m|] eqn:M.
  2:{ intros E So F Q. apply (IH _ _ _ Hnext (eq_sym Step) E So (W _ F) Q). }
  destruct (type_rest_match _ _ M) as [code [rest [RS [G1 G2]]]].
  rewrite G1, G2. simpl.
  destruct (re_match re_date_time rest) as [dt|] eqn:D.
  - destruct (date_time_match _ _ D) as [g1 [g2 [g3 [g4 [FP [E1 [E2 [E3 E4]]]]]]]].
    rewrite E1, E2, E3, E4. simpl. intros E So F Q.
    match type of E with V1.rows _ _ _ (_ ++ [?raw]) = _ =>
      destruct (ordered_snoc raws raw i eq_refl So F) as [So' F'] end.
    apply (IH _ _ _ Hnext (eq_sym Step) E So' F').
    apply Forall_app. split; [exact Q|]. constructor; [|constructor].
    simpl. exact Hsec.
  - simpl. intros E So F Q.
    match type of E with V1.rows _ _ _ (_ ++ [?raw]) = _ =>
      destruct (ordered_snoc raws raw i eq_refl So F) as [So' F'] end.
    apply (IH _ _ _ Hnext (eq_sym Step) E So' F').
    apply Forall_app. split; [exact Q|]. constructor; [|constructor].
    simpl. exact Hsec.
Qed.

Lemma V2_rows_layout (lines : list jsstring) (fuel i : nat)
    (currentSection : jsstring) (raws out : list GameRaw.t) :
  Forall (fun l => l <> []) lines ->
  currentSection = section_before V2.isHeaderSection lines i ->
  V2.rows fuel lines i currentSection raws = Some (Returns out) ->
  StronglySorted lt (map GameRaw.lineIdx raws) ->
  Forall (fun r => GameRaw.lineIdx r < i) raws ->
  Forall (fun r => GameRaw.section r
                   = section_before V2.isHeaderSection lines (GameRaw.lineIdx r)
                   /\ GameRaw.venue r = venue_text lines (GameRaw.lineIdx r))
    raws ->
  StronglySorted lt (map GameRaw.lineIdx out)
  /\ Forall (fun r => GameRaw.section r
                      = section_before V2.isHeaderSection lines (GameRaw.lineIdx r)
                      /\ GameRaw.venue r = venue_text lines (GameRaw.lineIdx r))
       out.
Proof.
  intros NE. revert i currentSection raws.
  induction fuel as [|fuel IH]; intros i sec raws Hsec; simpl.
  { destruct (nth_error lines i); [discriminate|].
    intros E. injection E as <-. auto. }
  destruct (nth_error lines i) as [line|] eqn:Hline.
  2:{ intros E. injection E as <-. auto. }
  pose proof (section_before_step V2.isHeaderSection _ _ _ Hline) as Step.
  assert (W : forall (l : list GameRaw.t) (j : nat), i <= j ->
             Forall (fun r => GameRaw.lineIdx r < i) l ->
             Forall (fun r => GameRaw.lineIdx r < j) l).
  { intros l j. apply Forall_lt_weaken. }
  destruct (V2.isHeaderSection line) eqn:Hd.
  { intros E So F Q. apply (IH _ _ _ (eq_sym Step) E So (W _ (S i) ltac:(lia) F) Q). }
  rewrite <- Hsec in Step.
  destruct (negb (isRowStart line)).
  { intros E So F Q. apply (IH _ _ _ (eq_sym Step) E So (W _ (S i) ltac:(lia) F) Q). }
  destruct (re_match re_type_rest line) as [m|] eqn:M.
  2:{ intros E So F Q. apply (IH _ _ _ (eq_sym Step) E So (W _ (S i) ltac:(lia) F) Q). }
  destruct (type_rest_match _ _ M) as [code [rest [RS [G1 G2]]]].
  rewrite G1, G2. simpl.
  destruct (re_match re_date_time rest) as [dt|] eqn:D.
  2:{ intros E So F Q. apply (IH _ _ _ (eq_sym Step) E So (W _ (S i) ltac:(lia) F) Q). }
  destruct (date_time_match _ _ D) as [g1 [g2 [g3 [g4 [FP [E1 [E2 [E3 E4]]]]]]]].
  rewrite E1, E2, E3, E4. simpl.
  pose proof (venue_lines_text lines i NE) as V.
  pose proof (venue_lines_spec (skipn (S i) lines) (S i) []) as J.
  pose proof (section_before_continuation lines (skipn (S i) lines) (S i) eq_refl)
    as C.
  destruct (V2.venue_lines (skipn (S i) lines) (S i) []) as [venue j].
  simpl in V.
  match type of C with section_before _ _ ?n = _ =>
    assert (J' : j = n) by (injection J as _ J; exact J) end.
  clear J. subst j.
  match type of C with section_before _ _ ?n = _ =>
    replace (S (n - 1)) with n by lia end.
  rewrite Step in C.
  intros E So F Q.
  match type of E with V2.rows _ _ _ _ (_ ++ [?raw]) = _ =>
    destruct (ordered_snoc raws raw i eq_refl So F) as [So' F'] end.
  apply (IH _ _ _ (eq_sym C) E So').
  - apply (Forall_lt_weaken _ _ (S i)); [lia | exact F'].
  - apply Forall_app. split; [exact Q|]. constructor; [|constructor].
    simpl. split; [exact Hsec | exact V].
Qed.

(** X18.  In both variants the tokenizer returns the rows in the order of
    their lines, at most one row for a line, and every row carries the
    section in force at its line: the last header line before it, or the
    empty string when no header comes before it. *)
Theorem rows_follow_lines_and_sections :
  forall (txt : jsstring) (raws1 raws2 : list GameRaw.t),
    V1.tokenize txt = Returns raws1 ->
    V2.tokenize txt = Returns raws2 ->
    (StronglySorted lt (map GameRaw.lineIdx raws1)
     /\ forall r, In r raws1 ->
          GameRaw.section r
          = section_before V1.isHeaderSection (input_lines txt)
              (GameRaw.lineIdx r))
    /\ (StronglySorted lt (map GameRaw.lineIdx raws2)
        /\ forall r, In r raws2 ->
             GameRaw.section r
             = section_before V2.isHeaderSection (input_lines txt)
                 (GameRaw.lineIdx r)).
Proof.
  intros txt raws1 raws2 T1 T2. split.
  - destruct (V1_rows_layout (input_lines txt) (input_lines txt) 0 [] [] raws1)
      as [So Q]; try (constructor; fail); try reflexivity; [exact T1|].
    split; [exact So|]. rewrite Forall_forall in Q. exact Q.
  - destruct (V2_tokenize_returns txt) as [out [R T']].
    rewrite T2 in T'. injection T' as <-.
    destruct (V2_rows_layout _ _ _ _ _ _ (input_lines_nonempty txt) eq_refl R)
      as [So Q]; try (constructor; fail).
    split; [exact So|]. rewrite Forall_forall in Q. intros r Hr.
    exact (proj1 (Q r Hr)).
Qed.

Lemma rows_follow_lines_and_sections_witness :
  V1.tokenize sample_text = Returns sample_rows_v1
  /\ V2.tokenize sample_text = Returns sample_rows
  /\ StronglySorted lt (map GameRaw.lineIdx sample_rows)
  /\ forall r, In r sample_rows ->
       GameRaw.section r
       = section_before V2.isHeaderSection (input_lines sample_text)
           (GameRaw.lineIdx r).
Proof.
  assert (T1 : V1.tokenize sample_text = Returns sample_rows_v1)
    by (vm_compute; reflexivity).
  assert (T2 : V2.tokenize sample_text = Returns sample_rows)
    by (vm_compute; reflexivity).
  split; [exact T1 | split; [exact T2|]].
  exact (proj2 (rows_follow_lines_and_sections sample_text sample_rows_v1
                  sample_rows T1 T2)).
Defined.

Lemma V2_map_section (H : Host) (r : GameRaw.t) (ps : list jsstring)
    (g : GameItem.t) :
  fst (V2.mapRawToGame r ps) = Some g ->
  GameItem.section g = GameRaw.section r.
Proof.
  unfold V2.mapRawToGame.
  destruct (str_eqb _ SPIELFREI); [discriminate|].
  destruct (detectHomeAndSplit (GameRaw.pairing r) ps) as [sp ps'].
  simpl. intros E. injection E as <-. reflexivity.
Qed.

(** X19.  In the second variant the venue of a record is the text of the
    lines that follow the line of its row up to the next row start or
    header, joined by single spaces and trimmed, without the lines that
    begin with [Kursiv], [Ergebnisse], [VEREINSSPIELPLAN] or [Seite];
    such a line is left out and does not end the venue.  The section of the
    record is the last header line before the line of its row. *)
Theorem second_variant_venue_and_section :
  forall (H : Host) (txt : jsstring) (prefixes prefixes' : list jsstring)
         (games : list GameItem.t) (g : GameItem.t),
    V2.parseBFVText txt prefixes = Returns (games, prefixes') ->
    In g games ->
    exists raws r,
      V2.tokenize txt = Returns raws /\ In r raws
      /\ fst (V2.mapRawToGame r prefixes) = Some g
      /\ GameItem.venue g = venue_text (input_lines txt) (GameRaw.lineIdx r)
      /\ GameItem.section g
         = section_before V2.isHeaderSection (input_lines txt)
             (GameRaw.lineIdx r).
Proof.
  intros H txt ps ps' games g P Hin.
  destruct (V2_record_row _ _ _ _ _ P Hin) as [raws [r [T [Hr M]]]].
  exists raws, r. repeat split; auto.
  all: destruct (V2_tokenize_returns txt) as [out [R T']];
    rewrite T in T'; injection T' as <-;
    destruct (V2_rows_layout _ _ _ _ _ _ (input_lines_nonempty txt) eq_refl R)
      as [_ Q]; try (constructor; fail);
    rewrite Forall_forall in Q; destruct (Q r Hr) as [Qs Qv].
  - apply V2_map_some in M as [_ [_ [Ev _]]]. now rewrite Ev.
  - rewrite (V2_map_section _ _ _ _ M). exact Qs.
Qed.

Lemma second_variant_venue_and_section_witness :
  V2.parseBFVText (H := latin1_host) sample_text OUR_TEAM_PREFIXES
  = Returns (sample_games, sorted_prefixes)
  /\ In sample_home_game sample_games
  /\ exists raws r,
       V2.tokenize sample_text = Returns raws /\ In r raws
       /\ fst (V2.mapRawToGame (H := latin1_host) r OUR_TEAM_PREFIXES)
          = Some sample_home_game
       /\ GameItem.venue sample_home_game
          = venue_text (input_lines sample_text) (GameRaw.lineIdx r)
       /\ GameItem.section sample_home_game
          = section_before V2.isHeaderSection (input_lines sample_text)
              (GameRaw.lineIdx r).
Proof.
  assert (P : V2.parseBFVText (H := latin1_host) sample_text OUR_TEAM_PREFIXES
              = Returns (sample_games, sorted_prefixes))
    by (vm_compute; reflexivity).
  assert (Hin : In sample_home_game sample_games)
    by (vm_compute; auto).
  split; [exact P | split; [exact Hin|]].
  exact (second_variant_venue_and_section latin1_host sample_text
           OUR_TEAM_PREFIXES sorted_prefixes sample_games sample_home_game
           P Hin).
Defined.

(** ** The two field suggesters *)

(** X20.  The suggester of the second variant extends that of the first:
    where the first suggests a field, the second suggests the same one,
    and where the first suggests none, the second suggests one exactly for
    a venue that names the [sportgel\u00E4nde], the pitch that the venue
    names. *)
Theorem second_suggester_extends_first :
  forall (H : Host) (venue : jsstring),
    (forall f : FieldName,
        V1.suggestFieldFromVenue venue = Some f ->
        V2.suggestFieldFromVenue venue = Some f)
    /\ (V1.suggestFieldFromVenue venue = None ->
        V2.suggestFieldFromVenue venue
        = if includes (toLowerCase venue) (u "sportgel" ++ [228%N] ++ u "nde")
          then Some (pitch_field (toLowerCase venue)) else None).
Proof.
  intros H venue. unfold V1.suggestFieldFromVenue, V2.suggestFieldFromVenue.
  unfold pitch_field. cbv zeta.
  destruct (includes (toLowerCase venue) (u "frimmersdorf"));
    [split; [auto | discriminate]|].
  destruct (includes (toLowerCase venue) (u "vestenbergsgreuth"));
    [split; [auto | discriminate]|].
  destruct (includes (toLowerCase venue) (u "weisendorf")
            && includes (toLowerCase venue) (u "kunstrasen"));
    [split; [auto | discriminate]|].
  destruct (includes (toLowerCase venue) (u "am sonnenh" ++ [252%N] ++ u "gel")).
  - simpl. split; [auto|].
    destruct (includes (toLowerCase venue) (u "platz 1")); [discriminate|].
    destruct (includes (toLowerCase venue) (u "platz 2")); [discriminate|].
    destruct (includes (toLowerCase venue) (u "platz 3")); discriminate.
  - simpl. split; [discriminate|]. intros _.
    repeat match goal with
           | |- context [includes ?a ?b] => destruct (includes a b)
           end; reflexivity.
Qed.

Lemma second_suggester_extends_first_witness :
  V1.suggestFieldFromVenue (H := latin1_host)
    (u "Am Sonnenh" ++ [252%N] ++ u "gel, Platz 2") = Some Field_B
  /\ V2.suggestFieldFromVenue (H := latin1_host)
       (u "Am Sonnenh" ++ [252%N] ++ u "gel, Platz 2") = Some Field_B.
Proof.
  assert (E : V1.suggestFieldFromVenue (H := latin1_host)
                (u "Am Sonnenh" ++ [252%N] ++ u "gel, Platz 2") = Some Field_B)
    by (vm_compute; reflexivity).
  split; [exact E|].
  exact (proj1 (second_suggester_extends_first latin1_host _) Field_B E).
Defined.

(** ** Completeness of the matcher *)

Lemma star_run_complete (g : bool) (p : N -> bool) (cs : list (nat * jsstring))
    (w s' : jsstring) (n : nat) :
  forallb p w = true ->
  In {| pos := n + List.length w; rest := s'; caps := cs |}
     (star_run g p n (w ++ s') cs).
Proof.
  revert n. induction w as [|c w IH]; intros n F.
  - simpl. replace (n + 0) with n by lia.
    destruct s' as [|d s']; simpl; [now left|].
    destruct (p d); [|now left].
    destruct g; [apply in_or_app; right; now left | now left].
  - simpl in F. apply andb_true_iff in F as [Pc F]. simpl. rewrite Pc.
    replace (n + S (List.length w)) with (S n + List.length w) by lia.
    destruct g; [apply in_or_app; left | right]; now apply IH.
Qed.

(** The matcher reaches the state behind every string of the language of
    a regular expression without anchors. *)
Lemma run_complete (r : regex) :
  anchor_free r = true ->
  forall (w : jsstring) (st : mstate) (s' : jsstring),
    lang r w -> rest st = w ++ s' ->
    exists st', In st' (run r st) /\ rest st' = s'
                /\ pos st' = pos st + List.length w.
Proof.
  induction r as [|p|r1 IH1 r2 IH2|r1 IH1 r2 IH2|g p|n r1 IH1| |];
    simpl; intros A w st s' L R; try discriminate.
  - subst w. exists st. simpl in R. repeat split; [now left | exact R | simpl; lia].
  - destruct L as [c [-> Pc]]. simpl in R. rewrite R, Pc.
    eexists. split; [now left|]. simpl. split; [reflexivity | lia].
  - apply andb_true_iff in A as [A1 A2].
    destruct L as [l1 [l2 [-> [L1 L2]]]]. rewrite <- app_assoc in R.
    destruct (IH1 A1 _ _ _ L1 R) as [st1 [H1 [R1 P1]]].
    destruct (IH2 A2 _ _ _ L2 R1) as [st2 [H2 [R2 P2]]].
    exists st2. repeat split; [|exact R2|rewrite length_app; lia].
    apply in_flat_map. now exists st1.
  - apply andb_true_iff in A as [A1 A2]. destruct L as [L | L].
    + destruct (IH1 A1 _ _ _ L R) as [st1 [H1 [R1 P1]]].
      exists st1. repeat split; auto. apply in_or_app. now left.
    + destruct (IH2 A2 _ _ _ L R) as [st1 [H1 [R1 P1]]].
      exists st1. repeat split; auto. apply in_or_app. now right.
  - rewrite R. eexists. split; [apply (star_run_complete g p _ w s' _ L)|].
    simpl. split; reflexivity.
  - destruct (IH1 A _ _ _ L R) as [st1 [H1 [R1 P1]]].
    exists (close_group n st st1). repeat split; auto.
    apply in_map_iff. now exists st1.
Qed.

Lemma exec_from_complete (r : regex) (a t : jsstring) (n : nat) (st' : mstate) :
  In st' (run r {| pos := n + List.length a; rest := t; caps := [] |}) ->
  exists m, exec_from r n (a ++ t) = Some m.
Proof.
  revert n. induction a as [|c a IH]; intros n Hin.
  - simpl in Hin. replace (n + 0) with n in Hin by lia. simpl app.
    destruct t as [|d t]; simpl;
      destruct (run r _) as [|st l]; [destruct Hin | | destruct Hin |];
      now eexists.
  - simpl app. simpl exec_from.
    destruct (run r {| pos := n; rest := c :: a ++ t; caps := [] |});
      [|now eexists].
    apply IH. simpl in Hin.
    now replace (S n + List.length a) with (n + S (List.length a)) by lia.
Qed.

Lemma exec_from_sound (r : regex) (s : jsstring) (n : nat) (m : rmatch) :
  exec_from r n s = Some m ->
  exists a t, s = a ++ t
              /\ In (m_end m)
                   (run r {| pos := n + List.length a; rest := t; caps := [] |}).
Proof.
  revert n. induction s as [|c s IH]; intros n; simpl.
  - destruct (run r _) as [|st l] eqn:R; [discriminate|].
    intros E. injection E as <-. exists [], []. simpl.
    replace (n + 0) with n by lia. rewrite R. split; [reflexivity | now left].
  - destruct (run r _) as [|st l] eqn:R.
    + intros E. destruct (IH _ E) as [a [t [-> Hin]]].
      exists (c :: a), t. split; [reflexivity|]. simpl.
      now replace (n + S (List.length a)) with (S n + List.length a) by lia.
    + intros E. injection E as <-. exists [], (c :: s). simpl.
      replace (n + 0) with n by lia. rewrite R. split; [reflexivity | now left].
Qed.

(** [r.test(s)] for a regular expression without anchors: some part of
    [s] is in the language of [r]. *)
Lemma re_test_unanchored (r : regex) (s : jsstring) :
  anchor_free r = true ->
  re_test r s = true <-> exists a w b, s = a ++ w ++ b /\ lang r w.
Proof.
  intros A. unfold re_test, re_match. split.
  - destruct (exec_from r 0 s) as [m|] eqn:E; [|discriminate]. intros _.
    destruct (exec_from_sound _ _ _ _ E) as [a [t [-> Hin]]].
    destruct (run_sound _ _ _ Hin) as [w [R [_ L]]]. simpl in R.
    exists a, w, (rest (m_end m)). now rewrite R.
  - intros [a [w [b [-> L]]]].
    destruct (run_complete r A w
                {| pos := 0 + List.length a; rest := w ++ b; caps := [] |} b L
                eq_refl) as [st' [Hin _]].
    destruct (exec_from_complete _ _ _ _ _ Hin) as [m ->]. reflexivity.
Qed.

(** [r.test(s)] for [^] before a regular expression without anchors: a
    prefix of [s] is in the language. *)
Lemma re_test_anchored (r : regex) (s : jsstring) :
  anchor_free r = true ->
  re_test (Seq Bol r) s = true <-> exists w b, s = w ++ b /\ lang r w.
Proof.
  intros A. unfold re_test. split.
  - destruct (re_match (Seq Bol r) s) as [m|] eqn:E; [|discriminate]. intros _.
    apply re_match_anchored in E.
    destruct (run_sound _ _ _ E) as [w [R [_ L]]]. simpl in R.
    exists w, (rest (m_end m)). now split.
  - intros [w [b [-> L]]].
    destruct (run_complete r A w {| pos := 0; rest := w ++ b; caps := [] |} b L
                eq_refl) as [st' [Hin _]].
    assert (Hin' : In st' (run (Seq Bol r)
                             {| pos := 0 + List.length (@nil N);
                                rest := w ++ b; caps := [] |})).
    { simpl. rewrite app_nil_r. exact Hin. }
    destruct (exec_from_complete _ [] _ _ _ Hin') as [m E].
    unfold re_match. simpl app in E. now rewrite E.
Qed.

Lemma lang_lit_ci (kw w : jsstring) : lang (lit_ci kw) w <-> ci_eqb kw w = true.
Proof.
  revert w. induction kw as [|c kw IH]; intros w.
  - simpl. destruct w; split; intros E; congruence.
  - destruct kw as [|c' kw].
    + simpl. split.
      * intros [x [-> Px]]. simpl. now rewrite Px.
      * destruct w as [|x [|y w]]; simpl; try discriminate.
        -- intros E. rewrite andb_true_r in E. now exists x.
        -- rewrite andb_false_r. discriminate.
    + change (lit_ci (c :: c' :: kw)) with (Seq (chr_ci c) (lit_ci (c' :: kw))).
      cbn [lang]. split.
      * intros [l1 [l2 [-> [[x [-> Px]] L2]]]]. apply IH in L2.
        change (ci_eqb (c :: c' :: kw) ([x] ++ l2))
          with ((x <? 256)%N && cu_eqb (canonicalize c) (canonicalize x)
                && ci_eqb (c' :: kw) l2).
        cbv beta in Px. now rewrite Px, L2.
      * destruct w as [|x w]; [discriminate|].
        change (ci_eqb (c :: c' :: kw) (x :: w))
          with ((x <? 256)%N && cu_eqb (canonicalize c) (canonicalize x)
                && ci_eqb (c' :: kw) w).
        intros E. apply andb_true_iff in E as [Px E].
        exists [x], w. split; [reflexivity|]. split; [now exists x|].
        now apply IH.
Qed.

Lemma lang_alts (rs : list regex) (w : jsstring) :
  rs <> [] -> lang (alts rs) w <-> Exists (fun r => lang r w) rs.
Proof.
  induction rs as [|r rs IH]; intros NE; [congruence|].
  destruct rs as [|r' rs].
  - simpl. split; [intros L; now constructor|].
    intros E. inversion E as [? ? L | ? ? E']; subst; [exact L | inversion E'].
  - change (alts (r :: r' :: rs)) with (Alt r (alts (r' :: rs))). cbn [lang].
    rewrite IH by discriminate. split.
    + intros [L | E]; [now constructor | now apply Exists_cons_tl].
    + intros E. inversion E; subst; auto.
Qed.

Lemma lang_re_header (w : jsstring) :
  lang V2.re_header w <-> exists kw, In kw header_keywords /\ ci_eqb kw w = true.
Proof.
  change V2.re_header with (Group 1 (alts (map lit_ci header_keywords))).
  cbn [lang]. rewrite lang_alts by discriminate. rewrite Exists_exists. split.
  - intros [r [Hr L]]. apply in_map_iff in Hr as [kw [<- Hkw]].
    exists kw. split; [exact Hkw | now apply lang_lit_ci].
  - intros [kw [Hkw E]]. exists (lit_ci kw). split;
      [now apply in_map | now apply lang_lit_ci].
Qed.

Lemma lang_type_code_iff (code : jsstring) :
  lang re_type_code code <-> In code type_codes.
Proof.
  split; [apply lang_type_code|].
  intros [<- | [<- | [<- | []]]]; simpl; unfold chr; simpl.
  - left. exists [70%N], [83%N]. repeat split; eexists; split;
      try reflexivity; apply cu_eqb_eq; reflexivity.
  - right. left. exists [77%N], [69%N]. repeat split; eexists; split;
      try reflexivity; apply cu_eqb_eq; reflexivity.
  - right. right. exists [80%N], [79%N]. repeat split; eexists; split;
      try reflexivity; apply cu_eqb_eq; reflexivity.
Qed.

Lemma isRowStart_shape (l : jsstring) :
  isRowStart l = true
  <-> exists code c rest,
        In code type_codes /\ isWhiteSpace c = true /\ l = code ++ c :: rest.
Proof.
  unfold isRowStart.
  change re_row_start with (Seq Bol (Seq re_type_code re_s_plus)).
  rewrite re_test_anchored by reflexivity. split.
  - intros [w [b [-> [code [ws [-> [Lc Ls]]]]]]].
    apply lang_type_code_iff in Lc.
    destruct Ls as [l1 [l2 [-> [[c [-> Wc]] _]]]].
    exists code, c, (l2 ++ b). repeat split; auto.
    now rewrite <- !app_assoc.
  - intros [code [c [rest [Hc [Wc ->]]]]].
    exists (code ++ [c]), rest. split; [now rewrite <- app_assoc|].
    exists code, [c]. split; [reflexivity|].
    split; [now apply lang_type_code_iff|].
    exists [c], []. repeat split. now exists c.
Qed.

(** X21.  A line starts a row exactly when it begins with one of the type
    codes [FS], [ME] and [PO] and a white-space character follows the
    code. *)
Theorem row_start_test :
  forall l : jsstring,
    isRowStart l = true
    <-> exists code c rest,
          In code type_codes /\ isWhiteSpace c = true /\ l = code ++ c :: rest.
Proof. exact isRowStart_shape. Qed.

(** X22.  The header test of the second variant holds exactly for a line
    that contains one of its keywords somewhere, in any case of the
    letters. *)
Theorem second_variant_header_test :
  forall l : jsstring,
    V2.isHeaderSection l = true
    <-> exists a k b kw,
          l = a ++ k ++ b /\ In kw header_keywords /\ ci_eqb kw k = true.
Proof.
  intros l. unfold V2.isHeaderSection.
  rewrite re_test_unanchored by reflexivity. split.
  - intros [a [w [b [-> L]]]]. apply lang_re_header in L as [kw [Hkw E]].
    now exists a, w, b, kw.
  - intros [a [k [b [kw [-> [Hkw E]]]]]]. exists a, k, b.
    split; [reflexivity|]. apply lang_re_header. now exists kw.
Qed.

(** ** The first match *)

Lemma first_seq (r1 r2 : regex) (st x y : mstate) :
  hd_error (run r1 st) = Some x -> hd_error (run r2 x) = Some y ->
  hd_error (run (Seq r1 r2) st) = Some y.
Proof.
  simpl. destruct (run r1 st) as [|x' tl]; [discriminate|].
  simpl. intros E. injection E as ->.
  destruct (run r2 x) as [|y' tl']; [discriminate|]. simpl. trivial.
Qed.

Lemma first_group (n : nat) (r : regex) (st x : mstate) :
  hd_error (run r st) = Some x ->
  hd_error (run (Group n r) st) = Some (close_group n st x).
Proof.
  simpl. destruct (run r st) as [|x' tl]; [discriminate|].
  simpl. intros E. now injection E as ->.
Qed.

Lemma first_chr (p : N -> bool) (st : mstate) (c : N) (s : jsstring) :
  rest st = c :: s -> p c = true ->
  hd_error (run (Chr p) st) = Some (advance st s).
Proof. simpl. intros -> ->. reflexivity. Qed.

Lemma first_eol (st : mstate) :
  rest st = [] -> hd_error (run Eol st) = Some st.
Proof. simpl. intros ->. reflexivity. Qed.

Lemma first_star_greedy (p : N -> bool) (w s' : jsstring) (n : nat)
    (cs : list (nat * jsstring)) :
  forallb p w = true ->
  match s' with [] => True | c :: _ => p c = false end ->
  hd_error (star_run true p n (w ++ s') cs)
  = Some {| pos := n + List.length w; rest := s'; caps := cs |}.
Proof.
  revert n. induction w as [|c w IH]; intros n F E.
  - simpl. replace (n + 0) with n by lia.
    destruct s' as [|d s']; simpl; [reflexivity|]. now rewrite E.
  - simpl in F. apply andb_true_iff in F as [Pc F]. simpl. rewrite Pc.
    specialize (IH (S n) F E).
    destruct (star_run true p (S n) (w ++ s') cs) as [|x tl]; [discriminate|].
    simpl in *. rewrite IH. do 2 f_equal. lia.
Qed.

Lemma exec_from_first (r : regex) (n : nat) (s : jsstring) (z : mstate) :
  hd_error (run r {| pos := n; rest := s; caps := [] |}) = Some z ->
  exec_from r n s = Some {| m_index := n; m_end := z |}.
Proof.
  destruct s as [|c s]; simpl;
    (destruct (run r _) as [|z' tl]; [discriminate|]);
    simpl; intros E; now injection E as ->.
Qed.

Lemma flat_map_map (A B C : Type) (f : B -> list C) (g : A -> B) (l : list A) :
  flat_map f (map g l) = flat_map (fun x => f (g x)) l.
Proof. induction l as [|x l IH]; simpl; [reflexivity | now rewrite IH]. Qed.

(** A lazy repetition tries the shorter repetitions first; when what
    follows fails behind each of them, the first match is behind the
    whole of [w]. *)
Lemma lazy_star_skip (p : N -> bool) (f : mstate -> list mstate)
    (w s : jsstring) (n : nat) (cs : list (nat * jsstring)) :
  forallb p w = true ->
  (forall a b, w = a ++ b -> b <> [] ->
     f {| pos := n + List.length a; rest := b ++ s; caps := cs |} = []) ->
  hd_error (flat_map f (star_run false p n (w ++ s) cs))
  = hd_error (f {| pos := n + List.length w; rest := s; caps := cs |}
              ++ flat_map f (tl (star_run false p (n + List.length w) s cs))).
Proof.
  revert n. induction w as [|c w IH]; intros n F Fail.
  - simpl. replace (n + 0) with n by lia.
    destruct s as [|d s]; simpl; [reflexivity|].
    destruct (p d); reflexivity.
  - simpl in F. apply andb_true_iff in F as [Pc F]. simpl. rewrite Pc. simpl.
    pose proof (Fail [] (c :: w) eq_refl ltac:(discriminate)) as F0.
    simpl in F0. replace (n + 0) with n in F0 by lia. rewrite F0. simpl.
    replace (n + S (List.length w)) with (S n + List.length w) by lia.
    apply IH; [exact F|]. intros a b E Hb.
    specialize (Fail (c :: a) b). simpl in Fail.
    replace (n + S (List.length a)) with (S n + List.length a) in Fail by lia.
    apply Fail; [now rewrite E | exact Hb].
Qed.

Lemma run_complete_end (r : regex) :
  end_ok r = true ->
  forall (w : jsstring) (st : mstate),
    lang r w -> rest st = w -> exists st', In st' (run r st).
Proof.
  induction r as [|p|r1 IH1 r2 IH2|r1 IH1 r2 IH2|g p|n r1 IH1| |];
    simpl; intros A w st L R; try discriminate.
  - exists st. now left.
  - destruct L as [c [-> Pc]]. rewrite R, Pc. eexists. now left.
  - apply andb_true_iff in A as [A1 A2].
    destruct L as [l1 [l2 [-> [L1 L2]]]].
    destruct (run_complete r1 A1 _ _ _ L1 R) as [st1 [H1 [R1 _]]].
    destruct (IH2 A2 _ _ L2 R1) as [st2 H2].
    exists st2. apply in_flat_map. now exists st1.
  - apply andb_true_iff in A as [A1 A2]. destruct L as [L | L].
    + destruct (IH1 A1 _ _ L R) as [st1 H1]. exists st1.
      apply in_or_app. now left.
    + destruct (IH2 A2 _ _ L R) as [st1 H1]. exists st1.
      apply in_or_app. now right.
  - assert (R' : rest st = w ++ []) by now rewrite app_nil_r.
    rewrite R'. eexists. apply (star_run_complete g p _ w [] _ L).
  - destruct (IH1 A _ _ L R) as [st1 H1].
    exists (close_group n st st1). apply in_map_iff. now exists st1.
  - subst w. rewrite R. exists st. now left.
Qed.

(** ** What the two patterns read from a well-formed line *)

Lemma type_rest_reads (line code rst : jsstring) :
  row_start line code rst -> starts_with_text rst = true ->
  exists m, re_match re_type_rest line = Some m
            /\ group m 1 = Some code /\ group m 2 = Some rst.
Proof.
  intros [ws [-> [Hc [Wn [Wf D]]]]] T.
  destruct ws as [|c ws]; [congruence|]. simpl in Wf.
  apply andb_true_iff in Wf as [Wc Wf].
  set (s1 := {| pos := 2; rest := (c :: ws) ++ rst; caps := [(1, code)] |}).
  assert (H1 : hd_error (run re_type_code
                           {| pos := 0; rest := code ++ (c :: ws) ++ rst;
                              caps := [] |}) = Some s1).
  { destruct Hc as [<- | [<- | [<- | []]]]; reflexivity. }
  set (s2 := {| pos := 3; rest := ws ++ rst; caps := [(1, code)] |}).
  assert (H2 : hd_error (run (Chr isWhiteSpace) s1) = Some s2).
  { apply (first_chr isWhiteSpace s1 c (ws ++ rst)); [reflexivity | exact Wc]. }
  set (s3 := {| pos := 3 + List.length ws; rest := rst; caps := [(1, code)] |}).
  assert (H3 : hd_error (run (Star true isWhiteSpace) s2) = Some s3).
  { apply (first_star_greedy isWhiteSpace ws rst 3 [(1, code)] Wf).
    destruct rst as [|d rst']; [trivial|]. simpl in T.
    now apply negb_true_iff in T. }
  set (s4 := {| pos := 3 + List.length ws + List.length rst; rest := [];
                caps := [(1, code)] |}).
  assert (H4 : hd_error (run (Group 2 re_dot_star) s3)
               = Some (close_group 2 s3 s4)).
  { apply first_group.
    pose proof (first_star_greedy isDot rst [] (3 + List.length ws)
                  [(1, code)] D I) as G.
    rewrite app_nil_r in G. exact G. }
  assert (H5 : hd_error (run Eol (close_group 2 s3 s4))
               = Some (close_group 2 s3 s4)) by (apply first_eol; reflexivity).
  exists {| m_index := 0; m_end := close_group 2 s3 s4 |}. split; [|split].
  - unfold re_match. apply exec_from_first.
    change re_type_rest
      with (Seq Bol (Seq re_type_code
                       (Seq re_s_plus (Seq (Group 2 re_dot_star) Eol)))).
    eapply first_seq; [reflexivity|].
    eapply first_seq; [exact H1|].
    eapply first_seq; [|eapply first_seq; [exact H4 | exact H5]].
    unfold re_s_plus. eapply first_seq; [exact H2 | exact H3].
  - reflexivity.
  - unfold group, close_group, s3, s4. cbn [m_end caps pos rest lookup_group Nat.eqb].
    replace (3 + List.length ws + List.length rst - (3 + List.length ws))
      with (List.length rst) by lia.
    now rewrite firstn_all.
Qed.

Lemma lang_seq (r1 r2 : regex) (l1 l2 : jsstring) :
  lang r1 l1 -> lang r2 l2 -> lang (Seq r1 r2) (l1 ++ l2).
Proof. intros L1 L2. now exists l1, l2. Qed.

Lemma lang_digit (c : N) : isDigit c = true -> lang re_d [c].
Proof. intros D. now exists c. Qed.

Lemma lang_chr (c : N) : lang (chr c) [c].
Proof. exists c. split; [reflexivity | now apply cu_eqb_eq]. Qed.

Lemma lang_d2 (a b : N) :
  isDigit a = true -> isDigit b = true -> lang re_d2 [a; b].
Proof. intros A B. apply (lang_seq re_d re_d [a] [b]); now apply lang_digit. Qed.

Lemma lang_lit (s : jsstring) : lang (lit s) s.
Proof.
  induction s as [|c s IH]; [reflexivity|].
  destruct s as [|d s]; [apply lang_chr|].
  change (lit (c :: d :: s)) with (Seq (chr c) (lit (d :: s))).
  apply (lang_seq _ _ [c] (d :: s)); [apply lang_chr | exact IH].
Qed.

Lemma lang_date (d : jsstring) : well_formed_date d = true -> lang re_date d.
Proof.
  destruct d as [|a [|b [|p [|c [|d [|q [|e [|f [|g [|h [|? ?]]]]]]]]]]];
    try discriminate.
  unfold well_formed_date. cbn [forallb]. intros W.
  apply andb_true_iff in W as [W Q]. apply andb_true_iff in W as [W P].
  apply cu_eqb_eq in P, Q. subst p q.
  apply andb_true_iff in W as [Da W]. apply andb_true_iff in W as [Db W].
  apply andb_true_iff in W as [Dc W]. apply andb_true_iff in W as [Dd W].
  apply andb_true_iff in W as [De W]. apply andb_true_iff in W as [Df W].
  apply andb_true_iff in W as [Dg W]. apply andb_true_iff in W as [Dh _].
  change (lang (Seq re_d2 (Seq (chr 46) (Seq re_d2 (Seq (chr 46)
                 (Seq re_d2 re_d2)))))
            ([a; b] ++ [46%N] ++ [c; d] ++ [46%N] ++ [e; f] ++ [g; h])).
  apply lang_seq; [now apply lang_d2|].
  apply lang_seq; [apply lang_chr|].
  apply lang_seq; [now apply lang_d2|].
  apply lang_seq; [apply lang_chr|].
  apply (lang_seq re_d2 re_d2 [e; f] [g; h]); now apply lang_d2.
Qed.

Lemma lang_time (t : jsstring) : well_formed_time t = true -> lang re_time t.
Proof.
  destruct t as [|a [|b [|p [|c [|d [|? ?]]]]]]; try discriminate.
  unfold well_formed_time. cbn [forallb]. intros W.
  apply andb_true_iff in W as [W P]. apply cu_eqb_eq in P. subst p.
  apply andb_true_iff in W as [Da W]. apply andb_true_iff in W as [Db W].
  apply andb_true_iff in W as [Dc W]. apply andb_true_iff in W as [Dd _].
  change (lang (Seq re_d2 (Seq (chr 58) re_d2)) ([a; b] ++ [58%N] ++ [c; d])).
  apply lang_seq; [now apply lang_d2|].
  apply (lang_seq (chr 58) re_d2 [58%N] [c; d]);
    [apply lang_chr | now apply lang_d2].
Qed.

Lemma lang_tail (w1 w2 w3 : N) (date kickoff pairing : jsstring) :
  isWhiteSpace w1 = true -> isWhiteSpace w2 = true -> isWhiteSpace w3 = true ->
  well_formed_date date = true ->
  well_formed_time kickoff = true \/ kickoff = SPIELFREI ->
  forallb isDot pairing = true ->
  lang re_date_time_tail
    ([w1] ++ date ++ [w2] ++ kickoff ++ [w3] ++ pairing ++ []).
Proof.
  intros W1 W2 W3 D K P.
  change re_date_time_tail
    with (Seq re_s (Seq (Group 2 re_date) (Seq re_s
            (Seq (Group 3 (Alt re_time (lit (u "SPIELFREI"))))
               (Seq re_s (Seq (Group 4 re_dot_star) Eol)))))).
  apply lang_seq; [now exists w1|].
  apply lang_seq; [now apply lang_date|].
  apply lang_seq; [now exists w2|].
  apply lang_seq.
  { destruct K as [K | ->]; [left; now apply lang_time | right; apply lang_lit]. }
  apply lang_seq; [now exists w3|].
  apply lang_seq; [exact P | reflexivity].
Qed.

(** A state that the tail of the date-time pattern reaches: the input
    before it was a date, a kickoff and a pairing behind single white-space
    characters, and these are the groups 2, 3 and 4. *)
Lemma tail_state (s1 z : mstate) :
  In z (run re_date_time_tail s1) ->
  exists w1 date w2 kickoff w3 pairing,
    rest s1 = [w1] ++ date ++ [w2] ++ kickoff ++ [w3] ++ pairing
    /\ isWhiteSpace w1 = true /\ isWhiteSpace w2 = true
    /\ isWhiteSpace w3 = true
    /\ well_formed_date date = true
    /\ (well_formed_time kickoff = true \/ kickoff = SPIELFREI)
    /\ forallb isDot pairing = true
    /\ caps z = (4, pairing) :: (3, kickoff) :: (2, date) :: caps s1.
Proof.
  intros E.
  apply run_seq in E as [s2 [H2 E]].
  apply run_seq in E as [s3 [H3 E]].
  apply run_seq in E as [s4 [H4 E]].
  apply run_seq in E as [s5 [H5 E]].
  apply run_seq in E as [s6 [H6 E]].
  apply run_seq in E as [s7 [H7 E]].
  apply run_eol in E as [E R].
  apply run_plain in H2 as [w1 [E2 [_ [L2 C2]]]]; [|reflexivity].
  apply run_group in H3 as [date [E3 [_ [L3 C3]]]]; [|reflexivity].
  apply run_plain in H4 as [w2 [E4 [_ [L4 C4]]]]; [|reflexivity].
  apply run_group in H5 as [kickoff [E5 [_ [L5 C5]]]]; [|reflexivity].
  apply run_plain in H6 as [w3 [E6 [_ [L6 C6]]]]; [|reflexivity].
  apply run_group in H7 as [pairing [E7 [_ [L7 C7]]]]; [|reflexivity].
  rewrite R, app_nil_r in E7.
  apply lang_re_s in L2 as [c1 [-> W1]].
  apply lang_re_s in L4 as [c2 [-> W2]].
  apply lang_re_s in L6 as [c3 [-> W3]].
  exists c1, date, c2, kickoff, c3, pairing. repeat split; auto.
  - rewrite E2, E3, E4, E5, E6, E7. reflexivity.
  - now apply lang_re_date.
  - now apply lang_re_kickoff.
  - rewrite E, C7, C6, C5, C4, C3, C2. reflexivity.
Qed.

Lemma app_same_length (A : Type) (a a' b b' : list A) :
  a ++ b = a' ++ b' -> List.length a = List.length a' -> a = a' /\ b = b'.
Proof.
  revert a'. induction a as [|x a IH]; intros [|x' a'] E L;
    try discriminate; simpl in *.
  - now split.
  - injection E as -> E. injection L as L.
    destruct (IH _ E L) as [-> ->]. now split.
Qed.

Lemma kickoff_unique (k k' t t' : jsstring) :
  k ++ t = k' ++ t' ->
  well_formed_time k = true \/ k = SPIELFREI ->
  well_formed_time k' = true \/ k' = SPIELFREI ->
  k = k' /\ t = t'.
Proof.
  intros E [K | ->] [K' | ->].
  - apply app_same_length; [exact E|].
    now rewrite (well_formed_time_length _ K), (well_formed_time_length _ K').
  - exfalso. destruct k as [|a [|b [|p [|c [|d [|? ?]]]]]]; try discriminate.
    injection E as -> _. discriminate.
  - exfalso. destruct k' as [|a [|b [|p [|c [|d [|? ?]]]]]]; try discriminate.
    injection E as <- _. discriminate.
  - now apply app_same_length.
Qed.

Lemma tail_unique (w1 w2 w3 v1 v2 v3 : N)
    (d k p d' k' p' : jsstring) :
  [w1] ++ d ++ [w2] ++ k ++ [w3] ++ p = [v1] ++ d' ++ [v2] ++ k' ++ [v3] ++ p' ->
  well_formed_date d = true -> well_formed_date d' = true ->
  well_formed_time k = true \/ k = SPIELFREI ->
  well_formed_time k' = true \/ k' = SPIELFREI ->
  d = d' /\ k = k' /\ p = p'.
Proof.
  intros E D D' K K'. simpl in E. injection E as _ E.
  apply app_same_length in E as [-> E];
    [|now rewrite (well_formed_date_length _ D), (well_formed_date_length _ D')].
  injection E as _ E.
  destruct (kickoff_unique _ _ _ _ E K K') as [-> E'].
  injection E' as _ ->. now repeat split.
Qed.

Lemma nonspace_prefix (g x : jsstring) (w : N) (t tail : jsstring) :
  x ++ w :: t = g ++ tail ->
  forallb (fun c => negb (isWhiteSpace c)) g = true ->
  isWhiteSpace w = true ->
  exists x', x = g ++ x'.
Proof.
  revert x. induction g as [|c g IH]; intros x E F W; [now exists x|].
  simpl in F. apply andb_true_iff in F as [Fc F].
  destruct x as [|y x]; simpl in E; injection E as -> E.
  - rewrite W in Fc. discriminate.
  - destruct (IH _ E F W) as [x' ->]. now exists x'.
Qed.

Lemma date_not_space (d : jsstring) :
  well_formed_date d = true ->
  forallb (fun c => negb (isWhiteSpace c)) d = true.
Proof.
  destruct d as [|a [|b [|p [|c [|d [|q [|e [|f [|g [|h [|? ?]]]]]]]]]]];
    try discriminate.
  unfold well_formed_date. cbn [forallb]. intros W.
  apply andb_true_iff in W as [W Q]. apply andb_true_iff in W as [W P].
  apply cu_eqb_eq in P, Q. subst p q.
  apply andb_true_iff in W as [Da W]. apply andb_true_iff in W as [Db W].
  apply andb_true_iff in W as [Dc W]. apply andb_true_iff in W as [Dd W].
  apply andb_true_iff in W as [De W]. apply andb_true_iff in W as [Df W].
  apply andb_true_iff in W as [Dg W]. apply andb_true_iff in W as [Dh _].
  rewrite (digit_not_space _ Da), (digit_not_space _ Db),
    (digit_not_space _ Dc), (digit_not_space _ Dd), (digit_not_space _ De),
    (digit_not_space _ Df), (digit_not_space _ Dg), (digit_not_space _ Dh).
  reflexivity.
Qed.

Lemma has_date_app (a d b : jsstring) :
  well_formed_date d = true -> has_date (a ++ d ++ b) = true.
Proof.
  intros D. induction a as [|x a IH].
  - pose proof (well_formed_date_length _ D) as L.
    assert (F : firstn 10 (d ++ b) = d).
    { rewrite firstn_app, L, Nat.sub_diag, <- L, firstn_all. simpl.
      apply app_nil_r. }
    destruct d as [|c d]; [discriminate|].
    change (has_date ([] ++ (c :: d) ++ b))
      with (well_formed_date (firstn 10 ((c :: d) ++ b))
            || has_date (d ++ b)).
    now rewrite F, D.
  - change (has_date ((x :: a) ++ d ++ b))
      with (well_formed_date (firstn 10 ((x :: a) ++ d ++ b))
            || has_date (a ++ d ++ b)).
    rewrite IH. apply orb_true_r.
Qed.

Lemma date_time_reads (rest label date kickoff pairing : jsstring) :
  full_pattern rest label date kickoff pairing -> has_date label = false ->
  exists m, re_match re_date_time rest = Some m
            /\ group m 1 = Some label /\ group m 2 = Some date
            /\ group m 3 = Some kickoff /\ group m 4 = Some pairing.
Proof.
  intros [w1 [w2 [w3 [-> [W1 [W2 [W3 [Dl [D [K P]]]]]]]]]] ND.
  set (tail := [w1] ++ date ++ [w2] ++ kickoff ++ [w3] ++ pairing).
  set (st0 := {| pos := 0; rest := label ++ tail; caps := [] |}).
  set (f := fun x => run re_date_time_tail (close_group 1 st0 x)).
  set (x1 := {| pos := 0 + List.length label; rest := tail; caps := [] |}).
  assert (C1 : caps (close_group 1 st0 x1) = [(1, label)]).
  { unfold close_group, x1, st0. cbn [caps pos rest].
    replace (0 + List.length label - 0) with (List.length label) by lia.
    rewrite firstn_app, Nat.sub_diag, firstn_all. simpl. now rewrite app_nil_r. }
  destruct (run_complete_end re_date_time_tail eq_refl _ (close_group 1 st0 x1)
              (lang_tail _ _ _ _ _ _ W1 W2 W3 D K P)) as [z0 Hz0].
  { unfold tail. now rewrite app_nil_r. }
  change (In z0 (f x1)) in Hz0.
  destruct (f x1) as [|z zs] eqn:Fz; [destruct Hz0|]. clear z0 Hz0.
  assert (Hz : In z (run re_date_time_tail (close_group 1 st0 x1))).
  { change (In z (f x1)). rewrite Fz. now left. }
  apply tail_state in Hz
    as [v1 [d' [v2 [k' [v3 [p' [E [_ [_ [_ [D' [K' [_ Cz]]]]]]]]]]]]].
  change (rest (close_group 1 st0 x1)) with tail in E. unfold tail in E.
  destruct (tail_unique _ _ _ _ _ _ _ _ _ _ _ _ E D D' K K') as [<- [<- <-]].
  rewrite C1 in Cz.
  assert (Fail : forall a b, label = a ++ b -> b <> [] ->
            f {| pos := 0 + List.length a; rest := b ++ tail; caps := [] |} = []).
  { intros a b El Hb.
    set (xa := {| pos := 0 + List.length a; rest := b ++ tail; caps := [] |}).
    destruct (f xa) as [|z' l] eqn:Fz'; [reflexivity | exfalso].
    assert (Hz' : In z' (f xa)) by (rewrite Fz'; now left).
    unfold f, xa in Hz'.
    apply tail_state in Hz'
      as [u1 [d2 [u2 [k2 [u3 [p2 [E2 [U1 [_ [_ [D2 _]]]]]]]]]]].
    cbn [close_group rest] in E2.
    destruct b as [|c b]; [congruence|].
    unfold tail in E2. simpl in E2. injection E2 as -> E2.
    destruct (nonspace_prefix d2 b w1 _ _ E2 (date_not_space _ D2) W1)
      as [x' ->].
    assert (HD : has_date ((a ++ [u1]) ++ d2 ++ x') = true)
      by now apply has_date_app.
    rewrite <- app_assoc in HD. simpl in HD. rewrite <- El in HD.
    congruence. }
  assert (H1 : hd_error (run (Seq (Group 1 re_dot_star_lazy) re_date_time_tail)
                           st0) = Some z).
  { cbn [run]. unfold re_dot_star_lazy. cbn [run].
    rewrite flat_map_map.
    change (hd_error (flat_map f (star_run false isDot 0 (label ++ tail) []))
            = Some z).
    rewrite (lazy_star_skip isDot f label tail 0 [] Dl Fail).
    fold x1. rewrite Fz. reflexivity. }
  exists {| m_index := 0; m_end := z |}. split.
  - unfold re_match. apply exec_from_first.
    change re_date_time
      with (Seq Bol (Seq (Group 1 re_dot_star_lazy) re_date_time_tail)).
    eapply first_seq; [reflexivity | exact H1].
  - unfold group. cbn [m_end]. rewrite Cz. repeat split.
Qed.

Lemma well_formed_line_reads (line code rst label date kickoff pairing : jsstring) :
  row_start line code rst -> starts_with_text rst = true ->
  full_pattern rst label date kickoff pairing -> has_date label = false ->
  line_reads line code label date kickoff pairing.
Proof.
  intros RS T FP ND. split.
  - destruct RS as [ws [-> [Hc [Wn [Wf _]]]]].
    destruct ws as [|c ws]; [congruence|]. simpl in Wf.
    apply andb_true_iff in Wf as [Wc _].
    apply isRowStart_shape. exists code, c, (ws ++ rst). now repeat split.
  - destruct (type_rest_reads _ _ _ RS T) as [m [M [G1 G2]]].
    destruct (date_time_reads _ _ _ _ _ FP ND) as [dt [D [E1 [E2 [E3 E4]]]]].
    exists m, rst, dt. now repeat split.
Qed.

Lemma V1_header_not_row_start (line : jsstring) :
  isRowStart line = true -> V1.isHeaderSection line = false.
Proof.
  intros R. apply isRowStart_shape in R as [code [c [rst [Hc [Wc ->]]]]].
  unfold V1.isHeaderSection.
  destruct Hc as [<- | [<- | [<- | []]]]; simpl app;
    cbn [replace_ws_runs]; rewrite Wc;
    change (isWhiteSpace 70) with false; change (isWhiteSpace 83) with false;
    change (isWhiteSpace 77) with false; change (isWhiteSpace 69) with false;
    change (isWhiteSpace 80) with false; change (isWhiteSpace 79) with false;
    reflexivity.
Qed.

(** ** The loops push a row for every line that the patterns read *)

Lemma V1_rows_mono (ls : list jsstring) (i : nat) (currentSection : jsstring)
    (raws out : list GameRaw.t) :
  V1.rows ls i currentSection raws = Returns out ->
  forall r, In r raws -> In r out.
Proof.
  revert i currentSection raws.
  induction ls as [|line ls IH]; intros i sec raws; simpl.
  { intros E. now injection E as <-. }
  destruct (V1.isHeaderSection line); [apply IH|].
  destruct (negb (isRowStart line)); [apply IH|].
  destruct (re_match re_type_rest line) as [m|] eqn:M; [|apply IH].
  destruct (type_rest_match _ _ M) as [code [rst [_ [G1 G2]]]].
  rewrite G1, G2. simpl.
  destruct (re_match re_date_time rst) as [dt|] eqn:D.
  - destruct (date_time_match _ _ D) as [g1 [g2 [g3 [g4 [_ [E1 [E2 [E3 E4]]]]]]]].
    rewrite E1, E2, E3, E4. simpl. intros E r Hr.
    apply (IH _ _ _ E). apply in_or_app. now left.
  - simpl. intros E r Hr. apply (IH _ _ _ E). apply in_or_app. now left.
Qed.

Lemma V1_rows_complete (code label date kickoff pairing line : jsstring)
    (ls : list jsstring) (i : nat) (currentSection : jsstring)
    (raws out : list GameRaw.t) (k : nat) :
  V1.rows ls i currentSection raws = Returns out ->
  nth_error ls k = Some line ->
  line_reads line code label date kickoff pairing ->
  exists r, In r out /\ row_fields r (i + k) code label date kickoff pairing.
Proof.
  intros R N [RS [m [rst [dt [M [G1 [G2 [D [E1 [E2 [E3 E4]]]]]]]]]]].
  revert i currentSection raws k R N.
  induction ls as [|l0 ls IH]; intros i sec raws k R N.
  { destruct k; discriminate. }
  destruct k as [|k].
  - simpl in N. injection N as ->. simpl in R.
    rewrite (V1_header_not_row_start _ RS), RS, M, G1, G2 in R. simpl in R.
    rewrite D, E1, E2, E3, E4 in R. simpl in R.
    eexists. split.
    + apply (V1_rows_mono _ _ _ _ _ R). apply in_or_app. right. now left.
    + unfold row_fields. simpl. repeat split. lia.
  - simpl in N.
    assert (Next : forall sec' raws',
               V1.rows ls (S i) sec' raws' = Returns out ->
               exists r, In r out
                         /\ row_fields r (i + S k) code label date kickoff pairing).
    { intros sec' raws' R'. destruct (IH _ _ _ _ R' N) as [r [Hr F]].
      exists r. split; [exact Hr|].
      now replace (i + S k) with (S i + k) by lia. }
    simpl in R.
    destruct (V1.isHeaderSection l0); [now apply (Next _ _ R)|].
    destruct (negb (isRowStart l0)); [now apply (Next _ _ R)|].
    destruct (re_match re_type_rest l0) as [m0|] eqn:M0; [|now apply (Next _ _ R)].
    destruct (type_rest_match _ _ M0) as [c0 [r0 [_ [H1 H2]]]].
    rewrite H1, H2 in R. simpl in R.
    destruct (re_match re_date_time r0) as [dt0|] eqn:D0.
    + destruct (date_time_match _ _ D0)
        as [g1 [g2 [g3 [g4 [_ [F1 [F2 [F3 F4]]]]]]]].
      rewrite F1, F2, F3, F4 in R. simpl in R. now apply (Next _ _ R).
    + simpl in R. now apply (Next _ _ R).
Qed.

Lemma V2_rows_mono (lines : list jsstring) (fuel i : nat)
    (currentSection : jsstring) (raws out : list GameRaw.t) :
  V2.rows fuel lines i currentSection raws = Some (Returns out) ->
  forall r, In r raws -> In r out.
Proof.
  revert i currentSection raws.
  induction fuel as [|fuel IH]; intros i sec raws; simpl.
  - destruct (nth_error lines i); [discriminate|].
    intros E. now injection E as <-.
  - destruct (nth_error lines i) as [line|] eqn:N.
    2:{ intros E. now injection E as <-. }
    destruct (V2.isHeaderSection line); [apply IH|].
    destruct (negb (isRowStart line)); [apply IH|].
    destruct (re_match re_type_rest line) as [m|] eqn:M; [|apply IH].
    destruct (type_rest_match _ _ M) as [code [rst [_ [G1 G2]]]].
    rewrite G1, G2. simpl.
    destruct (re_match re_date_time rst) as [dt|] eqn:D; [|apply IH].
    destruct (date_time_match _ _ D) as [g1 [g2 [g3 [g4 [_ [E1 [E2 [E3 E4]]]]]]]].
    rewrite E1, E2, E3, E4. simpl.
    destruct (V2.venue_lines (skipn (S i) lines) (S i) []) as [venue j].
    intros E r Hr. apply (IH _ _ _ E). apply in_or_app. now left.
Qed.

Lemma take_while_stop (A : Type) (p : A -> bool) (ls : list A) (m : nat) (x : A) :
  nth_error ls m = Some x -> p x = false -> List.length (take_while p ls) <= m.
Proof.
  revert m. induction ls as [|y ls IH]; intros [|m] N Px; simpl in *;
    try discriminate.
  - injection N as ->. rewrite Px. simpl. lia.
  - destruct (p y); simpl; [|lia]. specialize (IH _ N Px). lia.
Qed.

Lemma V2_rows_complete (code label date kickoff pairing line : jsstring)
    (lines : list jsstring) (k : nat) :
  nth_error lines k = Some line ->
  V2.isHeaderSection line = false ->
  line_reads line code label date kickoff pairing ->
  forall (fuel i : nat) (currentSection : jsstring) (raws out : list GameRaw.t),
    V2.rows fuel lines i currentSection raws = Some (Returns out) ->
    i <= k ->
    exists r, In r out /\ row_fields r k code label date kickoff pairing.
Proof.
  intros N Hd [RS [m [rst [dt [M [G1 [G2 [D [E1 [E2 [E3 E4]]]]]]]]]]].
  induction fuel as [|fuel IH]; intros i sec raws out R Hik; simpl in R.
  { destruct (nth_error lines i) eqn:Ni; [discriminate|].
    apply nth_error_None in Ni.
    assert (k < List.length lines) by (apply nth_error_Some; congruence). lia. }
  destruct (nth_error lines i) as [l0|] eqn:Ni.
  2:{ apply nth_error_None in Ni.
      assert (k < List.length lines) by (apply nth_error_Some; congruence). lia. }
  destruct (Nat.eq_dec i k) as [-> | Hne].
  - rewrite N in Ni. injection Ni as <-.
    rewrite Hd, RS, M, G1, G2 in R. simpl in R.
    rewrite D, E1, E2, E3, E4 in R. simpl in R.
    destruct (V2.venue_lines (skipn (S k) lines) (S k) []) as [venue j].
    eexists. split.
    + apply (V2_rows_mono _ _ _ _ _ _ R). apply in_or_app. right. now left.
    + unfold row_fields. simpl. now repeat split.
  - assert (Next : forall j sec' raws',
               V2.rows fuel lines j sec' raws' = Some (Returns out) -> j <= k ->
               exists r, In r out
                         /\ row_fields r k code label date kickoff pairing)
      by (intros j sec' raws' R' Hj; exact (IH _ _ _ _ R' Hj)).
    destruct (V2.isHeaderSection l0); [apply (Next _ _ _ R); lia|].
    destruct (negb (isRowStart l0)); [apply (Next _ _ _ R); lia|].
    destruct (re_match re_type_rest l0) as [m0|] eqn:M0;
      [|apply (Next _ _ _ R); lia].
    destruct (type_rest_match _ _ M0) as [c0 [r0 [_ [H1 H2]]]].
    rewrite H1, H2 in R. simpl in R.
    destruct (re_match re_date_time r0) as [dt0|] eqn:D0;
      [|apply (Next _ _ _ R); lia].
    destruct (date_time_match _ _ D0)
      as [g1 [g2 [g3 [g4 [_ [F1 [F2 [F3 F4]]]]]]]].
    rewrite F1, F2, F3, F4 in R. simpl in R.
    rewrite venue_lines_spec in R. cbv beta iota in R.
    apply (Next _ _ _ R).
    assert (Nk : nth_error (skipn (S i) lines) (k - S i) = Some line).
    { rewrite nth_error_skipn. now replace (S i + (k - S i)) with k by lia. }
    pose proof (take_while_stop _
                  (fun l => negb (isRowStart l) && negb (V2.isHeaderSection l))
                  _ _ _ Nk) as Stop.
    cbv beta in Stop. rewrite RS in Stop. specialize (Stop eq_refl). lia.
Qed.

Lemma well_formed_line_row (txt : jsstring) (i : nat)
    (line code rst label date kickoff pairing : jsstring) :
  nth_error (input_lines txt) i = Some line ->
  row_start line code rst -> starts_with_text rst = true ->
  full_pattern rst label date kickoff pairing -> has_date label = false ->
  (exists raws r,
      V1.tokenize txt = Returns raws /\ In r raws
      /\ row_fields r i code label date kickoff pairing)
  /\ (V2.isHeaderSection line = false ->
      exists raws r,
        V2.tokenize txt = Returns raws /\ In r raws
        /\ row_fields r i code label date kickoff pairing).
Proof.
  intros N RS T FP ND.
  pose proof (well_formed_line_reads _ _ _ _ _ _ _ RS T FP ND) as LR. split.
  - destruct (V1_rows_returns (input_lines txt) 0 [] []) as [raws R].
    destruct (V1_rows_complete _ _ _ _ _ _ _ _ _ _ _ _ R N LR) as [r [Hr F]].
    exists raws, r. split; [exact R | split; [exact Hr | exact F]].
  - intros Hd. destruct (V2_tokenize_returns txt) as [raws [R T2]].
    destruct (V2_rows_complete _ _ _ _ _ _ _ _ N Hd LR _ _ _ _ _ R (Nat.le_0_l i))
      as [r [Hr F]].
    exists raws, r. split; [exact T2 | split; [exact Hr | exact F]].
Qed.

(** X23.  A line of the input that is a type code, white space and a
    remainder of label, date, kickoff and pairing, whose label begins with
    text and holds no date, gives a row with exactly these fields, the
    label and the pairing trimmed: in the first variant always, in the
    second variant when the line is not taken as a header. *)
Theorem well_formed_line_gives_row :
  forall (txt : jsstring) (i : nat)
         (line code rst label date kickoff pairing : jsstring),
    nth_error (input_lines txt) i = Some line ->
    row_start line code rst -> starts_with_text rst = true ->
    full_pattern rst label date kickoff pairing -> has_date label = false ->
    (exists raws r,
        V1.tokenize txt = Returns raws /\ In r raws
        /\ row_fields r i code label date kickoff pairing)
    /\ (V2.isHeaderSection line = false ->
        exists raws r,
          V2.tokenize txt = Returns raws /\ In r raws
          /\ row_fields r i code label date kickoff pairing).
Proof. exact well_formed_line_row. Qed.

Lemma sample_home_row_start :
  row_start sample_home_row (u "ME")
    (u "Kreisliga 21.09.2025 15:00 TSV Lonnerstadt SpVgg Reuth").
Proof.
  exists (u " "). repeat split; try reflexivity; try discriminate.
  right. left. reflexivity.
Qed.

Lemma sample_home_row_pattern :
  full_pattern (u "Kreisliga 21.09.2025 15:00 TSV Lonnerstadt SpVgg Reuth")
    (u "Kreisliga") (u "21.09.2025") (u "15:00")
    (u "TSV Lonnerstadt SpVgg Reuth").
Proof.
  exists 32%N, 32%N, 32%N. repeat split; try reflexivity. left. reflexivity.
Qed.

Lemma well_formed_line_gives_row_witness :
  nth_error (input_lines sample_text) 2 = Some sample_home_row
  /\ has_date (u "Kreisliga") = false
  /\ V2.isHeaderSection sample_home_row = false
  /\ exists raws r,
       V2.tokenize sample_text = Returns raws /\ In r raws
       /\ row_fields r 2 (u "ME") (u "Kreisliga") (u "21.09.2025") (u "15:00")
            (u "TSV Lonnerstadt SpVgg Reuth").
Proof.
  assert (N : nth_error (input_lines sample_text) 2 = Some sample_home_row)
    by (vm_compute; reflexivity).
  assert (ND : has_date (u "Kreisliga") = false) by (vm_compute; reflexivity).
  assert (Hd : V2.isHeaderSection sample_home_row = false)
    by (vm_compute; reflexivity).
  split; [exact N | split; [exact ND | split; [exact Hd|]]].
  exact (proj2 (well_formed_line_gives_row sample_text 2 sample_home_row _ _ _ _
                  _ _ N sample_home_row_start eq_refl sample_home_row_pattern ND)
           Hd).
Defined.

(** X24.  In the second variant such a line, when it is not taken as a
    header and its kickoff is not SPIELFREI, gives a record of the output:
    its time is the kickoff, its date the converted date, its competition
    the type code and the label, its teams the split of the trimmed
    pairing, its venue the text of the continuation lines and its section
    the last header before the line. *)
Theorem well_formed_line_gives_record :
  forall (H : Host) (txt : jsstring) (prefixes prefixes' : list jsstring)
         (games : list GameItem.t) (i : nat)
         (line code rst label date kickoff pairing : jsstring),
    V2.parseBFVText txt prefixes = Returns (games, prefixes') ->
    nth_error (input_lines txt) i = Some line ->
    V2.isHeaderSection line = false ->
    row_start line code rst -> starts_with_text rst = true ->
    full_pattern rst label date kickoff pairing -> has_date label = false ->
    toUpperCase kickoff <> SPIELFREI ->
    let split := fst (detectHomeAndSplit (trim pairing) prefixes) in
    exists g,
      In g games
      /\ GameItem.time g = kickoff
      /\ GameItem.date g = toISODate date
      /\ GameItem.competition g = trim (code ++ u " " ++ trim label)
      /\ GameItem.homeTeam g = Split.homeTeam split
      /\ GameItem.awayTeam g = Split.awayTeam split
      /\ GameItem.isHome g = Split.isHome split
      /\ GameItem.venue g = venue_text (input_lines txt) i
      /\ GameItem.section g
         = section_before V2.isHeaderSection (input_lines txt) i.
Proof.
  intros H txt ps ps' games i line code rst label date kickoff pairing
         P N Hd RS T FP ND NS split.
  destruct (V2_parse_rows _ _ _ _ P) as [raws [Tk ->]].
  destruct (proj2 (well_formed_line_row _ _ _ _ _ _ _ _ _ N RS T FP ND) Hd)
    as [raws' [r [Tk' [Hr [Fi [Fc [Fl [Fd [Ft Fp]]]]]]]]].
  rewrite Tk in Tk'. injection Tk' as <-.
  destruct (V2_map_other r ps) as [g M]; [now rewrite Ft|].
  destruct (V2_tokenize_returns txt) as [out [R T']].
  rewrite Tk in T'. injection T' as <-.
  destruct (V2_rows_layout _ _ _ _ _ _ (input_lines_nonempty txt) eq_refl R)
    as [_ Q]; try (constructor; fail).
  rewrite Forall_forall in Q. destruct (Q r Hr) as [Qs Qv].
  destruct (V2_map_record _ _ _ _ M) as [_ [Ed [_ [Es [Ec _]]]]].
  destruct (V2_map_some _ _ _ M) as [_ [Et [Ev [Eh [Ea [Ei _]]]]]].
  exists g. split.
  { apply array_sort_In, filter_non_null_In, in_map_iff. now exists r. }
  unfold split. rewrite <- Fp, <- Fi.
  repeat split; congruence.
Qed.

Lemma well_formed_line_gives_record_witness :
  V2.parseBFVText (H := latin1_host) sample_text OUR_TEAM_PREFIXES
  = Returns (sample_games, sorted_prefixes)
  /\ nth_error (input_lines sample_text) 2 = Some sample_home_row
  /\ toUpperCase (Host := latin1_host) (u "15:00") <> SPIELFREI
  /\ exists g,
       In g sample_games
       /\ GameItem.time g = u "15:00"
       /\ GameItem.date g = toISODate (H := latin1_host) (u "21.09.2025")
       /\ GameItem.competition g = trim (u "ME" ++ u " " ++ trim (u "Kreisliga"))
       /\ GameItem.homeTeam g
          = Split.homeTeam
              (fst (detectHomeAndSplit (trim (u "TSV Lonnerstadt SpVgg Reuth"))
                      OUR_TEAM_PREFIXES))
       /\ GameItem.awayTeam g
          = Split.awayTeam
              (fst (detectHomeAndSplit (trim (u "TSV Lonnerstadt SpVgg Reuth"))
                      OUR_TEAM_PREFIXES))
       /\ GameItem.isHome g
          = Split.isHome
              (fst (detectHomeAndSplit (trim (u "TSV Lonnerstadt SpVgg Reuth"))
                      OUR_TEAM_PREFIXES))
       /\ GameItem.venue g = venue_text (input_lines sample_text) 2
       /\ GameItem.section g
          = section_before V2.isHeaderSection (input_lines sample_text) 2.
Proof.
  assert (P : V2.parseBFVText (H := latin1_host) sample_text OUR_TEAM_PREFIXES
              = Returns (sample_games, sorted_prefixes))
    by (vm_compute; reflexivity).
  assert (N : nth_error (input_lines sample_text) 2 = Some sample_home_row)
    by (vm_compute; reflexivity).
  assert (NS : toUpperCase (Host := latin1_host) (u "15:00") <> SPIELFREI)
    by (vm_compute; discriminate).
  split; [exact P | split; [exact N | split; [exact NS|]]].
  exact (well_formed_line_gives_record latin1_host sample_text OUR_TEAM_PREFIXES
           sorted_prefixes sample_games 2 sample_home_row _ _ _ _ _ _
           P N eq_refl sample_home_row_start eq_refl sample_home_row_pattern
           eq_refl NS).
Defined.

(** ** The lines of the input *)

Lemma replace_nbsp_visible (s : jsstring) :
  visible (replace_nbsp s) = visible s.
Proof.
  unfold visible, replace_nbsp. induction s as [|c s IH]; [reflexivity|]. simpl.
  destruct (cu_eqb c 160) eqn:E.
  - apply cu_eqb_eq in E. subst c.
    change (isWhiteSpace 32) with true. change (isWhiteSpace 160) with true.
    simpl. exact IH.
  - destruct (isWhiteSpace c); simpl; [exact IH | now rewrite IH].
Qed.

Lemma visible_app (a b : jsstring) : visible (a ++ b) = visible a ++ visible b.
Proof. apply filter_app. Qed.

Lemma split_lines_from_visible (n : nat) :
  forall (s cur : jsstring),
    List.length s <= n ->
    visible (List.concat (split_lines_from cur s)) = visible (rev cur ++ s).
Proof.
  induction n as [|n IH]; intros s cur L.
  { destruct s; [|simpl in L; lia]. simpl. now rewrite !app_nil_r. }
  destruct s as [|c s]; [simpl; now rewrite !app_nil_r|].
  simpl in L. cbn [split_lines_from].
  destruct (cu_eqb c 10) eqn:E10.
  { apply cu_eqb_eq in E10. subst c. cbn [List.concat].
    rewrite !visible_app, (IH s []) by lia. reflexivity. }
  assert (Keep : visible (List.concat (split_lines_from (c :: cur) s))
                 = visible (rev cur ++ c :: s)).
  { rewrite (IH s (c :: cur)) by lia. simpl rev.
    now rewrite <- app_assoc. }
  destruct s as [|d s]; [exact Keep|].
  destruct (cu_eqb c 13 && cu_eqb d 10) eqn:E; [|exact Keep].
  apply andb_true_iff in E as [Ec Ed]. apply cu_eqb_eq in Ec, Ed. subst c d.
  cbn [List.concat]. simpl in L.
  rewrite !visible_app, (IH s []) by lia. reflexivity.
Qed.

Lemma split_lines_from_no_feed (n : nat) :
  forall (s cur : jsstring),
    List.length s <= n -> ~ In 10%N cur ->
    Forall (fun l => ~ In 10%N l) (split_lines_from cur s).
Proof.
  induction n as [|n IH]; intros s cur L Hc.
  { destruct s; [|simpl in L; lia]. constructor; [|constructor].
    now rewrite <- in_rev. }
  destruct s as [|c s].
  { constructor; [|constructor]. now rewrite <- in_rev. }
  simpl in L. cbn [split_lines_from].
  destruct (cu_eqb c 10) eqn:E10.
  { constructor; [now rewrite <- in_rev|]. apply IH; [lia | intros []]. }
  assert (Hc' : ~ In 10%N (c :: cur)).
  { intros [E | Hin]; [|now apply Hc].
    subst c. discriminate. }
  destruct s as [|d s]; [apply IH; [simpl; lia | exact Hc']|].
  destruct (cu_eqb c 13 && cu_eqb d 10).
  - constructor; [now rewrite <- in_rev|]. simpl in L.
    apply IH; [lia | intros []].
  - apply IH; [simpl in *; lia | exact Hc'].
Qed.

Lemma trim_incl (s : jsstring) (x : N) : In x (trim s) -> In x s.
Proof.
  unfold trim, trimStart. intros Hin.
  destruct (trimEnd_prefix (dropWhile isWhiteSpace s)) as [l E].
  destruct (dropWhile_suffix isWhiteSpace s) as [l' [E' _]].
  rewrite E', E. apply in_or_app. right. apply in_or_app. now left.
Qed.

Lemma trim_idempotent (s : jsstring) : trim (trim s) = trim s.
Proof.
  apply trim_fixed.
  - intros c r E. exact (trim_head _ _ _ E).
  - intros c r E. exact (trim_last _ _ _ E).
Qed.

Lemma input_lines_visible (L : list jsstring) :
  visible (List.concat (filter (fun l => 0 <? List.length l)
                     (map (fun l => trim (replace_nbsp l)) L)))
  = visible (List.concat L).
Proof.
  induction L as [|l L IH]; [reflexivity|]. cbn [map filter List.concat].
  assert (V : visible (trim (replace_nbsp l)) = visible l).
  { unfold visible. rewrite visible_trim. apply replace_nbsp_visible. }
  rewrite visible_app, <- V.
  destruct (trim (replace_nbsp l)) as [|c t]; simpl.
  - exact IH.
  - change (visible (c :: t ++ List.concat (filter (fun l0 => 0 <? List.length l0)
                                        (map (fun l0 => trim (replace_nbsp l0)) L)))
            = visible (c :: t) ++ visible (List.concat L)).
    change (c :: t ++ ?x) with ((c :: t) ++ x).
    now rewrite visible_app, IH.
Qed.

(** X25.  The lines that the parser works on: each is not empty, begins
    and ends with a character that is not white space, and contains
    neither a line feed nor a non-breaking space.  Splitting and trimming
    lose nothing but white space: the characters of the lines that are not
    white space are those of the text, in their order. *)
Theorem input_lines_are_trimmed :
  forall txt : jsstring,
    Forall (fun l => l <> [] /\ trim l = l
                     /\ ~ In 10%N l /\ ~ In 160%N l) (input_lines txt)
    /\ visible (List.concat (input_lines txt)) = visible txt.
Proof.
  intros txt. split.
  - apply Forall_forall. intros l Hl.
    pose proof (input_lines_nonempty txt) as NE.
    rewrite Forall_forall in NE. split; [now apply NE|].
    unfold input_lines in Hl. apply filter_In in Hl as [Hl _].
    apply in_map_iff in Hl as [l0 [<- Hl0]].
    split; [apply trim_idempotent|]. split.
    + intros Hin. apply trim_incl in Hin. unfold replace_nbsp in Hin.
      apply in_map_iff in Hin as [c [Ec Hc]].
      pose proof (split_lines_from_no_feed (List.length txt) txt [] (le_n _)
                    (fun F => F)) as NF.
      rewrite Forall_forall in NF. apply (NF l0 Hl0).
      destruct (cu_eqb c 160); [discriminate | now subst c].
    + intros Hin. apply trim_incl in Hin. unfold replace_nbsp in Hin.
      apply in_map_iff in Hin as [c [Ec Hc]].
      destruct (cu_eqb c 160) eqn:E; [discriminate|].
      subst c. discriminate.
  - unfold input_lines. rewrite input_lines_visible. unfold split_lines.
    now rewrite (split_lines_from_visible (List.length txt) txt [] (le_n _)).
Qed.

(** ** The boilerplate test *)

Lemma run_alts_In (rs : list regex) (st z : mstate) :
  rs <> [] -> In z (run (alts rs) st) <-> exists r, In r rs /\ In z (run r st).
Proof.
  induction rs as [|r rs IH]; intros NE; [congruence|].
  destruct rs as [|r' rs].
  - simpl. split; [intros Hz; exists r; auto|].
    intros [r0 [[<- | []] Hz]]. exact Hz.
  - change (alts (r :: r' :: rs)) with (Alt r (alts (r' :: rs))). cbn [run].
    rewrite in_app_iff, IH by discriminate. split.
    + intros [Hz | [r0 [Hr Hz]]]; [exists r | exists r0]; split; auto.
      * now left.
      * now right.
    + intros [r0 [[<- | Hr] Hz]]; [now left|]. right. now exists r0.
Qed.

(** X26.  The boilerplate test of the venue loop holds exactly for a line
    that begins with one of the words [Kursiv], [Ergebnisse],
    [VEREINSSPIELPLAN] and [Seite], in any case of the letters. *)
Theorem boilerplate_test :
  forall l : jsstring,
    re_test V2.re_boilerplate l = true
    <-> exists k b kw,
          l = k ++ b /\ In kw boilerplate_words /\ ci_eqb kw k = true.
Proof.
  intros l.
  change V2.re_boilerplate
    with (alts (map (fun kw => Seq Bol (lit_ci kw)) boilerplate_words)).
  unfold re_test, re_match. split.
  - destruct (exec_from _ 0 l) as [m|] eqn:E; [|discriminate]. intros _.
    destruct (exec_from_sound _ _ _ _ E) as [a [t [-> Hin]]].
    apply run_alts_In in Hin as [r [Hr Hz]]; [|discriminate].
    apply in_map_iff in Hr as [kw [<- Hkw]].
    apply run_seq in Hz as [s0 [H0 Hz]]. simpl in H0.
    destruct a as [|c a]; [|destruct H0].
    destruct H0 as [<- | []].
    destruct (run_sound _ _ _ Hz) as [w [R [_ L]]]. simpl in R.
    exists w, (rest (m_end m)), kw. repeat split; auto.
    now apply lang_lit_ci.
  - intros [k [b [kw [-> [Hkw E]]]]].
    assert (A : anchor_free (lit_ci kw) = true).
    { destruct Hkw as [<- | [<- | [<- | [<- | []]]]]; reflexivity. }
    apply lang_lit_ci in E.
    destruct (run_complete _ A k {| pos := 0; rest := k ++ b; caps := [] |} b E
                eq_refl) as [st' [Hin _]].
    assert (Hin' : In st' (run (alts (map (fun kw => Seq Bol (lit_ci kw))
                                        boilerplate_words))
                             {| pos := 0 + List.length (@nil N);
                                rest := k ++ b; caps := [] |})).
    { apply run_alts_In; [discriminate|]. exists (Seq Bol (lit_ci kw)).
      split; [exact (in_map (fun w => Seq Bol (lit_ci w)) _ _ Hkw)|].
      simpl. rewrite app_nil_r. exact Hin. }
    destruct (exec_from_complete _ [] _ _ _ Hin') as [m Em].
    simpl app in Em. now rewrite Em.
Qed.
